(** * spacemake.quant: counting annotated alignments into a DGE matrix

    A shallow embedding of [src/spacemake/bin/quant.py]: the two
    disambiguation stages of [DefaultCounter], the channel determination,
    the (cell, UMI) uniqueness test, the [DGE] count store and its
    conversion to sparse matrices, the BAM reader with the loop of [main]
    that consumes it, and the flavor configuration, followed by the
    properties of the specification that concern them and by further
    properties of the code.

    Conventions of the embedding.
    - Python [str] values are [string]; BAM tags are printable ASCII, so a
      character is an [ascii] and [sorted] on strings is the lexicographic
      order [String.le].
    - Python [int] priorities are [Z]; counters that start at 0 and are only
      incremented are [nat].
    - [dict]/[defaultdict] used only through lookups are [gmap]; the
      [counts] dictionary, whose iteration order fixes the order of the
      COO triples handed to scipy, is an insertion-ordered association list.
    - [set] is [gset].
    - A Python exception is the [Raise] result; the state at the time of
      the exception is dropped, except by [make_sparse_arrays], which
      returns the aggregator it leaves in both cases. *)

From Stdlib Require Import ZArith Lia Ascii String.
From stdpp Require Import base option list gmap fin_sets finite strings sorting.

#[local] Set Warnings "-clear-no-such-hyp".

(** ** Python values and exceptions *)

Module Py.

Inductive exn := IndexError | KeyError | TypeError | ValueError.

Inductive result (A : Type) : Type :=
| Ok (a : A)
| Raise (e : exn).
Arguments Ok {A} a.
Arguments Raise {A} e.

#[global] Instance result_ret : MRet result := λ A a, Ok a.
#[global] Instance result_bind : MBind result := λ A B f m,
  match m with
  | Ok a => f a
  | Raise e => Raise e
  end.

(** [l[0]] *)
Definition index0 {A} (l : list A) : result A :=
  match l with
  | x :: _ => Ok x
  | [] => Raise IndexError
  end.

(** [max(l)] on a list of ints; [max([])] raises [ValueError]. *)
Definition py_max (l : list Z) : result Z :=
  match l with
  | [] => Raise ValueError
  | x :: l' => Ok (foldl Z.max x l')
  end.

(** [d.get(k, 0)] and [d[k]] on a [defaultdict(int)] *)
Definition get0 (d : gmap string Z) (k : string) : Z := default 0%Z (d !! k).

(** The items produced by iterating over a [str]: its characters, each a
    [str] of length one. *)
Definition chars (s : string) : list string :=
  (λ a, String a EmptyString) <$> list_ascii_of_string s.

Definition is_upper (a : ascii) : bool :=
  let n := nat_of_ascii a in (65 <=? n)%nat && (n <=? 90)%nat.
Definition is_lower (a : ascii) : bool :=
  let n := nat_of_ascii a in (97 <=? n)%nat && (n <=? 122)%nat.

(** [s.islower()]: at least one cased character and no upper-case one. *)
Definition islower (s : string) : bool :=
  let cs := list_ascii_of_string s in
  existsb is_lower cs && negb (existsb is_upper cs).

(** The value bound to [gene] in [process_bam_bundle]: a [str] on the
    single-gene path and for [select_chrom_as_gene], the list [gn_new] for
    [select_gene_by_priority], or [None]. *)
Inductive gene_val :=
| GStr (s : string)
| GList (l : list string)
| GNone.

(** [if gene:] *)
Definition truthy (g : gene_val) : bool :=
  match g with
  | GStr s => negb (String.eqb s "")
  | GList l => negb (bool_decide (l = []))
  | GNone => false
  end.

(** The value bound to [gf] once the gene is chosen: the [str] [gf[0]] on
    the single-gene path, a list of feature codes after [select_gene], or
    [None]. *)
Inductive gf_val :=
| FStr (s : string)
| FList (l : list string)
| FNone.

(** [for f in gf] *)
Definition items (gf : gf_val) : result (list string) :=
  match gf with
  | FStr s => Ok (chars s)
  | FList l => Ok l
  | FNone => Raise TypeError
  end.

End Py.
Import Py.

(** ** Module-level defaults of quant.py *)

Definition default_channels : list string :=
  ["counts"; "exonic_counts"; "exonic_reads"; "intronic_counts"; "intronic_reads"].
Definition default_X_counts : list string := ["exonic_counts"; "intronic_counts"].

Definition default_alignment_priorities : gmap string Z :=
  list_to_map
    [("C", 101); ("c", 100); ("U", 51); ("u", 50); ("CU", 51); ("cu", 50);
     ("N", 21); ("n", 20); ("I", 11); ("i", 10); ("-", 0)]%Z.
Definition default_gene_priorities : gmap string Z :=
  list_to_map
    [("C", 101); ("c", 100); ("U", 51); ("u", 50); ("CU", 51); ("cu", 50);
     ("N", 21); ("n", 20); ("I", 11); ("i", 10); ("-", 0)]%Z.

Definition default_exonic_tags : list string :=
  ["C"; "U"; "CU"; "N"; "c"; "u"; "cu"; "n"].
Definition default_intronic_tags : list string := ["I"; "i"].

(** [exon_intron_disambiguation_functions], a table of three lambdas *)
Inductive policy := exon_wins | intron_wins | count_both.

Definition exon_intron_disambiguation_functions (name : string) : result policy :=
  if String.eqb name "exon_wins" then Ok exon_wins
  else if String.eqb name "intron_wins" then Ok intron_wins
  else if String.eqb name "count_both" then Ok count_both
  else Raise KeyError.

Definition apply_policy (p : policy) (channels : gset string) : gset string :=
  match p with
  | exon_wins => channels ∖ list_to_set ["intronic_reads"; "intronic_counts"]
  | intron_wins => channels ∖ list_to_set ["exonic_reads"; "exonic_counts"]
  | count_both => channels
  end.

(** One alignment of a bundle: [(chrom, strand, gn, gf, score)].  The
    reader yields the [str] ['-'] in place of a missing [gn] or [gf] tag;
    under [len], [[0]], [zip] and iteration it behaves as the list [['-']],
    which is how it is represented here. *)
Record alignment := {
  chrom : string;
  strand : string;
  gn : list string;
  gf : list string;
  score : Z
}.

#[global] Instance alignment_eq_dec : EqDecision alignment.
Proof. solve_decision. Defined.

(** ** class DefaultCounter *)

Inductive alignment_strategy := aln_priority | aln_take_first.
Inductive gene_strategy := gene_priority | gene_chrom.

(** The configuration fixed by [__init__]; [stats] and [uniq], which the
    counter mutates, are in [counter_state]. *)
Record DefaultCounter := {
  channels : list string;
  alignment_priorities : gmap string Z;
  gene_priorities : gmap string Z;
  exonic_set : gset string;
  intronic_set : gset string;
  select_alignment : alignment_strategy;
  select_gene : gene_strategy;
  count_X_channels : gset string;
  exon_intron_disambiguation_func : policy
}.

Definition alignment_selection_table (name : string) : result alignment_strategy :=
  if String.eqb name "priority" then Ok aln_priority
  else if String.eqb name "take_first" then Ok aln_take_first
  else Raise KeyError.

Definition gene_selection_table (name : string) : result gene_strategy :=
  if String.eqb name "priority" then Ok gene_priority
  else if String.eqb name "chrom" then Ok gene_chrom
  else Raise KeyError.

(** [DefaultCounter.__init__]: the three string-keyed tables are indexed
    at construction time. *)
Definition init_counter (channels : list string)
    (alignment_priorities gene_priorities : gmap string Z)
    (exonic_tags intronic_tags X_counts : list string)
    (exon_intron_disambiguation alignment_selection gene_selection : string)
  : result DefaultCounter :=
  sa ← alignment_selection_table alignment_selection;
  sg ← gene_selection_table gene_selection;
  pol ← exon_intron_disambiguation_functions exon_intron_disambiguation;
  Ok {| channels := channels;
        alignment_priorities := alignment_priorities;
        gene_priorities := gene_priorities;
        exonic_set := list_to_set exonic_tags;
        intronic_set := list_to_set intronic_tags;
        select_alignment := sa;
        select_gene := sg;
        count_X_channels := list_to_set X_counts;
        exon_intron_disambiguation_func := pol |}.

Definition default_counter : DefaultCounter :=
  {| channels := default_channels;
     alignment_priorities := default_alignment_priorities;
     gene_priorities := default_gene_priorities;
     exonic_set := list_to_set default_exonic_tags;
     intronic_set := list_to_set default_intronic_tags;
     select_alignment := aln_priority;
     select_gene := gene_priority;
     count_X_channels := list_to_set default_X_counts;
     exon_intron_disambiguation_func := exon_wins |}.

(** *** Alignment selection strategies *)

Definition select_first_alignment (bundle : list alignment) : result alignment :=
  index0 bundle.

(** [get_prio] of [select_alignment_by_priority] *)
Definition get_prio (prios : gmap string Z) (gf : list string) : result Z :=
  py_max (get0 prios <$> gf).

(** The loop variables [top_prio], [n_top], [kept]. *)
Record scan_state := {
  top_prio : Z;
  n_top : nat;
  kept : option alignment
}.

Definition scan_step (prios : gmap string Z) (st : scan_state) (a : alignment)
  : result scan_state :=
  p ← get_prio prios (gf a);
  if decide (p > top_prio st)%Z then
    Ok {| top_prio := p; kept := Some a; n_top := 1 |}
  else if decide (p = top_prio st) then
    Ok {| top_prio := top_prio st; n_top := n_top st + 1; kept := Some a |}
  else Ok st.

Fixpoint scan (prios : gmap string Z) (st : scan_state) (bundle : list alignment)
  : result scan_state :=
  match bundle with
  | [] => Ok st
  | a :: rest => st' ← scan_step prios st a; scan prios st' rest
  end.

Definition select_alignment_by_priority (prios : gmap string Z)
    (bundle : list alignment) : result (option alignment) :=
  st ← scan prios {| top_prio := 0; n_top := 0; kept := None |} bundle;
  if decide (n_top st = 1) then Ok (kept st) else Ok None.

(** *** Gene selection strategies *)

Definition select_chrom_as_gene (a : alignment) : gene_val * gf_val :=
  (GStr (chrom a), FList ["N"]).

(** The loop variables [gene_prio], [gene_gf], [max_prio]; both
    dictionaries are [defaultdict]s. *)
Record gene_state := {
  gene_prio : gmap string Z;
  gene_gf : gmap string (list string);
  max_prio : Z
}.

Definition gene_step (prios : gmap string Z) (st : gene_state) (nf : string * string)
  : gene_state :=
  let '(n, f) := nf in
  let p := get0 prios f in
  {| gene_prio := <[n := Z.max (get0 (gene_prio st) n) p]> (gene_prio st);
     max_prio := Z.max (max_prio st) p;
     gene_gf := <[n := default [] (gene_gf st !! n) ++ [f]]> (gene_gf st) |}.

Definition gene_scan (prios : gmap string Z) (gn gf : list string) : gene_state :=
  foldl (gene_step prios) {| gene_prio := ∅; gene_gf := ∅; max_prio := 0 |} (zip gn gf).

(** [set(gn)] is iterated in an unspecified order; the outcome only
    depends on the filtered list when it has exactly one element, which no
    order changes. *)
Definition select_gene_by_priority (prios : gmap string Z) (a : alignment)
  : gene_val * gf_val :=
  let st := gene_scan prios (gn a) (gf a) in
  let gn_new :=
    filter (λ n, get0 (gene_prio st) n = max_prio st)
           (elements (list_to_set (gn a) : gset string)) in
  if decide (length gn_new = 1) then
    match gn a with
    | g0 :: _ => (GList gn_new, FList (default [] (gene_gf st !! g0)))
    | [] => (GNone, FNone)
    end
  else (GNone, FNone).

(** *** Count-channel determination *)

Record channel_state := {
  chans : gset string;
  exon : bool;
  intron : bool
}.

Definition channel_step (c : DefaultCounter) (uniq : bool) (st : channel_state)
    (f : string) : channel_state :=
  if decide (f ∈ exonic_set c) then
    let ch := {["exonic_reads"]} ∪ chans st in
    {| chans := if uniq then {["exonic_counts"]} ∪ ch else ch;
       exon := true; intron := intron st |}
  else if decide (f ∈ intronic_set c) then
    let ch := {["intronic_reads"]} ∪ chans st in
    {| chans := if uniq then {["intronic_counts"]} ∪ ch else ch;
       exon := exon st; intron := true |}
  else st.

(** [channels] as it stands right after the exon/intron post-processing,
    before the main channel is considered. *)
Definition post_policy_channels (c : DefaultCounter) (gf : list string) (uniq : bool)
  : gset string :=
  let st := foldl (channel_step c uniq)
                  {| chans := ∅; exon := false; intron := false |} gf in
  if exon st && intron st then
    apply_policy (exon_intron_disambiguation_func c) (chans st)
  else chans st.

Definition determine_channels (c : DefaultCounter) (gf : list string) (uniq : bool)
  : gset string :=
  let channels := post_policy_channels c gf uniq in
  if decide (channels ∩ count_X_channels c ≠ ∅) then {["counts"]} ∪ channels
  else channels.

(** *** The mutable part of a counter and its monad *)

(** [self.stats] (a [defaultdict(int)] handed over by [main]) and
    [self.uniq], the set of hash values of the (cell, UMI) pairs seen. *)
Record counter_state := {
  stats : gmap string nat;
  uniq : gset Z
}.

(** Computations that read and update the counter state and may raise. *)
Definition M (A : Type) : Type := counter_state → result (A * counter_state).

#[global] Instance M_ret : MRet M := λ A a st, Ok (a, st).
#[global] Instance M_bind : MBind M := λ A B f m st,
  match m st with
  | Ok (a, st') => f a st'
  | Raise e => Raise e
  end.

Definition lift {A} (r : result A) : M A := λ st,
  match r with
  | Ok a => Ok (a, st)
  | Raise e => Raise e
  end.

(** [self.stats[name] += 1] *)
Definition bump (name : string) : M unit := λ st,
  Ok ((), {| stats := <[name := S (default 0 (stats st !! name))]> (stats st);
             uniq := uniq st |}).

Fixpoint bump_all (names : list string) : M unit :=
  match names with
  | [] => mret ()
  | n :: rest => _ ← bump n; bump_all rest
  end.

Section process.

(** Python's builtin [hash] on the tuple [(cell, umi)]; its values are
    machine integers ([Py_hash_t]). *)
Variable hash : string * string → Z.
Variable c : DefaultCounter.

(** The uniqueness test of [process_bam_bundle]:
    [key = hash((cell, umi)); uniq = not (key in self.uniq);
     if uniq: self.uniq.add(key)]. *)
Definition observe (cell umi : string) : M bool := λ st,
  let key := hash (cell, umi) in
  let u := negb (bool_decide (key ∈ uniq st)) in
  Ok (u, if u then {| stats := stats st; uniq := {[key]} ∪ uniq st |} else st).

(** [self.select_alignment(bundle)], bound in [__init__] *)
Definition call_select_alignment (bundle : list alignment) : result (option alignment) :=
  match select_alignment c with
  | aln_priority => select_alignment_by_priority (alignment_priorities c) bundle
  | aln_take_first => a ← select_first_alignment bundle; Ok (Some a)
  end.

(** [self.select_gene( *selected)], bound in [__init__] *)
Definition call_select_gene (a : alignment) : gene_val * gf_val :=
  match select_gene c with
  | gene_priority => select_gene_by_priority (gene_priorities c) a
  | gene_chrom => select_chrom_as_gene a
  end.

(** [process_bam_bundle], first block: the choice of [selected]. *)
Definition choose_alignment (bundle : list alignment) : M (option alignment) :=
  if decide (length bundle = 1) then
    _ ← bump "N_aln_unique";
    a ← lift (index0 bundle);
    mret (Some a)
  else
    _ ← bump "N_aln_multi";
    selected ← lift (call_select_alignment bundle);
    _ ← bump (if selected is Some _ then "N_aln_selected"
              else "N_aln_selection_failed");
    mret selected.

(** [process_bam_bundle], second block: the choice of [gene] and [gf]
    inside [if selected:]. *)
Definition choose_gene (a : alignment) : M (gene_val * gf_val) :=
  _ ← bump "N_aln_countable";
  _ ← bump ("N_aln_" +:+ strand a);
  if decide (length (gn a) = 1) then
    _ ← bump "N_gene_unique";
    gene ← lift (index0 (gn a));
    gf0 ← lift (index0 (gf a));
    mret (GStr gene, FStr gf0)
  else
    _ ← bump "N_gene_multi";
    let r := call_select_gene a in
    _ ← bump (if truthy r.1 then "N_gene_selected"
              else "N_gene_selection_failed");
    mret r.

(** [process_bam_bundle], third block: the body of [if gene:]. *)
Definition count_alignment (cell umi : string) (gf : gf_val) : M (gset string) :=
  _ ← bump "N_aln_counted";
  fs ← lift (items gf);
  f0 ← lift (index0 fs);
  _ ← bump (if islower f0 then "N_aln_antisense" else "N_aln_sense");
  uniq ← observe cell umi;
  let channels := determine_channels c fs uniq in
  _ ← bump_all ((λ ch, "N_channel_" +:+ ch) <$> elements channels);
  _ ← (if decide (channels = ∅) then bump "N_channel_NONE" else mret ());
  mret channels.

Definition process_bam_bundle (cell umi : string) (bundle : list alignment)
  : M (gene_val * gset string) :=
  selected ← choose_alignment bundle;
  match selected with
  | None => mret (GNone, ∅)
  | Some a =>
    '(gene, gf) ← choose_gene a;
    if truthy gene then
      channels ← count_alignment cell umi gf;
      mret (gene, channels)
    else mret (gene, ∅)
  end.

End process.

(** ** Insertion-ordered dictionaries

    [counts] and the [OrderedDict] of sparse matrices are iterated, so
    their order is part of the model: a new key goes to the end, an
    existing key keeps its place. *)

Section alist.
Context {K V : Type} `{EqDecision K}.

(** [d.get(k)] *)
Fixpoint alist_get (k : K) (d : list (K * V)) : option V :=
  match d with
  | [] => None
  | (k', v) :: rest => if decide (k = k') then Some v else alist_get k rest
  end.

(** [d[k] = f(d[k])] on a [defaultdict] whose missing values are [dflt] *)
Fixpoint alist_update (dflt : V) (f : V → V) (k : K) (d : list (K * V)) : list (K * V) :=
  match d with
  | [] => [(k, f dflt)]
  | (k', v) :: rest =>
    if decide (k = k') then (k', f v) :: rest
    else (k', v) :: alist_update dflt f k rest
  end.

End alist.

(** ** scipy.sparse.csr_matrix((data, (row_ind, col_ind)))

    The library call as documented: the three arrays must have the same
    length, entries with the same (row, col) are summed, and, no [shape]
    being passed, the shape is inferred from the largest indices, which
    fails on empty index arrays. *)

Record csr_matrix := {
  shape : nat * nat;
  coo : list (nat * nat * nat)
}.

Definition csr_from_coo (data row_ind col_ind : list nat) : result csr_matrix :=
  match row_ind, col_ind with
  | [], _ | _, [] => Raise ValueError
  | _, _ =>
    if decide (length data = length row_ind ∧ length row_ind = length col_ind) then
      Ok {| shape := (S (max_list row_ind), S (max_list col_ind));
            coo := zip (zip row_ind col_ind) data |}
    else Raise ValueError
  end.

(** [m[i, j]] *)
Definition entry (m : csr_matrix) (i j : nat) : nat :=
  sum_list (snd <$> filter (λ t, t.1 = (i, j)) (coo m)).

(** ** class DGE *)

Module DGE.

Record t := {
  channels : list string;
  counts : list ((string * string) * gmap string nat);
  DGE_cells : gset string;
  DGE_genes : gset string;
  allowed_bcs : option (gset string)
}.

Definition is_space (a : ascii) : bool :=
  let n := nat_of_ascii a in
  ((9 <=? n) && (n <=? 13)) || ((28 <=? n) && (n <=? 32)).

Fixpoint lstrip_chars (cs : list ascii) : list ascii :=
  match cs with
  | a :: rest => if is_space a then lstrip_chars rest else cs
  | [] => []
  end.

(** [line.rstrip()] *)
Definition rstrip (s : string) : string :=
  string_of_list_ascii (reverse (lstrip_chars (reverse (list_ascii_of_string s)))).

(** [load_list(fname)]; [lines] is the content of the file. *)
Definition load_list (fname : string) (lines : list string) : option (gset string) :=
  if String.eqb fname "" then None
  else Some (list_to_set (rstrip <$> lines)).

(** [DGE.__init__] *)
Definition init (channels : list string) (cell_bc_allowlist : string)
    (lines : list string) : t :=
  {| channels := channels; counts := []; DGE_cells := ∅; DGE_genes := ∅;
     allowed_bcs := load_list cell_bc_allowlist lines |}.

(** [self.allowed_bcs and not (cell in self.allowed_bcs)]: [None] and the
    empty set are both false. *)
Definition not_allowed (s : t) (cell : string) : bool :=
  match allowed_bcs s with
  | None => false
  | Some bcs => bool_decide (bcs ≠ ∅) && negb (bool_decide (cell ∈ bcs))
  end.

(** [self.counts[key][channel] += 1] *)
Definition incr (key : string * string) (counts : list ((string * string) * gmap string nat))
    (channel : string) : list ((string * string) * gmap string nat) :=
  alist_update ∅ (λ d, <[channel := S (default 0 (d !! channel))]> d) key counts.

Definition add_read (s : t) (gene cell : string) (chs : gset string) : t :=
  if decide (chs ≠ ∅) then
    let cell := if not_allowed s cell then "NA" else cell in
    {| channels := channels s;
       counts := foldl (incr (gene, cell)) (counts s) (elements chs);
       DGE_cells := {[cell]} ∪ DGE_cells s;
       DGE_genes := {[gene]} ∪ DGE_genes s;
       allowed_bcs := allowed_bcs s |}
  else s.

(** [sorted(X)] on a set of strings *)
Definition sorted (X : gset string) : list string :=
  merge_sort String.le (elements X).

(** [ind[x] = len(lst); lst.append(x)] *)
Definition index_step (acc : gmap string nat * list string) (x : string)
  : gmap string nat * list string :=
  (<[x := length acc.2]> acc.1, acc.2 ++ [x]).

Definition build_index (l : list string) : gmap string nat * list string :=
  foldl index_step (∅, []) l.

(** [counts_by_channel[channel].append(channel_dict[channel])]; reading
    [channel_dict], a [defaultdict(int)], stores 0 under a missing key. *)
Definition read_channel (acc : gmap string nat * gmap string (list nat)) (channel : string)
  : gmap string nat * gmap string (list nat) :=
  let '(channel_dict, by_channel) := acc in
  (match channel_dict !! channel with
   | Some _ => channel_dict
   | None => <[channel := 0]> channel_dict
   end,
   <[channel := default [] (by_channel !! channel)
                ++ [default 0 (channel_dict !! channel)]]> by_channel).

Record coo_state := {
  counts_by_channel : gmap string (list nat);
  row_ind : list nat;
  col_ind : list nat
}.

(** The loop over [self.counts.items()]. It returns the dictionary as the
    loop leaves it, also when an index lookup raises [KeyError]. *)
Fixpoint gather (chs : list string) (ind_of_cell ind_of_gene : gmap string nat)
    (items : list ((string * string) * gmap string nat)) (st : coo_state)
  : list ((string * string) * gmap string nat) * result coo_state :=
  match items with
  | [] => ([], Ok st)
  | ((gene, cell), channel_dict) :: rest =>
    let '(channel_dict', by_channel) :=
      foldl read_channel (channel_dict, counts_by_channel st) chs in
    match ind_of_cell !! cell, ind_of_gene !! gene with
    | Some i, Some j =>
      let '(rest', r) :=
        gather chs ind_of_cell ind_of_gene rest
               {| counts_by_channel := by_channel;
                  row_ind := row_ind st ++ [i];
                  col_ind := col_ind st ++ [j] |} in
      (((gene, cell), channel_dict') :: rest', r)
    | _, _ => (((gene, cell), channel_dict') :: rest, Raise KeyError)
    end
  end.

(** The loop filling [sparse_channels], an [OrderedDict]. *)
Fixpoint assemble (chs : list string) (st : coo_state)
    (sparse_channels : list (string * csr_matrix))
  : result (list (string * csr_matrix)) :=
  match chs with
  | [] => Ok sparse_channels
  | channel :: rest =>
    m ← csr_from_coo (default [] (counts_by_channel st !! channel))
                     (row_ind st) (col_ind st);
    assemble rest st (alist_update m (λ _, m) channel sparse_channels)
  end.

Definition make_sparse_arrays (s : t)
  : t * result (list (string * csr_matrix) * list string * list string) :=
  let '(ind_of_cell, obs) := build_index (sorted (DGE_cells s)) in
  let '(ind_of_gene, var) := build_index (sorted (DGE_genes s)) in
  let '(counts', r) :=
    gather (channels s) ind_of_cell ind_of_gene (counts s)
           {| counts_by_channel := ∅; row_ind := []; col_ind := [] |} in
  ({| channels := channels s; counts := counts'; DGE_cells := DGE_cells s;
      DGE_genes := DGE_genes s; allowed_bcs := allowed_bcs s |},
   st ← r;
   sparse_channels ← assemble (channels s) st [];
   Ok (sparse_channels, obs, var)).

End DGE.

(** ** The counting loop of [main]

    [for cell, umi, bundle in bam_iter_bundles(...)]: one counter, one
    [DGE] and the [gene_source] dictionary. A list is not hashable, so a
    [gene] that is a list raises [TypeError] in [DGE_genes.add] or, when
    [channels] is empty, in [gene_source[gene] = reference_name]. *)

Record main_state := {
  counter : counter_state;
  dge : DGE.t;
  gene_source : gmap (option string) string
}.

Section main.
Variable hash : string * string → Z.
Variable c : DefaultCounter.
Variable reference_name : string.

Definition count_bundle (st : main_state) (b : string * string * list alignment)
  : result main_state :=
  let '(cell, umi, bundle) := b in
  '(gene, channels, cst) ← process_bam_bundle hash c cell umi bundle (counter st);
  d ← (if truthy gene then
         match gene with
         | GStr g => Ok (DGE.add_read (dge st) g cell channels)
         | GList _ => if decide (channels ≠ ∅) then Raise TypeError else Ok (dge st)
         | GNone => Ok (dge st)
         end
       else Ok (dge st));
  src ← match gene with
        | GStr g => Ok (<[Some g := reference_name]> (gene_source st))
        | GNone => Ok (<[None := reference_name]> (gene_source st))
        | GList _ => Raise TypeError
        end;
  Ok {| counter := cst; dge := d; gene_source := src |}.

Fixpoint count_bundles (st : main_state) (bs : list (string * string * list alignment))
  : result main_state :=
  match bs with
  | [] => Ok st
  | b :: rest => st' ← count_bundle st b; count_bundles st' rest
  end.

End main.

(** ** Observations used in the statements *)

(** The count read in a list of (key, channel dictionary) items: 0 when
    the key or the channel is absent. *)
Definition count_in (counts : list ((string * string) * gmap string nat))
    (key : string * string) (channel : string) : nat :=
  default 0 (alist_get key counts ≫= (.!! channel)).

(** [self.counts[key][channel]] read without creating it. *)
Definition get_count (s : DGE.t) (key : string * string) (channel : string) : nat :=
  count_in (DGE.counts s) key channel.

(** The sum of a channel over all (gene, cell) keys. *)
Definition total_in (counts : list ((string * string) * gmap string nat))
    (channel : string) : nat :=
  sum_list ((λ kv, default 0 (kv.2 !! channel)) <$> counts).

Definition channel_total (s : DGE.t) (channel : string) : nat :=
  total_in (DGE.counts s) channel.

(** The value of a computation, without the state it leaves. *)
Definition value {A} (r : result (A * counter_state)) : result A :=
  match r with
  | Ok (a, _) => Ok a
  | Raise e => Raise e
  end.

(** The priority of an alignment, for one that has a feature code. *)
Definition priority (prios : gmap string Z) (a : alignment) : Z :=
  match get_prio prios (gf a) with
  | Ok p => p
  | Raise _ => 0
  end.

(** The alignments of a bundle whose priority is [m]. *)
Definition attaining (prios : gmap string Z) (m : Z) (bundle : list alignment)
  : list alignment :=
  filter (λ b, priority prios b = m) bundle.

(** The four channels [determine_channels] can create before the main
    channel is considered. *)
Definition base_channels : gset string :=
  list_to_set ["exonic_reads"; "exonic_counts"; "intronic_reads"; "intronic_counts"].

(** The uniqueness test seen as a tracker: the answer for a pair, and the
    state it leaves. *)
Definition first_observation (hash : string * string → Z) (st : counter_state)
    (p : string * string) : bool :=
  match observe hash p.1 p.2 st with
  | Ok (b, _) => b
  | Raise _ => false
  end.

Definition observed (hash : string * string → Z) (st : counter_state)
    (p : string * string) : counter_state :=
  match observe hash p.1 p.2 st with
  | Ok (_, st') => st'
  | Raise _ => st
  end.

Definition observed_all (hash : string * string → Z) (st : counter_state)
    (ps : list (string * string)) : counter_state :=
  foldl (observed hash) st ps.

(** [hash] returns a [Py_hash_t], a signed 64-bit integer. *)
Definition machine_hash (hash : string * string → Z) : Prop :=
  ∀ p, (- 2 ^ 63 ≤ hash p < 2 ^ 63)%Z.

(** A barcode made of [n] letters A. *)
Fixpoint poly_A (n : nat) : string :=
  match n with
  | 0 => ""
  | S n' => String "A" (poly_A n')
  end.

(** A 64-bit hash used to run the tracker on concrete pairs: the length of
    the barcode. *)
Definition length_hash (p : string * string) : Z :=
  Z.of_nat (String.length p.1) mod 2 ^ 63.

(** The two disambiguation stages of [process_bam_bundle]: [gene] and
    [gf] as they are before [if gene:]. *)
Definition disambiguate (c : DefaultCounter) (bundle : list alignment)
  : M (gene_val * gf_val) :=
  selected ← choose_alignment c bundle;
  match selected with
  | None => mret (GNone, FNone)
  | Some a => choose_gene c a
  end.

(** Their outcome, which does not depend on the counter state. *)
Definition resolve (c : DefaultCounter) (bundle : list alignment)
  : result (gene_val * gf_val) :=
  value (disambiguate c bundle {| stats := ∅; uniq := ∅ |}).

(** A computation that touches the statistics only: its value is the same
    in every state, and it leaves [uniq] as it is. *)
Definition stats_only {A} (m : M A) : Prop :=
  (∀ st1 st2, value (m st1) = value (m st2))
  ∧ (∀ st a st', m st = Ok (a, st') → uniq st' = uniq st).

(** The (gene, channels) pairs that [process_bam_bundle] returns along
    the counting loop, bundle after bundle. *)
Fixpoint outputs (hash : string * string → Z) (c : DefaultCounter)
    (st : counter_state) (bs : list (string * string * list alignment))
  : list (gene_val * gset string) :=
  match bs with
  | [] => []
  | (cell, umi, bundle) :: rest =>
    match process_bam_bundle hash c cell umi bundle st with
    | Ok (o, st') => o :: outputs hash c st' rest
    | Raise _ => []
    end
  end.

(** The number of bundles resolved to a gene whose channels include
    [channel]. *)
Definition produced (channel : string) (outs : list (gene_val * gset string)) : nat :=
  length (filter (λ o, truthy o.1 = true ∧ channel ∈ o.2) outs).

(** The number of distinct (cell, UMI) pairs of a list of bundles. *)
Definition distinct_pairs (bs : list (string * string * list alignment)) : nat :=
  size (list_to_set (fst <$> bs) : gset (string * string)).

(** [s.endswith(suffix)] *)
Fixpoint ends_with (suffix s : string) : bool :=
  if String.eqb s suffix then true
  else match s with
       | EmptyString => false
       | String _ s' => ends_with suffix s'
       end.

(** Reading a channel of a [defaultdict(int)] stores 0 where the key was
    missing. *)
Definition touch (d : gmap string nat) (channel : string) : gmap string nat :=
  match d !! channel with
  | Some _ => d
  | None => <[channel := 0]> d
  end.

(** The append made to [counts_by_channel] for one channel, reading the
    counts in [d]. *)
Definition append_count (d : gmap string nat) (by_channel : gmap string (list nat))
    (channel : string) : gmap string (list nat) :=
  <[channel := default [] (by_channel !! channel) ++ [default 0 (d !! channel)]]> by_channel.

(** The state [main] starts the counting loop from: a new [DGE] for the
    default channels without allow-list, and empty [uniq], [stats] and
    [gene_source]. *)
Definition fresh_main : main_state :=
  {| counter := {| stats := ∅; uniq := ∅ |};
     dge := DGE.init default_channels "" [];
     gene_source := ∅ |}.

(** The aggregator states that arise: a new [DGE], then [add_read]
    calls. *)
Inductive reachable : DGE.t → Prop :=
| reachable_init channels fname lines :
    reachable (DGE.init channels fname lines)
| reachable_add_read s gene cell chs :
    reachable s → reachable (DGE.add_read s gene cell chs).

(** The consistency of the three parts of an aggregator state: the keys of
    [counts] are distinct, their cells and genes are the observed ones, and
    every observed cell and gene occurs in a key. *)
Record consistent (s : DGE.t) : Prop := {
  keys_nodup : NoDup (fst <$> DGE.counts s);
  keys_observed : ∀ gene cell, (gene, cell) ∈ fst <$> DGE.counts s →
                    cell ∈ DGE.DGE_cells s ∧ gene ∈ DGE.DGE_genes s;
  cells_counted : ∀ cell, cell ∈ DGE.DGE_cells s →
                    ∃ gene, (gene, cell) ∈ fst <$> DGE.counts s;
  genes_counted : ∀ gene, gene ∈ DGE.DGE_genes s →
                    ∃ cell, (gene, cell) ∈ fst <$> DGE.counts s
}.

(** The position of [x] in the index dictionaries built by
    [make_sparse_arrays]. *)
Definition index_of (ind : gmap string nat) (x : string) : nat :=
  default 0 (ind !! x).

(** The COO triple [make_sparse_arrays] produces for one item of [counts]
    and one channel. *)
Definition triple_of (ind_of_cell ind_of_gene : gmap string nat) (channel : string)
    (kv : (string * string) * gmap string nat) : nat * nat * nat :=
  (index_of ind_of_cell kv.1.2, index_of ind_of_gene kv.1.1,
   default 0 (kv.2 !! channel)).

(** The matrix [make_sparse_arrays] builds for one channel from the
    gathered arrays. *)
Definition matrix_of (st : DGE.coo_state) (channel : string) : csr_matrix :=
  {| shape := (S (max_list (DGE.row_ind st)), S (max_list (DGE.col_ind st)));
     coo := zip (zip (DGE.row_ind st) (DGE.col_ind st))
                (default [] (DGE.counts_by_channel st !! channel)) |}.

(** The feature codes listed for the gene name [n], in order; the
    priority of a gene name: the largest priority of its codes, and at least
    0; and the largest priority of all listed codes, at least 0. *)
Definition codes_of (n : string) (pairs : list (string * string)) : list string :=
  snd <$> filter (λ nf, nf.1 = n) pairs.

Definition name_priority (prios : gmap string Z) (pairs : list (string * string))
    (n : string) : Z :=
  foldl Z.max 0%Z (get0 prios <$> codes_of n pairs).

Definition top_priority (prios : gmap string Z) (pairs : list (string * string)) : Z :=
  foldl Z.max 0%Z (get0 prios <$> (snd <$> pairs)).

(** Sample inputs *)

Definition aln (gn gf : list string) : alignment :=
  {| chrom := "chr1"; strand := "+"; gn := gn; gf := gf; score := 10 |}.

Definition fresh_counter : counter_state := {| stats := ∅; uniq := ∅ |}.

(** A priority table with negative values, and the default counter using
    it for alignments. *)
Definition negative_priorities : gmap string Z :=
  list_to_map [("x", -1); ("y", -2)]%Z.

Definition negative_counter : DefaultCounter :=
  {| channels := default_channels;
     alignment_priorities := negative_priorities;
     gene_priorities := default_gene_priorities;
     exonic_set := list_to_set default_exonic_tags;
     intronic_set := list_to_set default_intronic_tags;
     select_alignment := aln_priority;
     select_gene := gene_priority;
     count_X_channels := list_to_set default_X_counts;
     exon_intron_disambiguation_func := exon_wins |}.

(** The calls of [process_bam_bundle] that the loop of [main] makes on one
    counter, bundle after bundle: the (gene, channels) pairs returned and
    the counter state left. *)
Fixpoint process_bundles (hash : string * string → Z) (c : DefaultCounter)
    (st : counter_state) (bs : list (string * string * list alignment))
  : result (list (gene_val * gset string) * counter_state) :=
  match bs with
  | [] => Ok ([], st)
  | (cell, umi, bundle) :: rest =>
    match process_bam_bundle hash c cell umi bundle st with
    | Ok (o, st') =>
      match process_bundles hash c st' rest with
      | Ok (os, st'') => Ok (o :: os, st'')
      | Raise e => Raise e
      end
    | Raise e => Raise e
    end
  end.

(** The (cell, UMI) pairs of the bundles that were resolved to a gene,
    given what [process_bam_bundle] returned for each bundle. *)
Definition resolved_pairs (bs : list (string * string * list alignment))
    (outs : list (gene_val * gset string)) : list (string * string) :=
  (λ bo, bo.1.1) <$> filter (λ bo, truthy bo.2.1 = true) (zip bs outs).

(** Two alignments to coding exons of two genes, which the priorities
    cannot tell apart. *)
Definition ambiguous_bundle : list alignment :=
  [aln ["GeneA"] ["C"]; aln ["GeneB"] ["C"]].

(** ** The statistics table

    [stats] is a [defaultdict(int)]: a name reads as 0 until it is
    incremented. *)

Definition stat (st : counter_state) (name : string) : nat :=
  default 0 (stats st !! name).

(** [stats[n] += 1] for each name of a list, in order. *)
Definition bumped (names : list string) (s : gmap string nat) : gmap string nat :=
  foldl (λ s n, <[n := S (default 0 (s !! n))]> s) s names.

Definition occurrences (k : string) (names : list string) : nat :=
  length (filter (λ n, n = k) names).

(** The names incremented by the three blocks of [process_bam_bundle]:
    for the choice [sel] among the alignments of [bundle], for the choice
    [gene] among the gene names of the alignment [a], and for the channels
    [chs] counted for feature codes starting with [f0]. *)
Definition aln_names (bundle : list alignment) (sel : option alignment) : list string :=
  if decide (length bundle = 1) then ["N_aln_unique"]
  else ["N_aln_multi";
        if sel is Some _ then "N_aln_selected" else "N_aln_selection_failed"].

Definition gene_names (a : alignment) (gene : gene_val) : list string :=
  ["N_aln_countable"; "N_aln_" +:+ strand a]
  ++ (if decide (length (gn a) = 1) then ["N_gene_unique"]
      else ["N_gene_multi";
            if truthy gene then "N_gene_selected" else "N_gene_selection_failed"]).

Definition count_names (f0 : string) (chs : gset string) : list string :=
  ["N_aln_counted"; if islower f0 then "N_aln_antisense" else "N_aln_sense"]
  ++ ((λ ch, "N_channel_" +:+ ch) <$> elements chs)
  ++ (if decide (chs = ∅) then ["N_channel_NONE"] else []).

(** The names incremented by one call of [process_bam_bundle] that
    returns [(gene, chs)]. *)
Inductive events (bundle : list alignment) : gene_val → gset string → list string → Prop :=
| events_not_selected :
    length bundle ≠ 1 →
    events bundle GNone ∅ (aln_names bundle None)
| events_not_counted a gene :
    a ∈ bundle → truthy gene = false →
    events bundle gene ∅ (aln_names bundle (Some a) ++ gene_names a gene)
| events_counted a gene f0 chs :
    a ∈ bundle → truthy gene = true →
    events bundle gene chs
      (aln_names bundle (Some a) ++ gene_names a gene ++ count_names f0 chs).

(** The sums that the statistics of one counter satisfy. *)
Record balanced (st : counter_state) : Prop := {
  aln_multi_split :
    stat st "N_aln_multi" = stat st "N_aln_selected" + stat st "N_aln_selection_failed";
  aln_countable_split :
    stat st "N_aln_countable" = stat st "N_aln_unique" + stat st "N_aln_selected";
  aln_strand_split :
    stat st "N_aln_countable" = stat st "N_aln_+" + stat st "N_aln_-";
  gene_split :
    stat st "N_aln_countable" = stat st "N_gene_unique" + stat st "N_gene_multi";
  gene_multi_split :
    stat st "N_gene_multi"
    = stat st "N_gene_selected" + stat st "N_gene_selection_failed";
  aln_counted_split :
    stat st "N_aln_counted" = stat st "N_aln_sense" + stat st "N_aln_antisense";
  aln_counted_bound :
    stat st "N_aln_counted" ≤ stat st "N_gene_unique" + stat st "N_gene_selected"
}.

(** [[gene_source[gene] for gene in var]] *)
Fixpoint reference_column (gene_source : gmap (option string) string) (var : list string)
  : result (list string) :=
  match var with
  | [] => Ok []
  | gene :: rest =>
    match gene_source !! Some gene with
    | Some ref => refs ← reference_column gene_source rest; Ok (ref :: refs)
    | None => Raise KeyError
    end
  end.

(** The two relations between the channels of one (gene, cell) key: a
    molecule count is at most the read count of its class, and the main
    channel is the sum of the exonic and intronic molecule counts. *)
Definition counts_within_reads (s : DGE.t) : Prop :=
  ∀ key,
    get_count s key "exonic_counts" ≤ get_count s key "exonic_reads"
    ∧ get_count s key "intronic_counts" ≤ get_count s key "intronic_reads".

Definition main_is_sum (s : DGE.t) : Prop :=
  ∀ key,
    get_count s key "counts"
    = get_count s key "exonic_counts" + get_count s key "intronic_counts".

(** The key of [gene_source] written for the value of [gene]. *)
Definition source_key (gene : gene_val) : option string :=
  match gene with
  | GStr g => Some g
  | _ => None
  end.

(** Two reads of one molecule of GeneA, the first on a coding exon, the
    second on an intron. *)
Definition two_reads : list (string * string * list alignment) :=
  [("AAAA", "UMI1", [aln ["GeneA"] ["C"]]); ("AAAA", "UMI1", [aln ["GeneA"] ["I"]])].

(** ** The BAM reader

    [bam_iter_bundles] and the loop of [main] that consumes it. *)

(** [s.split(sep)] for a separator of one character: the first field and
    the fields after it. *)
Fixpoint split_fields (sep : ascii) (s : string) : string * list string :=
  match s with
  | EmptyString => (EmptyString, [])
  | String a s' =>
    let '(w, ws) := split_fields sep s' in
    if decide (a = sep) then (EmptyString, w :: ws) else (String a w, ws)
  end.

Definition split (sep : ascii) (s : string) : list string :=
  let '(w, ws) := split_fields sep s in w :: ws.

(** What the reader uses of a pysam record: the query name, the name of
    the reference sequence ([bam.get_reference_name(rec.tid)]), four flags
    and the optional tags gn, gf, AS, CB and MI. *)
Record bam_record := {
  query_name : string;
  reference : string;
  is_reverse : bool;
  is_paired : bool;
  is_read2 : bool;
  is_unmapped : bool;
  tag_gn : option string;
  tag_gf : option string;
  tag_AS : option Z;
  tag_CB : option string;
  tag_MI : option string
}.

(** [rec.get_tag(name)] raises [KeyError] when the tag is missing. *)
Definition get_tag {A} (tag : option A) : result A :=
  match tag with
  | Some v => Ok v
  | None => Raise KeyError
  end.

(** [extract(rec)] *)
Definition extract (rec : bam_record) : result alignment :=
  s ← get_tag (tag_AS rec);
  Ok {| chrom := reference rec;
        strand := if is_reverse rec then "-" else "+";
        gn := match tag_gn rec with
              | Some v => split "," v
              | None => ["-"]
              end;
        gf := match tag_gf rec with
              | Some v => split "," v
              | None => ["-"]
              end;
        score := s |}.

(** [stats[name] += 1] on the dictionary itself *)
Definition incr_stat (name : string) (s : gmap string nat) : gmap string nat :=
  <[name := S (default 0 (s !! name))]> s.

Module Reader.

(** The local variables of the generator. *)
Record state := {
  last_qname : option string;
  bundle : list alignment;
  CB : string;
  MI : string
}.

Definition initial : state :=
  {| last_qname := None; bundle := []; CB := "NN"; MI := "NN" |}.

(** [if bundle: yield CB, MI, bundle] *)
Definition flush (rs : state) : list (string * string * list alignment) :=
  match bundle rs with
  | [] => []
  | _ => [(CB rs, MI rs, bundle rs)]
  end.

(** The first record of a fragment: the tags CB and MI are read, then the
    record is extracted. *)
Definition open (rec : bam_record) : result state :=
  cb ← get_tag (tag_CB rec);
  mi ← get_tag (tag_MI rec);
  a ← extract rec;
  Ok {| last_qname := Some (query_name rec); bundle := [a]; CB := cb; MI := mi |}.

(** [bundle.append(extract(rec))] *)
Definition append (rs : state) (rec : bam_record) : result state :=
  a ← extract rec;
  Ok {| last_qname := last_qname rs; bundle := bundle rs ++ [a];
        CB := CB rs; MI := MI rs |}.

End Reader.

(** The generator run to its end on [recs], the records that the loop
    [for rec in util.timed_loop(bam.fetch(until_eof=True), ...)] iterates
    over: the bundles it yields, in order, and the statistics it leaves, or
    the exception that ends it after the bundles yielded so far. *)
Fixpoint read (recs : list bam_record) (rs : Reader.state) (stats : gmap string nat)
  : list (string * string * list alignment) * result (gmap string nat) :=
  match recs with
  | [] => (Reader.flush rs, Ok stats)
  | rec :: rest =>
    let stats := incr_stat "N_records" stats in
    if is_paired rec && is_read2 rec then read rest rs stats
    else if is_unmapped rec then read rest rs (incr_stat "N_unmapped" stats)
    else if decide (Some (query_name rec) ≠ Reader.last_qname rs) then
      let stats := incr_stat "N_frags" stats in
      match Reader.open rec with
      | Ok rs' => let '(bs, r) := read rest rs' stats in (Reader.flush rs ++ bs, r)
      | Raise e => (Reader.flush rs, Raise e)
      end
    else
      match Reader.append rs rec with
      | Ok rs' => read rest rs' stats
      | Raise e => ([], Raise e)
      end
  end.

Definition bam_iter_bundles (recs : list bam_record) (stats : gmap string nat)
  : list (string * string * list alignment) * result (gmap string nat) :=
  read recs Reader.initial stats.

(** [for cell, umi, bundle in bam_iter_bundles(..., stats=ref_stats)]: the
    generator and the loop body of [main] take turns, and both write to the
    statistics dictionary of the counter. *)
Section reader_loop.
Variable hash : string * string → Z.
Variable c : DefaultCounter.
Variable reference_name : string.

Definition with_stats (f : gmap string nat → gmap string nat) (st : main_state)
  : main_state :=
  {| counter := {| stats := f (stats (counter st)); uniq := uniq (counter st) |};
     dge := dge st; gene_source := gene_source st |}.

(** The loop body run on what [if bundle: yield CB, MI, bundle] yields. *)
Definition consume (rs : Reader.state) (st : main_state) : result main_state :=
  count_bundles hash c reference_name st (Reader.flush rs).

Fixpoint read_and_count (recs : list bam_record) (rs : Reader.state) (st : main_state)
  : result main_state :=
  match recs with
  | [] => consume rs st
  | rec :: rest =>
    let st := with_stats (incr_stat "N_records") st in
    if is_paired rec && is_read2 rec then read_and_count rest rs st
    else if is_unmapped rec then
      read_and_count rest rs (with_stats (incr_stat "N_unmapped") st)
    else if decide (Some (query_name rec) ≠ Reader.last_qname rs) then
      st ← consume rs (with_stats (incr_stat "N_frags") st);
      rs' ← Reader.open rec;
      read_and_count rest rs' st
    else
      rs' ← Reader.append rs rec;
      read_and_count rest rs' st
  end.

End reader_loop.

(** The records that reach a bundle: not the second mate of a pair, and
    mapped. *)
Definition usable (rec : bam_record) : bool :=
  negb (is_paired rec && is_read2 rec) && negb (is_unmapped rec).

(** [extract] on each record of a list. *)
Fixpoint extract_all (recs : list bam_record) : result (list alignment) :=
  match recs with
  | [] => Ok []
  | rec :: rest => a ← extract rec; l ← extract_all rest; Ok (a :: l)
  end.

(** Records of one fragment, records of two different fragments, and the
    bundle yielded for a list of records: the tags CB and MI of its first
    record, with the extracted records. *)
Definition same_fragment (g : list bam_record) : Prop :=
  ∀ r1 r2, r1 ∈ g → r2 ∈ g → query_name r1 = query_name r2.

Definition other_fragment (g1 g2 : list bam_record) : Prop :=
  ∀ r1 r2, r1 ∈ g1 → r2 ∈ g2 → query_name r1 ≠ query_name r2.

Definition bundle_of (g : list bam_record) (b : string * string * list alignment) : Prop :=
  ∃ r g', g = r :: g'
          ∧ tag_CB r = Some b.1.1 ∧ tag_MI r = Some b.1.2
          ∧ extract_all g = Ok b.2.

(** The state of the generator while the records [g] of the fragment [q]
    are being collected. *)
Definition collecting (rs : Reader.state) (q : string) (g : list bam_record) : Prop :=
  Reader.last_qname rs = Some q
  ∧ (∀ r, r ∈ g → query_name r = q)
  ∧ bundle_of g (Reader.CB rs, Reader.MI rs, Reader.bundle rs).

(** A mapped first-mate record of fragment [q] with every tag, and a
    short run of the reader: two records of fragment r1, an unmapped
    record, and one record of fragment r2. *)
Definition record (q gn gf : string) : bam_record :=
  {| query_name := q; reference := "chr1"; is_reverse := false;
     is_paired := false; is_read2 := false; is_unmapped := false;
     tag_gn := Some gn; tag_gf := Some gf; tag_AS := Some 10%Z;
     tag_CB := Some "AAAA"; tag_MI := Some "UMI1" |}.

Definition unmapped_record (q : string) : bam_record :=
  {| query_name := q; reference := "*"; is_reverse := false;
     is_paired := false; is_read2 := false; is_unmapped := true;
     tag_gn := None; tag_gf := None; tag_AS := None;
     tag_CB := Some "AAAA"; tag_MI := Some "UMI1" |}.

Definition three_fragments : list bam_record :=
  [record "r1" "GeneA" "C"; record "r1" "GeneB" "I"; unmapped_record "r0";
   record "r2" "GeneA,GeneB" "C,I"].

(** A computation whose outcome depends on [uniq] only, and whose effect
    on the statistics is a list of increments that depends on [uniq] only. *)
Definition regular {A} (m : M A) : Prop :=
  ∀ st1 st2, uniq st1 = uniq st2 →
    match m st1, m st2 with
    | Ok (a1, s1), Ok (a2, s2) =>
      a1 = a2 ∧ uniq s1 = uniq s2
      ∧ ∃ names, stats s1 = bumped names (stats st1) ∧ stats s2 = bumped names (stats st2)
    | Raise e1, Raise e2 => e1 = e2
    | _, _ => False
    end.

(** Two states of the loop of [main] that hold the same counts. *)
Definition same_counts (s1 s2 : main_state) : Prop :=
  dge s1 = dge s2 ∧ gene_source s1 = gene_source s2
  ∧ uniq (counter s1) = uniq (counter s2).

(** ** Flavors: [get_counter_class] and [get_config_for_refs] *)

Module Config.

(** The exceptions of this part; [Builtin] holds the ones met before. *)
Inductive error :=
| Builtin (e : exn)
| AttributeError
| ModuleNotFoundError.

Inductive outcome (A : Type) : Type :=
| Done (a : A)
| Fail (e : error).
Arguments Done {A} a.
Arguments Fail {A} e.

#[global] Instance outcome_ret : MRet outcome := λ A a, Done a.
#[global] Instance outcome_bind : MBind outcome := λ A B f m,
  match m with
  | Done a => f a
  | Fail e => Fail e
  end.

(** [s.rsplit(sep, 1)] when [sep] occurs in [s]: the text before and
    after its last occurrence. *)
Fixpoint rsplit1 (sep : ascii) (s : string) : option (string * string) :=
  match s with
  | EmptyString => None
  | String a s' =>
    match rsplit1 sep s' with
    | Some (m, cls) => Some (String a m, cls)
    | None => if decide (a = sep) then Some (EmptyString, s') else None
    end
  end.

Section classes.

(** The objects a class path can name, the globals of the module
    quant.py, and [importlib.import_module] with the attributes of the
    module it returns. *)
Variable object : Type.
Variable module_globals : gmap string object.
Variable import_module : string → option (gmap string object).

(** The value under [counter_class]: the path written in the
    configuration file, or the object that replaced it. *)
Inductive class_ref :=
| ClassPath (path : string)
| ClassObject (o : object).

(** A flavor: the keys [counter_class] and [channels] of its
    dictionary, both optional. *)
Record flavor := {
  counter_class : option class_ref;
  channels : option (list string)
}.

Definition get_counter_class (classpath : class_ref) : outcome object :=
  match classpath with
  | ClassObject _ => Fail AttributeError
  | ClassPath path =>
    match rsplit1 "." path with
    | None => Fail (Builtin ValueError)
    | Some (module, cls) =>
      if String.eqb module "spacemake.quant" then
        match module_globals !! cls with
        | Some o => Done o
        | None => Fail (Builtin KeyError)
        end
      else
        match import_module module with
        | None => Fail ModuleNotFoundError
        | Some m =>
          match m !! cls with
          | Some o => Done o
          | None => Fail AttributeError
          end
        end
    end
  end.

(** The first loop of [get_config_for_refs]. [ref_d] maps a reference
    name to a flavor dictionary of [flavors]; the dictionary is shared,
    not copied, so [ref_d] is kept as a map from reference names to flavor
    names. *)
Definition parse_item (flavors : gmap string flavor)
    (acc : list (string * string) * string) (f : string)
  : outcome (list (string * string) * string) :=
  let '(ref_d, dflt) := acc in
  match split "@" f with
  | [_] => Done (ref_d, f)
  | [name; ref] =>
    match flavors !! name with
    | Some _ => Done (alist_update name (λ _, name) ref ref_d, dflt)
    | None => Fail (Builtin KeyError)
    end
  | _ => Fail (Builtin ValueError)
  end.

Fixpoint parse_items (flavors : gmap string flavor)
    (acc : list (string * string) * string) (items : list string)
  : outcome (list (string * string) * string) :=
  match items with
  | [] => Done acc
  | f :: rest => acc' ← parse_item flavors acc f; parse_items flavors acc' rest
  end.

(** The second loop: the class of each entry of [ref_d] is looked up and
    written to the flavor dictionary, and its channels are appended. The
    flavor names of [ref_d] were found in [flavors] by the first loop, so
    the lookup of the dictionary itself does not fail there. *)
Fixpoint load_classes (entries : list (string * string)) (flavors : gmap string flavor)
    (chs : list string) : outcome (gmap string flavor * list string) :=
  match entries with
  | [] => Done (flavors, chs)
  | (ref, name) :: rest =>
    match flavors !! name with
    | None => Fail (Builtin KeyError)
    | Some config =>
      cls ← get_counter_class
               (default (ClassPath "spacemake.quant.DefaultCounter")
                        (counter_class config));
      load_classes rest
        (<[name := {| counter_class := Some (ClassObject cls);
                      channels := channels config |}]> flavors)
        (chs ++ default default_channels (channels config))
    end
  end.

(** [get_config_for_refs]: the dictionary [ref_d], the flavors as the
    call leaves them, and the sorted channel names. *)
Definition get_config_for_refs (flavors : gmap string flavor) (flavor_arg : string)
  : outcome (list (string * string) * gmap string flavor * list string) :=
  '(ref_d, dflt) ← parse_items flavors ([], "default") (split "," flavor_arg);
  match flavors !! dflt with
  | None => Fail (Builtin KeyError)
  | Some _ =>
    let ref_d := alist_update dflt (λ _, dflt) "*" ref_d in
    '(flavors', chs) ← load_classes ref_d flavors [];
    Done (ref_d, flavors', DGE.sorted (list_to_set chs))
  end.

End classes.

Arguments ClassPath {object} path.
Arguments ClassObject {object} o.
Arguments counter_class {object} f.
Arguments channels {object} f.
Arguments get_counter_class {object} module_globals import_module classpath.
Arguments parse_item {object} flavors acc f.
Arguments parse_items {object} flavors acc items.
Arguments load_classes {object} module_globals import_module entries flavors chs.
Arguments get_config_for_refs {object} module_globals import_module flavors flavor_arg.

End Config.

(** [a in s] for a character [a] *)
Fixpoint contains (a : ascii) (s : string) : bool :=
  match s with
  | EmptyString => false
  | String b s' => bool_decide (a = b) || contains a s'
  end.

(** A configuration with the flavors default and mirna, the classes named
    by their name, and no module to import. *)
Definition sample_flavors : gmap string (Config.flavor string) :=
  <["mirna" := {| Config.counter_class :=
                    Some (Config.ClassPath "spacemake.quant.DefaultCounter");
                  Config.channels := Some ["counts"; "mirna_reads"] |}]>
    {["default" := {| Config.counter_class := None; Config.channels := None |}]}.

Definition sample_globals : gmap string string :=
  {[ "DefaultCounter" := "DefaultCounter" ]}.

(** ** Feature codes and channels *)

(** A feature code list has an exonic code; it has a code that the loop
    of [determine_channels] takes as intronic, one that is not exonic; and
    the two classes as the policy leaves them. *)
Definition has_exonic (c : DefaultCounter) (gf : list string) : Prop :=
  ∃ f, f ∈ gf ∧ f ∈ exonic_set c.

Definition has_intronic (c : DefaultCounter) (gf : list string) : Prop :=
  ∃ f, f ∈ gf ∧ (f ∉ exonic_set c) ∧ f ∈ intronic_set c.

Definition exonic_kept (c : DefaultCounter) (gf : list string) : Prop :=
  has_exonic c gf
  ∧ ¬ (has_intronic c gf ∧ exon_intron_disambiguation_func c = intron_wins).

Definition intronic_kept (c : DefaultCounter) (gf : list string) : Prop :=
  has_intronic c gf
  ∧ ¬ (has_exonic c gf ∧ exon_intron_disambiguation_func c = exon_wins).

(** [select_gene_by_priority] with the names of [set(gn)] iterated in the
    order [names]. *)
Definition select_gene_by_priority_iterating (names : list string)
    (prios : gmap string Z) (a : alignment) : gene_val * gf_val :=
  let st := gene_scan prios (gn a) (gf a) in
  let gn_new := filter (λ n, get0 (gene_prio st) n = max_prio st) names in
  if decide (length gn_new = 1) then
    match gn a with
    | g0 :: _ => (GList gn_new, FList (default [] (gene_gf st !! g0)))
    | [] => (GNone, FNone)
    end
  else (GNone, FNone).

(** The loop [for channel in channels] of [add_read] with the channels
    iterated in the order [names]. *)
Definition add_read_iterating (names : list string) (s : DGE.t) (gene cell : string)
  : DGE.t :=
  match names with
  | [] => s
  | _ =>
    let cell := if DGE.not_allowed s cell then "NA" else cell in
    {| DGE.channels := DGE.channels s;
       DGE.counts := foldl (DGE.incr (gene, cell)) (DGE.counts s) names;
       DGE.DGE_cells := {[cell]} ∪ DGE.DGE_cells s;
       DGE.DGE_genes := {[gene]} ∪ DGE.DGE_genes s;
       DGE.allowed_bcs := DGE.allowed_bcs s |}
  end.

(** The channels of the two classes that [determine_channels] produces
    for the feature codes [gf]. *)
Definition class_channel (c : DefaultCounter) (gf : list string) (uniq : bool)
    (ch : string) : Prop :=
  (ch = "exonic_reads" ∧ exonic_kept c gf)
  ∨ (ch = "exonic_counts" ∧ uniq = true ∧ exonic_kept c gf)
  ∨ (ch = "intronic_reads" ∧ intronic_kept c gf)
  ∨ (ch = "intronic_counts" ∧ uniq = true ∧ intronic_kept c gf).

(** * Properties *)

(** Case analysis on the membership [H : x ∈ [a; b; ...]], running [tac] on
    every case. *)
Ltac each_member H tac :=
  repeat (apply elem_of_cons in H as [->|H]; [tac|]);
  try (by apply elem_of_nil in H).

(** ** Construction *)

(** [DefaultCounter()] with the default arguments is [default_counter], and
    an unknown strategy or policy name raises [KeyError]. *)
Lemma init_counter_defaults :
  init_counter default_channels default_alignment_priorities default_gene_priorities
    default_exonic_tags default_intronic_tags default_X_counts
    "exon_wins" "priority" "priority" = Ok default_counter
  ∧ init_counter default_channels default_alignment_priorities default_gene_priorities
      default_exonic_tags default_intronic_tags default_X_counts
      "exon_first" "priority" "priority" = Raise KeyError.
Proof. split; reflexivity. Qed.

(** ** Gene selection *)

(** C1, evaluated on the code: for the gene names [GeneA, GeneB] annotated
    [I, C], where GeneB alone attains the maximal priority 101,
    [select_gene_by_priority] returns the one-element list [gn_new] in
    place of the gene name, and the feature codes collected for [gn[0]],
    here GeneA's intronic code, in place of those of the selected gene; the
    counting loop of [main] then raises [TypeError] on the list. *)
Theorem select_gene_by_priority_returns_list_and_first_gene_codes :
  select_gene_by_priority default_gene_priorities
    (aln ["GeneA"; "GeneB"] ["I"; "C"])
  = (GList ["GeneB"], FList ["I"])
  ∧ count_bundles length_hash default_counter "genome" fresh_main
      [("AAAA", "UMI1", [aln ["GeneA"; "GeneB"] ["I"; "C"]])]
    = Raise TypeError.
Proof. split; vm_compute; reflexivity. Qed.

Lemma NoDup_singleton_list {A} (l : list A) (x : A) :
  NoDup l → (∀ y, y ∈ l ↔ y = x) → l = [x].
Proof.
  intros Hnd Hx. destruct l as [|y [|z l]].
  - exfalso. eapply not_elem_of_nil, Hx. reflexivity.
  - f_equal. apply Hx. left.
  - assert (y = x) as -> by (apply Hx; left).
    assert (z = x) as -> by (apply Hx; right; left).
    apply NoDup_cons in Hnd as [Hnd _]. destruct Hnd. left.
Qed.

Section gene_selection.
Variable prios : gmap string Z.

Lemma codes_of_snoc n pairs n' f :
  codes_of n (pairs ++ [(n', f)])
  = codes_of n pairs ++ (if decide (n' = n) then [f] else []).
Proof.
  unfold codes_of. rewrite filter_app, fmap_app. f_equal.
  rewrite filter_cons. simpl. by case_decide.
Qed.

Lemma foldl_max_snoc (l : list Z) x p :
  foldl Z.max x (l ++ [p]) = Z.max (foldl Z.max x l) p.
Proof. by rewrite foldl_app. Qed.

Lemma gene_scan_state pairs :
  max_prio (foldl (gene_step prios)
                  {| gene_prio := ∅; gene_gf := ∅; max_prio := 0 |} pairs)
  = top_priority prios pairs
  ∧ ∀ n, get0 (gene_prio (foldl (gene_step prios)
                  {| gene_prio := ∅; gene_gf := ∅; max_prio := 0 |} pairs)) n
         = name_priority prios pairs n
         ∧ default [] (gene_gf (foldl (gene_step prios)
                  {| gene_prio := ∅; gene_gf := ∅; max_prio := 0 |} pairs) !! n)
           = codes_of n pairs.
Proof.
  induction pairs as [|[n' f] pairs IH] using rev_ind.
  - split; [done|]. intros n. cbn [foldl gene_prio gene_gf]. unfold get0.
    by rewrite !lookup_empty.
  - rewrite foldl_app. cbn [foldl].
    set (st := foldl (gene_step prios) _ pairs) in *. destruct IH as [Hmax Hn].
    unfold gene_step. cbn [max_prio gene_prio gene_gf]. split.
    + unfold top_priority. rewrite Hmax, !fmap_app. csimpl.
      by rewrite foldl_max_snoc.
    + intros n. destruct (Hn n) as [Hp Hc]. destruct (Hn n') as [Hp' Hc'].
      unfold name_priority. rewrite codes_of_snoc.
      destruct (decide (n' = n)) as [->|Hne].
      * unfold get0 at 1. rewrite !lookup_insert_eq. cbn [default].
        rewrite Hp, Hc, fmap_app. csimpl. by rewrite foldl_max_snoc.
      * unfold get0 at 1. rewrite !lookup_insert_ne by done.
        rewrite app_nil_r. done.
Qed.

(** [select_gene_by_priority] in terms of the listed codes: when exactly
    one gene name reaches the top priority, the result is the list holding
    that name, with the codes listed for the first gene name of the
    alignment. *)
Theorem select_gene_by_priority_unique_top (a : alignment) (n0 g0 : string)
    (rest : list string) :
  gn a = g0 :: rest →
  (∀ n, n ∈ gn a ∧ name_priority prios (zip (gn a) (gf a)) n
                   = top_priority prios (zip (gn a) (gf a)) ↔ n = n0) →
  select_gene_by_priority prios a
  = (GList [n0], FList (codes_of g0 (zip (gn a) (gf a)))).
Proof.
  intros Hgn Huniq. unfold select_gene_by_priority, gene_scan.
  destruct (gene_scan_state (zip (gn a) (gf a))) as [Hmax Hn].
  set (st := foldl _ _ _) in *.
  assert (filter (λ n, get0 (gene_prio st) n = max_prio st)
                 (elements (list_to_set (gn a) : gset string)) = [n0]) as ->.
  { apply NoDup_singleton_list; [apply NoDup_filter, NoDup_elements|].
    intros n. rewrite list_elem_of_filter, elem_of_elements, elem_of_list_to_set.
    rewrite <-(Huniq n). destruct (Hn n) as [-> _]. rewrite Hmax. tauto. }
  cbn [length]. rewrite decide_True by done. rewrite Hgn.
  destruct (Hn g0) as [_ Hc]. by rewrite Hc, Hgn.
Qed.

End gene_selection.

(** The default priorities on the gene names GeneA, GeneB annotated I, C:
    GeneB alone reaches the top priority. *)
Lemma select_gene_by_priority_unique_top_witness :
  select_gene_by_priority default_gene_priorities (aln ["GeneA"; "GeneB"] ["I"; "C"])
  = (GList ["GeneB"], FList (codes_of "GeneA" [("GeneA", "I"); ("GeneB", "C")])).
Proof.
  apply (select_gene_by_priority_unique_top default_gene_priorities
           (aln ["GeneA"; "GeneB"] ["I"; "C"]) "GeneB" "GeneA" ["GeneB"]).
  - reflexivity.
  - intros n. simpl. split.
    + intros [Hin Hp]. apply elem_of_cons in Hin as [->|Hin].
      * vm_compute in Hp. discriminate.
      * by apply list_elem_of_singleton in Hin.
    + intros ->. split; [right; left | vm_compute; reflexivity].
Defined.

(** ** Channel determination *)

Section channels.
Variable c : DefaultCounter.
Variable uniq : bool.

Lemma channel_step_chans st f :
  chans (channel_step c uniq st f) ⊆ chans st ∪ base_channels.
Proof.
  unfold channel_step, base_channels.
  repeat case_decide; destruct uniq; simpl; set_solver.
Qed.

Lemma channel_fold_chans gf st :
  chans (foldl (channel_step c uniq) st gf) ⊆ chans st ∪ base_channels.
Proof.
  revert st. induction gf as [|f gf IH]; intros st; simpl; [set_solver|].
  etrans; [apply IH|]. pose proof (channel_step_chans st f). set_solver.
Qed.

Lemma channel_fold_exon gf st :
  exon st = true ∨ (∃ f, f ∈ gf ∧ f ∈ exonic_set c) →
  exon (foldl (channel_step c uniq) st gf) = true.
Proof.
  revert st. induction gf as [|f gf IH]; intros st [He|(x & Hx & Hex)]; simpl.
  - done.
  - by apply elem_of_nil in Hx.
  - apply IH. left. unfold channel_step. repeat case_decide; done.
  - apply IH. apply elem_of_cons in Hx as [->|Hx].
    + left. unfold channel_step. by rewrite decide_True.
    + right. eauto.
Qed.

Lemma channel_step_intron st f :
  intron st = true → intron (channel_step c uniq st f) = true.
Proof. intros Hi. unfold channel_step. repeat case_decide; done. Qed.

Lemma channel_fold_intron gf st :
  intron st = true → intron (foldl (channel_step c uniq) st gf) = true.
Proof.
  revert st. induction gf as [|f gf IH]; intros st Hi; simpl; [done|].
  by apply IH, channel_step_intron.
Qed.

(** Without an intronic hit the intronic channels are not created. *)
Lemma channel_fold_no_intron gf st ch :
  ch = "intronic_reads" ∨ ch = "intronic_counts" →
  intron (foldl (channel_step c uniq) st gf) = false →
  ch ∈ chans (foldl (channel_step c uniq) st gf) → ch ∈ chans st.
Proof.
  intros Hch. revert st. induction gf as [|f gf IH]; intros st; simpl; [done|].
  intros Hi Hin. specialize (IH _ Hi Hin). revert IH Hi.
  unfold channel_step. repeat case_decide; simpl.
  - destruct uniq, Hch as [-> | ->]; set_solver.
  - intros _ Hi. rewrite channel_fold_intron in Hi; done.
  - done.
Qed.

Lemma counts_not_in_post_policy gf :
  "counts" ∉ post_policy_channels c gf uniq.
Proof.
  unfold post_policy_channels.
  pose proof (channel_fold_chans gf {| chans := ∅; exon := false; intron := false |}) as H.
  simpl in H. unfold base_channels in H.
  destruct (exon _ && intron _); [|set_solver].
  destruct (exon_intron_disambiguation_func c); simpl; set_solver.
Qed.

(** C4: when the feature codes contain an exonic and an intronic code and
    the policy is exon_wins, the channels returned by [determine_channels]
    contain neither intronic_reads nor intronic_counts; and under any
    policy the main channel counts is in the result exactly when the
    channel set left by the policy meets [count_X_channels]. *)
Theorem determine_channels_exon_wins_and_main_channel (gf : list string) :
  ((∃ f, f ∈ gf ∧ f ∈ exonic_set c) →
   (∃ f, f ∈ gf ∧ f ∈ intronic_set c) →
   exon_intron_disambiguation_func c = exon_wins →
   ("intronic_reads" ∉ determine_channels c gf uniq) ∧
   ("intronic_counts" ∉ determine_channels c gf uniq))
  ∧ ("counts" ∈ determine_channels c gf uniq ↔
     post_policy_channels c gf uniq ∩ count_X_channels c ≠ ∅).
Proof.
  split.
  - intros Hex _ Hpol.
    assert (∀ ch, ch = "intronic_reads" ∨ ch = "intronic_counts" →
                  ch ∉ post_policy_channels c gf uniq) as Hpost.
    { intros ch Hch. unfold post_policy_channels.
      rewrite (channel_fold_exon gf _ (or_intror Hex)), Hpol. simpl.
      destruct (intron _) eqn:Hi; simpl.
      - destruct Hch as [-> | ->]; set_solver.
      - intros Hin. apply (channel_fold_no_intron gf _ ch Hch Hi) in Hin.
        simpl in Hin. set_solver. }
    unfold determine_channels. case_decide.
    + split; intros [?%elem_of_singleton|Hin]%elem_of_union; try done;
        revert Hin; apply Hpost; auto.
    + split; apply Hpost; auto.
  - pose proof (counts_not_in_post_policy gf) as Hno.
    unfold determine_channels. case_decide; set_solver.
Qed.

End channels.

(** The default counter on the codes C, I of scenario C. *)
Lemma determine_channels_exon_wins_witness :
  ("intronic_reads" ∉ determine_channels default_counter ["C"; "I"] true) ∧
  ("intronic_counts" ∉ determine_channels default_counter ["C"; "I"] true).
Proof.
  apply (determine_channels_exon_wins_and_main_channel default_counter true ["C"; "I"]).
  - exists "C". split; [set_solver | by vm_compute].
  - exists "I". split; [set_solver | by vm_compute].
  - reflexivity.
Defined.

(** ** The uniqueness test *)

Section tracker.
Variable hash : string * string → Z.

Lemma first_observation_spec st p :
  first_observation hash st p = negb (bool_decide (hash p ∈ uniq st)).
Proof. by destruct p. Qed.

Lemma uniq_observed st p : uniq (observed hash st p) = {[hash p]} ∪ uniq st.
Proof.
  destruct p as [cell umi]. unfold observed, observe. simpl.
  case_bool_decide; simpl; set_solver.
Qed.

Lemma uniq_observed_all ps st :
  uniq (observed_all hash st ps) = uniq st ∪ list_to_set (hash <$> ps).
Proof.
  revert st. induction ps as [|p ps IH]; intros st; simpl.
  - set_solver.
  - unfold observed_all in *. simpl. rewrite IH, uniq_observed. set_solver.
Qed.

(** C2, as the code has it: the identity key is the hash value of the pair.
    The test answers true exactly when no pair with the same hash value has
    been recorded; so the first presentation of a pair answers true unless
    an earlier pair had the same hash value, every later presentation of
    the pair answers false, and pairs with different hash values do not
    affect each other. *)
Theorem first_observation_by_hash_value (st : counter_state) (p : string * string) :
  (∀ qs, first_observation hash (observed_all hash st qs) p = true ↔
         (hash p ∉ uniq st) ∧ (∀ q, q ∈ qs → hash q ≠ hash p))
  ∧ (∀ qs, first_observation hash (observed_all hash (observed hash st p) qs) p = false)
  ∧ (∀ q, hash q ≠ hash p →
          first_observation hash (observed hash st q) p = first_observation hash st p).
Proof.
  split; [|split].
  - intros qs. rewrite first_observation_spec, uniq_observed_all.
    rewrite negb_true_iff, bool_decide_eq_false.
    rewrite not_elem_of_union, elem_of_list_to_set, list_elem_of_fmap.
    naive_solver.
  - intros qs. rewrite first_observation_spec, uniq_observed_all, uniq_observed.
    rewrite negb_false_iff, bool_decide_eq_true. set_solver.
  - intros q Hq. rewrite !first_observation_spec, uniq_observed.
    f_equal. apply bool_decide_ext. set_solver.
Qed.

End tracker.

(** A barcode is determined by its length. *)
Lemma poly_A_inj n m : poly_A n = poly_A m → n = m.
Proof.
  revert m. induction n as [|n IH]; intros [|m] H; simplify_eq/=; auto.
Qed.

(** Any hash with 64-bit values sends two distinct (cell, UMI) pairs to the
    same value. *)
Lemma machine_hash_collision hash :
  machine_hash hash → ∃ p q, p ≠ q ∧ hash p = hash q.
Proof.
  intros Hh.
  set (N := Z.to_nat (2 ^ 64)).
  destruct (nat_pigeonhole (λ i, Z.to_nat (hash (poly_A i, "") + 2 ^ 63)) (S N) N)
    as (i & j & Hij & Heq); [lia| |].
  - intros i _. specialize (Hh (poly_A i, "")). subst N. lia.
  - exists (poly_A i, ""), (poly_A j, ""). split.
    + intros [= H%poly_A_inj]. lia.
    + pose proof (Hh (poly_A i, "")). pose proof (Hh (poly_A j, "")). lia.
Qed.

(** C2 as stated fails: under [length_hash] the distinct pairs
    (AAAA, UMI1) and (CCCC, UMI2) have one hash value, and recording the
    first makes the second a duplicate; and whatever 64-bit hash is used,
    two distinct pairs exist of which one, once recorded, turns the other
    into a duplicate. *)
Lemma distinct_pairs_collide :
  (length_hash ("AAAA", "UMI1") = length_hash ("CCCC", "UMI2") ∧
   first_observation length_hash fresh_counter ("CCCC", "UMI2") = true ∧
   first_observation length_hash
     (observed length_hash fresh_counter ("AAAA", "UMI1"))
     ("CCCC", "UMI2") = false)
  ∧ (∀ hash, machine_hash hash →
       ∃ p q, p ≠ q ∧
         first_observation hash fresh_counter p = true ∧
         first_observation hash (observed hash fresh_counter q) p = false).
Proof.
  split.
  - split; [reflexivity|]. split; [reflexivity|].
    rewrite first_observation_spec, uniq_observed. simpl.
    rewrite negb_false_iff, bool_decide_eq_true.
    apply elem_of_union_l, elem_of_singleton. reflexivity.
  - intros hash (p & q & Hpq & Heq)%machine_hash_collision.
    exists p, q. split; [done|].
    rewrite !first_observation_spec, uniq_observed. simpl.
    rewrite negb_true_iff, negb_false_iff, bool_decide_eq_false, bool_decide_eq_true.
    set_solver.
Qed.

(** ** Alignment selection *)

Section alignment_selection.
Variable prios : gmap string Z.

Lemma get_prio_priority a :
  gf a ≠ [] → get_prio prios (gf a) = Ok (priority prios a).
Proof.
  unfold priority, get_prio. destruct (gf a) as [|f fs]; [done|]. by simpl.
Qed.

Lemma foldl_max_ge (l : list Z) x : (x ≤ foldl Z.max x l)%Z.
Proof.
  revert x. induction l as [|y l IH]; intros x; simpl; [lia|].
  specialize (IH (Z.max x y)). lia.
Qed.

Lemma foldl_max_elem (l : list Z) x m :
  m ∈ l → (m ≤ foldl Z.max x l)%Z.
Proof.
  revert x. induction l as [|y l IH]; intros x Hm.
  - by apply elem_of_nil in Hm.
  - simpl. apply elem_of_cons in Hm as [->|Hm]; [|by apply IH].
    pose proof (foldl_max_ge l (Z.max x y)). lia.
Qed.

Lemma foldl_max_bound (l : list Z) x m :
  (x ≤ m)%Z → (∀ y, y ∈ l → (y ≤ m)%Z) → (foldl Z.max x l ≤ m)%Z.
Proof.
  revert x. induction l as [|y l IH]; intros x Hx Hl; simpl; [done|].
  apply IH.
  - specialize (Hl y (list_elem_of_here _ _)). lia.
  - intros z Hz. apply Hl. by apply list_elem_of_further.
Qed.

Lemma scan_app l1 l2 st :
  scan prios st (l1 ++ l2) = st' ← scan prios st l1; scan prios st' l2.
Proof.
  revert st. induction l1 as [|a l1 IH]; intros st; simpl; [done|].
  destruct (scan_step prios st a) as [st1|e]; simpl; [apply IH|done].
Qed.

Lemma attaining_above m bundle :
  (∀ b, b ∈ bundle → (priority prios b < m)%Z) → attaining prios m bundle = [].
Proof.
  intros Hlt. unfold attaining. induction bundle as [|b l IH]; [done|].
  rewrite filter_cons_False.
  - apply IH. intros x Hx. apply Hlt. by right.
  - specialize (Hlt b (list_elem_of_here _ _)). lia.
Qed.

(** What the scan leaves: the running maximum started at [top_prio st], the
    number of alignments seen at that maximum, and the last of them. *)
Lemma scan_spec bundle st :
  (∀ a, a ∈ bundle → gf a ≠ []) →
  ∃ st',
    scan prios st bundle = Ok st' ∧
    top_prio st' = foldl Z.max (top_prio st) (priority prios <$> bundle) ∧
    n_top st' = (if decide (top_prio st' = top_prio st) then n_top st else 0)
                + length (attaining prios (top_prio st') bundle) ∧
    kept st' = match last (attaining prios (top_prio st') bundle) with
               | Some a => Some a
               | None => kept st
               end.
Proof.
  induction bundle as [|a l IH] using rev_ind; intros Hgf.
  - exists st. simpl. rewrite decide_True by done. done.
  - destruct IH as (st1 & Hscan & Htop & Hn & Hk).
    { intros b Hb. apply Hgf, elem_of_app. by left. }
    assert (gf a ≠ []) as Ha by (apply Hgf, elem_of_app; right; left).
    pose proof (foldl_max_ge (priority prios <$> l) (top_prio st)) as Hge.
    assert (∀ b, b ∈ l → (priority prios b ≤ top_prio st1)%Z) as Hle.
    { intros b Hb. rewrite Htop. apply foldl_max_elem, list_elem_of_fmap. eauto. }
    rewrite scan_app, Hscan. simpl. unfold scan_step.
    rewrite (get_prio_priority a Ha). simpl.
    rewrite fmap_app, foldl_app. simpl. rewrite <-Htop in Hge |- *.
    set (p := priority prios a) in *.
    unfold attaining in *. 
    destruct (decide (p > top_prio st1)%Z) as [Hgt|Hngt];
      [|destruct (decide (p = top_prio st1)) as [Heq|Hne]].
    + eexists. split; [done|]. simpl. rewrite Z.max_r by lia.
      rewrite filter_app, filter_cons_True, filter_nil by done.
      assert (filter (λ b, priority prios b = p) l = []) as ->.
      { apply attaining_above. intros b Hb. specialize (Hle b Hb). lia. }
      rewrite decide_False by lia. done.
    + eexists. split; [done|]. simpl. rewrite Z.max_l by lia.
      rewrite filter_app, filter_cons_True, filter_nil by done.
      rewrite last_snoc, length_app, Hn. simpl. split; [done|].
      split; [|done]. case_decide; lia.
    + exists st1. split; [done|]. rewrite Z.max_l by lia.
      rewrite filter_app, filter_cons_False, filter_nil, app_nil_r by done.
      done.
Qed.

End alignment_selection.

Lemma choose_alignment_priority c bundle st :
  length bundle ≠ 1 →
  select_alignment c = aln_priority →
  value (choose_alignment c bundle st)
  = select_alignment_by_priority (alignment_priorities c) bundle.
Proof.
  intros Hlen Hsel. unfold choose_alignment, call_select_alignment.
  rewrite decide_False, Hsel by done.
  destruct (select_alignment_by_priority _ _) as [[a|]|e]; done.
Qed.

(** C3, as the code has it. A bundle of one alignment is selected as it
    is. For a bundle of two or more alignments, each with a feature code,
    whose maximal priority is [m], the priority strategy returns the one
    alignment of priority [m] when there is exactly one and [m] is at least
    0, the value the running maximum starts from; it returns [None] when
    two or more alignments have priority [m], and also when [m] is
    negative. *)
Theorem alignment_selection_by_priority (c : DefaultCounter) (st : counter_state) :
  (∀ a, value (choose_alignment c [a] st) = Ok (Some a))
  ∧ (∀ bundle m,
       select_alignment c = aln_priority →
       2 ≤ length bundle →
       (∀ a, a ∈ bundle → gf a ≠ []) →
       (∀ b, b ∈ bundle → (priority (alignment_priorities c) b ≤ m)%Z) →
       (∀ a, attaining (alignment_priorities c) m bundle = [a] → (0 ≤ m)%Z →
             value (choose_alignment c bundle st) = Ok (Some a))
       ∧ (2 ≤ length (attaining (alignment_priorities c) m bundle) →
          value (choose_alignment c bundle st) = Ok None)
       ∧ (attaining (alignment_priorities c) m bundle ≠ [] → (m < 0)%Z →
          value (choose_alignment c bundle st) = Ok None)).
Proof.
  split; [done|].
  intros bundle m Hsel Hlen Hgf Hmax.
  rewrite choose_alignment_priority by (done || lia).
  set (P := alignment_priorities c) in *.
  unfold select_alignment_by_priority.
  destruct (scan_spec P bundle {| top_prio := 0; n_top := 0; kept := None |} Hgf)
    as (st' & -> & Htop & Hn & Hk). simpl in *.
  assert (attaining P m bundle ≠ [] → top_prio st' = Z.max 0 m) as Hm.
  { intros Hne. destruct (attaining P m bundle) as [|b l] eqn:Hb; [done|].
    assert (b ∈ attaining P m bundle) as [Hpb Hin]%list_elem_of_filter
      by (rewrite Hb; left).
    assert (m ≤ top_prio st')%Z.
    { rewrite Htop, <-Hpb. apply foldl_max_elem, list_elem_of_fmap. eauto. }
    pose proof (foldl_max_ge (priority P <$> bundle) 0) as H0. rewrite <-Htop in H0.
    assert (top_prio st' ≤ Z.max 0 m)%Z; [|lia].
    rewrite Htop. apply foldl_max_bound; [lia|].
    intros y (x & -> & Hx)%list_elem_of_fmap. specialize (Hmax x Hx). lia. }
  assert ((m < 0)%Z → attaining P (top_prio st') bundle = []) as Hneg.
  { intros Hlt. apply attaining_above. intros b Hb.
    specialize (Hmax b Hb). pose proof (foldl_max_ge (priority P <$> bundle) 0).
    lia. }
  split; [|split].
  - intros a Ha Hpos. rewrite Hm in * by (by rewrite Ha).
    rewrite Z.max_r in * by lia. rewrite Ha in *. simpl in *.
    rewrite decide_True; [by rewrite Hk|]. rewrite Hn. case_decide; lia.
  - intros Hk2. destruct (decide (0 ≤ m)%Z).
    + rewrite Hm in * by (intros E; rewrite E in Hk2; simpl in Hk2; lia).
      rewrite Z.max_r in * by lia. rewrite decide_False; [done|]. lia.
    + rewrite Hneg in Hn by lia. simpl in Hn.
      rewrite decide_False; [done|]. case_decide; lia.
  - intros _ Hlt. rewrite Hneg in Hn by lia. simpl in Hn.
    rewrite decide_False; [done|]. case_decide; lia.
Qed.

(** The default counter on an exonic and an intronic alignment, and on two
    coding alignments (scenario B). *)
Lemma alignment_selection_by_priority_witness :
  value (choose_alignment default_counter
           [aln ["GeneA"] ["C"]; aln ["GeneB"] ["I"]] fresh_counter)
  = Ok (Some (aln ["GeneA"] ["C"]))
  ∧ value (choose_alignment default_counter
             [aln ["GeneA"] ["C"]; aln ["GeneB"] ["C"]] fresh_counter)
    = Ok None.
Proof.
  split.
  - destruct (proj2 (alignment_selection_by_priority default_counter fresh_counter)
                [aln ["GeneA"] ["C"]; aln ["GeneB"] ["I"]] 101%Z) as (H & _ & _).
    + reflexivity.
    + simpl. lia.
    + intros a Ha. each_member Ha done.
    + intros a Ha. each_member Ha ltac:(by vm_compute).
    + apply H; [vm_compute; reflexivity | lia].
  - destruct (proj2 (alignment_selection_by_priority default_counter fresh_counter)
                [aln ["GeneA"] ["C"]; aln ["GeneB"] ["C"]] 101%Z) as (_ & H & _).
    + reflexivity.
    + simpl. lia.
    + intros a Ha. each_member Ha done.
    + intros a Ha. each_member Ha ltac:(by vm_compute).
    + apply H. apply Nat.leb_le. vm_compute. reflexivity.
Defined.

(** C3 as stated fails for a priority table with negative values: of two
    alignments of priorities -1 and -2 the first alone attains the
    maximum, and the priority strategy returns [None]. An alignment
    without feature code has no priority: [max] raises [ValueError]. *)
Lemma negative_priorities_select_none :
  priority negative_priorities (aln ["GeneA"] ["x"]) = (-1)%Z
  ∧ priority negative_priorities (aln ["GeneB"] ["y"]) = (-2)%Z
  ∧ select_alignment_by_priority negative_priorities
      [aln ["GeneA"] ["x"]; aln ["GeneB"] ["y"]] = Ok None
  ∧ value (choose_alignment negative_counter
             [aln ["GeneA"] ["x"]; aln ["GeneB"] ["y"]] fresh_counter) = Ok None
  ∧ select_alignment_by_priority default_alignment_priorities
      [aln ["GeneA"] []; aln ["GeneB"] ["C"]] = Raise ValueError.
Proof. vm_compute. done. Qed.

(** ** Facts on insertion-ordered dictionaries *)

Section alist_facts.
Context {K V : Type} `{EqDecision K}.
Implicit Types (d : list (K * V)) (k : K).

Lemma alist_get_update_eq dflt f k d :
  alist_get k (alist_update dflt f k d) = Some (f (default dflt (alist_get k d))).
Proof.
  induction d as [|[k' v] d IH]; simpl.
  - by rewrite decide_True.
  - destruct (decide (k = k')) as [->|Hne]; simpl.
    + by rewrite decide_True.
    + by rewrite decide_False.
Qed.

Lemma alist_get_update_ne dflt f k k' d :
  k ≠ k' → alist_get k' (alist_update dflt f k d) = alist_get k' d.
Proof.
  intros Hne. induction d as [|[k0 v] d IH]; simpl.
  - by rewrite decide_False.
  - destruct (decide (k = k0)) as [->|Hne0]; simpl.
    + by rewrite !decide_False.
    + destruct (decide (k' = k0)); done.
Qed.

Lemma alist_update_keys dflt f k d :
  fst <$> alist_update dflt f k d
  = if decide (k ∈ fst <$> d) then fst <$> d else (fst <$> d) ++ [k].
Proof.
  induction d as [|[k' v] d IH]; [done|]. csimpl.
  - destruct (decide (k = k')) as [->|Hne]; csimpl.
    + rewrite decide_True; [done|]. left.
    + rewrite IH. destruct (decide (k ∈ fst <$> d)) as [Hin|Hnin].
      * rewrite decide_True; [done|]. by right.
      * rewrite decide_False; [done|]. rewrite elem_of_cons. naive_solver.
Qed.

Lemma alist_get_None k d : k ∉ fst <$> d → alist_get k d = None.
Proof.
  induction d as [|[k' v] d IH]; csimpl; [done|].
  rewrite elem_of_cons. intros Hk. rewrite decide_False by naive_solver.
  apply IH. naive_solver.
Qed.

End alist_facts.

(** ** The count store *)

Lemma count_in_incr_eq counts key ch :
  count_in (DGE.incr key counts ch) key ch = S (count_in counts key ch).
Proof.
  unfold count_in, DGE.incr. rewrite alist_get_update_eq. simpl.
  rewrite lookup_insert_eq. simpl. f_equal.
  destruct (alist_get key counts) as [d|]; simpl; [done|].
  by rewrite lookup_empty.
Qed.

Lemma count_in_incr_ne counts key ch key' ch' :
  (key, ch) ≠ (key', ch') →
  count_in (DGE.incr key counts ch) key' ch' = count_in counts key' ch'.
Proof.
  intros Hne. unfold count_in, DGE.incr.
  destruct (decide (key = key')) as [<-|Hk].
  - rewrite alist_get_update_eq. simpl.
    rewrite lookup_insert_ne by congruence.
    destruct (alist_get key counts) as [d|]; simpl; [done|].
    by rewrite lookup_empty.
  - by rewrite alist_get_update_ne.
Qed.

Lemma count_in_foldl_incr chs counts key key' ch :
  NoDup chs →
  count_in (foldl (DGE.incr key) counts chs) key' ch
  = count_in counts key' ch
    + (if decide (key' = key ∧ ch ∈ chs) then 1 else 0).
Proof.
  revert counts. induction chs as [|c chs IH]; intros counts Hnd; simpl.
  - rewrite decide_False; [lia|]. intros [_ []%elem_of_nil].
  - apply NoDup_cons in Hnd as [Hc Hnd]. rewrite IH by done.
    destruct (decide (key = key' ∧ c = ch)) as [[-> ->]|Hne].
    + rewrite count_in_incr_eq.
      rewrite decide_False by naive_solver.
      rewrite decide_True by (split; [done|left]). lia.
    + rewrite count_in_incr_ne by naive_solver. f_equal.
      apply decide_ext. rewrite elem_of_cons. naive_solver.
Qed.

Lemma get_count_add_read s gene cell chs key ch :
  get_count (DGE.add_read s gene cell chs) key ch
  = get_count s key ch
    + (if decide (key = (gene, if DGE.not_allowed s cell then "NA" else cell) ∧ ch ∈ chs)
       then 1 else 0).
Proof.
  unfold DGE.add_read. case_decide as Hchs.
  - unfold get_count. simpl.
    rewrite count_in_foldl_incr by apply NoDup_elements. f_equal.
    apply decide_ext. by rewrite elem_of_elements.
  - subst chs. rewrite decide_False; [lia|set_solver].
Qed.

(** C8: [add_read] with an empty channel set returns the aggregator as it
    was: counts, observed cells and observed genes included. *)
Theorem add_read_no_channels (s : DGE.t) (gene cell : string) :
  DGE.add_read s gene cell ∅ = s.
Proof. unfold DGE.add_read. by rewrite decide_False by (intros H; by apply H). Qed.


(** C7, as the code has it: with a non-empty allow-list, a barcode that is
    not on it is counted under the cell id NA, which is also what enters the
    observed cells, while every other (gene, cell) key keeps its counts;
    without an allow-list, or with an empty one, the barcode is used as it
    is. *)
Theorem add_read_allow_list (s : DGE.t) (gene cell : string) (chs : gset string) :
  chs ≠ ∅ →
  (∀ bcs, DGE.allowed_bcs s = Some bcs → bcs ≠ ∅ → cell ∉ bcs →
     DGE.DGE_cells (DGE.add_read s gene cell chs) = {["NA"]} ∪ DGE.DGE_cells s
     ∧ (∀ ch, ch ∈ chs →
          get_count (DGE.add_read s gene cell chs) (gene, "NA") ch
          = S (get_count s (gene, "NA") ch))
     ∧ (∀ key ch, key ≠ (gene, "NA") →
          get_count (DGE.add_read s gene cell chs) key ch = get_count s key ch))
  ∧ (DGE.allowed_bcs s = None ∨ DGE.allowed_bcs s = Some ∅ →
     DGE.DGE_cells (DGE.add_read s gene cell chs) = {[cell]} ∪ DGE.DGE_cells s
     ∧ (∀ ch, ch ∈ chs →
          get_count (DGE.add_read s gene cell chs) (gene, cell) ch
          = S (get_count s (gene, cell) ch))
     ∧ (∀ key ch, key ≠ (gene, cell) →
          get_count (DGE.add_read s gene cell chs) key ch = get_count s key ch)).
Proof.
  intros Hchs. split.
  - intros bcs Hbcs Hne Hcell.
    assert (DGE.not_allowed s cell = true) as Hna.
    { unfold DGE.not_allowed. rewrite Hbcs.
      by rewrite bool_decide_eq_true_2, bool_decide_eq_false_2. }
    split; [|split].
    + unfold DGE.add_read. rewrite decide_True by done. simpl. by rewrite Hna.
    + intros ch Hch. rewrite get_count_add_read, Hna.
      rewrite decide_True by done. lia.
    + intros key ch Hkey. rewrite get_count_add_read, Hna.
      rewrite decide_False by naive_solver. lia.
  - intros Hnone.
    assert (DGE.not_allowed s cell = false) as Hna.
    { unfold DGE.not_allowed. destruct Hnone as [-> | ->]; [done|].
      by rewrite bool_decide_eq_false_2 by (intros H; by apply H). }
    split; [|split].
    + unfold DGE.add_read. rewrite decide_True by done. simpl. by rewrite Hna.
    + intros ch Hch. rewrite get_count_add_read, Hna.
      rewrite decide_True by done. lia.
    + intros key ch Hkey. rewrite get_count_add_read, Hna.
      rewrite decide_False by naive_solver. lia.
Qed.

(** An allow-list holding CCCC, and the barcode AAAA. *)
Lemma add_read_allow_list_witness :
  DGE.DGE_cells (DGE.add_read (DGE.init default_channels "allowlist.txt" ["CCCC"])
                   "GeneA" "AAAA" {["exonic_reads"]})
  = {["NA"]} ∪ ∅
  ∧ get_count (DGE.add_read (DGE.init default_channels "allowlist.txt" ["CCCC"])
                 "GeneA" "AAAA" {["exonic_reads"]}) ("GeneA", "NA") "exonic_reads"
    = 1.
Proof.
  destruct (proj1 (add_read_allow_list
                     (DGE.init default_channels "allowlist.txt" ["CCCC"])
                     "GeneA" "AAAA" {["exonic_reads"]} ltac:(set_solver))
              {["CCCC"]}) as (Hcells & Hcount & _).
  - vm_compute. reflexivity.
  - set_solver.
  - set_solver.
  - split; [exact Hcells|]. rewrite Hcount by set_solver. reflexivity.
Defined.

(** C7 as stated fails for a configured allow-list that is empty (an empty
    file): the barcode AAAA, which is not on the list, is counted under
    AAAA and NA does not appear. *)
Lemma empty_allow_list_accepts_barcode :
  DGE.allowed_bcs (DGE.init default_channels "allowlist.txt" []) = Some ∅
  ∧ elements (DGE.DGE_cells
                (DGE.add_read (DGE.init default_channels "allowlist.txt" [])
                   "GeneA" "AAAA" {["exonic_reads"]})) = ["AAAA"]
  ∧ get_count (DGE.add_read (DGE.init default_channels "allowlist.txt" [])
                 "GeneA" "AAAA" {["exonic_reads"]}) ("GeneA", "AAAA") "exonic_reads" = 1
  ∧ get_count (DGE.add_read (DGE.init default_channels "allowlist.txt" [])
                 "GeneA" "AAAA" {["exonic_reads"]}) ("GeneA", "NA") "exonic_reads" = 0.
Proof. vm_compute. done. Qed.

(** ** Bundles that fail to resolve *)

Section stats_only.

Lemma stats_only_ret {A} (a : A) : stats_only (mret a).
Proof. split; [done|]. by intros st a' st' [= _ ->]. Qed.

Lemma stats_only_lift {A} (r : result A) : stats_only (lift r).
Proof.
  split; [by destruct r|]. intros st a st'. unfold lift. destruct r; naive_solver.
Qed.

Lemma stats_only_bump name : stats_only (bump name).
Proof. split; [done|]. by intros st a st' [= _ <-]. Qed.

Lemma stats_only_bind {A B} (m : M A) (f : A → M B) :
  stats_only m → (∀ a, stats_only (f a)) → stats_only (m ≫= f).
Proof.
  intros [Hv Hu] Hf. split.
  - intros st1 st2. specialize (Hv st1 st2).
    unfold mbind, M_bind.
    destruct (m st1) as [[a1 s1]|e1], (m st2) as [[a2 s2]|e2]; simplify_eq/=; [|done].
    apply (Hf a2).
  - intros st b st'. unfold mbind, M_bind.
    destruct (m st) as [[a s1]|e] eqn:Hm; [|done].
    intros Hfa. apply Hu in Hm. apply (Hf a) in Hfa. congruence.
Qed.

Lemma stats_only_choose_alignment c bundle : stats_only (choose_alignment c bundle).
Proof.
  unfold choose_alignment. case_decide;
    repeat first [ apply stats_only_bind; [|intros ?]
                 | apply stats_only_bump | apply stats_only_lift | apply stats_only_ret ].
Qed.

Lemma stats_only_choose_gene c a : stats_only (choose_gene c a).
Proof.
  unfold choose_gene.
  repeat first [ apply stats_only_bind; [|intros ?]
               | apply stats_only_bump | apply stats_only_lift | apply stats_only_ret
               | case_decide ].
Qed.

Lemma stats_only_disambiguate c bundle : stats_only (disambiguate c bundle).
Proof.
  unfold disambiguate. apply stats_only_bind; [apply stats_only_choose_alignment|].
  intros [a|]; [apply stats_only_choose_gene | apply stats_only_ret].
Qed.

Lemma stats_only_bump_all names : stats_only (bump_all names).
Proof.
  induction names as [|n names IH]; simpl; [apply stats_only_ret|].
  apply stats_only_bind; [apply stats_only_bump | done].
Qed.

End stats_only.

Lemma bump_all_ok names st : ∃ st', bump_all names st = Ok ((), st') ∧ uniq st' = uniq st.
Proof.
  revert st. induction names as [|n names IH]; intros st; simpl; [by eexists|].
  unfold mbind, M_bind. simpl. destruct (IH (
    {| stats := <[n:=S (default 0 (stats st !! n))]> (stats st); uniq := uniq st |}))
    as (st' & -> & Hu). by eexists.
Qed.

Section process_facts.
Variable hash : string * string → Z.
Variable c : DefaultCounter.

(** [process_bam_bundle] is the disambiguation followed by the counting of
    a gene that is true. *)
Lemma process_bam_bundle_unfold cell umi bundle st :
  process_bam_bundle hash c cell umi bundle st
  = match disambiguate c bundle st with
    | Ok ((gene, gf), st') =>
      if truthy gene then
        match count_alignment hash c cell umi gf st' with
        | Ok (channels, st'') => Ok ((gene, channels), st'')
        | Raise e => Raise e
        end
      else Ok ((gene, ∅), st')
    | Raise e => Raise e
    end.
Proof.
  unfold process_bam_bundle, disambiguate, mbind, M_bind.
  destruct (choose_alignment c bundle st) as [[[a|] st1]|e]; [|done|done].
  destruct (choose_gene c a st1) as [[[gene gf] st2]|e]; [|done].
  destruct (truthy gene); [|done].
  destruct (count_alignment hash c cell umi gf st2) as [[channels st3]|e]; done.
Qed.

Lemma disambiguate_resolve bundle st :
  value (disambiguate c bundle st) = resolve c bundle.
Proof. apply stats_only_disambiguate. Qed.

Lemma count_alignment_ok cell umi gf fs st :
  items gf = Ok fs → fs ≠ [] →
  ∃ st',
    count_alignment hash c cell umi gf st
    = Ok (determine_channels c fs (negb (bool_decide (hash (cell, umi) ∈ uniq st))), st')
    ∧ uniq st' = {[hash (cell, umi)]} ∪ uniq st.
Proof.
  intros Hitems Hfs. destruct fs as [|f0 fs']; [done|].
  unfold count_alignment, mbind, M_bind. simpl. rewrite Hitems. simpl.
  set (u := negb (bool_decide (hash (cell, umi) ∈ uniq st))).
  set (chs := determine_channels c (f0 :: fs') u).
  match goal with |- context [bump_all ?n ?s] =>
    destruct (bump_all_ok n s) as (st1 & -> & Hu1) end.
  assert (uniq st1 = {[hash (cell, umi)]} ∪ uniq st) as Hst1.
  { rewrite Hu1. subst u. case_bool_decide; simpl; set_solver. }
  case_decide; simpl; eexists; split; done.
Qed.

End process_facts.

(** ** Bundles that are not resolved to a gene *)

Section resolved.
Variable hash : string * string → Z.
Variable c : DefaultCounter.

(** What one call returns and records, in terms of the outcome of the two
    disambiguation stages. *)
Lemma process_bam_bundle_outcome cell umi bundle st gene chs st' :
  process_bam_bundle hash c cell umi bundle st = Ok ((gene, chs), st') →
  ∃ gf, resolve c bundle = Ok (gene, gf)
        ∧ if truthy gene then
            uniq st' = {[hash (cell, umi)]} ∪ uniq st
            ∧ ∃ fs, items gf = Ok fs
                    ∧ chs = determine_channels c fs
                              (negb (bool_decide (hash (cell, umi) ∈ uniq st)))
          else chs = ∅ ∧ uniq st' = uniq st.
Proof.
  rewrite process_bam_bundle_unfold. intros H.
  pose proof (disambiguate_resolve c bundle st) as Hres.
  destruct (disambiguate c bundle st) as [[[g f] sta]|e] eqn:Hd; [|done].
  apply (proj2 (stats_only_disambiguate c bundle)) in Hd. simpl in Hres.
  destruct (truthy g) eqn:Hg.
  - destruct (count_alignment hash c cell umi f sta) as [[chs' stb]|e] eqn:Hc; [|done].
    injection H as <- <- <-. exists f. rewrite Hg. split; [done|].
    destruct (items f) as [[|f0 fs]|e] eqn:Hi.
    + unfold count_alignment, mbind, M_bind in Hc. simpl in Hc. rewrite Hi in Hc. done.
    + destruct (count_alignment_ok hash c cell umi f (f0 :: fs) sta Hi) as (st2 & Heq & Hu);
        [done|].
      rewrite Heq in Hc. injection Hc as <- <-. rewrite Hu, Hd. split; [done|].
      by exists (f0 :: fs).
    + unfold count_alignment, mbind, M_bind in Hc. simpl in Hc. rewrite Hi in Hc. done.
  - injection H as <- <- <-. exists f. by rewrite Hg.
Qed.

(** The converse: a bundle that the two stages resolve to a gene with
    feature codes is counted, one that they do not resolve is not. *)
Lemma process_bam_bundle_resolved cell umi bundle st gene gf fs :
  resolve c bundle = Ok (gene, gf) → truthy gene = true →
  items gf = Ok fs → fs ≠ [] →
  ∃ st',
    process_bam_bundle hash c cell umi bundle st
    = Ok ((gene, determine_channels c fs
                   (negb (bool_decide (hash (cell, umi) ∈ uniq st)))), st')
    ∧ uniq st' = {[hash (cell, umi)]} ∪ uniq st.
Proof.
  intros Hres Hg Hi Hfs. rewrite process_bam_bundle_unfold.
  rewrite <-(disambiguate_resolve c bundle st) in Hres.
  destruct (disambiguate c bundle st) as [[[g f] sta]|e] eqn:Hd; [|done].
  injection Hres as -> ->. rewrite Hg.
  apply (proj2 (stats_only_disambiguate c bundle)) in Hd.
  destruct (count_alignment_ok hash c cell umi gf fs sta Hi Hfs) as (st2 & -> & Hu).
  exists st2. by rewrite Hu, Hd.
Qed.

Lemma process_bam_bundle_not_resolved cell umi bundle st gene gf :
  resolve c bundle = Ok (gene, gf) → truthy gene = false →
  ∃ st',
    process_bam_bundle hash c cell umi bundle st = Ok ((gene, ∅), st')
    ∧ uniq st' = uniq st.
Proof.
  intros Hres Hg. rewrite process_bam_bundle_unfold.
  rewrite <-(disambiguate_resolve c bundle st) in Hres.
  destruct (disambiguate c bundle st) as [[[g f] sta]|e] eqn:Hd; [|done].
  injection Hres as -> ->. rewrite Hg.
  apply (proj2 (stats_only_disambiguate c bundle)) in Hd. by exists sta.
Qed.

Lemma resolved_pairs_cons cell umi bundle bs gene chs outs :
  resolved_pairs ((cell, umi, bundle) :: bs) ((gene, chs) :: outs)
  = (if truthy gene then [(cell, umi)] else []) ++ resolved_pairs bs outs.
Proof.
  unfold resolved_pairs. cbn [zip zip_with]. rewrite filter_cons. cbn [fst snd].
  destruct (truthy gene); [by rewrite decide_True|by rewrite decide_False].
Qed.

Lemma process_bundles_uniq bs st outs st1 :
  process_bundles hash c st bs = Ok (outs, st1) →
  uniq st1 = uniq st ∪ list_to_set (hash <$> resolved_pairs bs outs).
Proof.
  revert st outs. induction bs as [|[[cell umi] bundle] bs IH]; intros st outs H.
  - injection H as <- <-. unfold resolved_pairs. simpl. set_solver.
  - cbn [process_bundles] in H.
    destruct (process_bam_bundle hash c cell umi bundle st) as [[[gene chs] sta]|e] eqn:Hp;
      [|done].
    destruct (process_bundles hash c sta bs) as [[os stb]|e] eqn:Hr; [|done].
    injection H as <- <-. rewrite (IH _ _ Hr), resolved_pairs_cons.
    apply process_bam_bundle_outcome in Hp as (gf & _ & Hp).
    destruct (truthy gene).
    + destruct Hp as [-> _]. rewrite fmap_app, list_to_set_app_L. simpl. set_solver.
    + destruct Hp as [_ ->]. simpl. done.
Qed.

(** C10, as the code has it: [uniq] holds the hash values of the pairs of
    the bundles that were resolved to a gene, and of no other bundle, so a
    bundle whose alignment or gene selection fails records nothing and has
    no channels. A later bundle that is resolved to a gene is treated as a
    first observation exactly when the hash value of its pair was not in
    the set at the start and no bundle resolved before it carried a pair
    with the same hash value; its own hash value is recorded then. *)
Theorem failed_bundles_are_not_recorded (st st1 : counter_state)
    (bs : list (string * string * list alignment))
    (outs : list (gene_val * gset string)) :
  process_bundles hash c st bs = Ok (outs, st1) →
  uniq st1 = uniq st ∪ list_to_set (hash <$> resolved_pairs bs outs)
  ∧ ∀ cell umi bundle gene chs st2,
      process_bam_bundle hash c cell umi bundle st1 = Ok ((gene, chs), st2) →
      (truthy gene = false → chs = ∅ ∧ uniq st2 = uniq st1)
      ∧ (truthy gene = true →
         uniq st2 = {[hash (cell, umi)]} ∪ uniq st1
         ∧ ∃ gf fs u,
             resolve c bundle = Ok (gene, gf) ∧ items gf = Ok fs
             ∧ chs = determine_channels c fs u
             ∧ (u = true ↔
                (hash (cell, umi) ∉ uniq st)
                ∧ ∀ q, q ∈ resolved_pairs bs outs → hash q ≠ hash (cell, umi))).
Proof.
  intros Hu%process_bundles_uniq. split; [done|].
  intros cell umi bundle gene chs st2 (gf & Hres & Hp)%process_bam_bundle_outcome.
  split; intros Hg; rewrite Hg in Hp; [done|].
  destruct Hp as (Hu2 & fs & Hi & ->). split; [done|].
  exists gf, fs, (negb (bool_decide (hash (cell, umi) ∈ uniq st1))).
  split; [done|]. split; [done|]. split; [done|].
  rewrite negb_true_iff, bool_decide_eq_false, Hu.
  rewrite not_elem_of_union, elem_of_list_to_set, list_elem_of_fmap. split.
  - intros [H1 H2]. split; [done|]. intros q Hq Heq. apply H2. by exists q.
  - intros [H1 H2]. split; [done|]. intros (q & Heq & Hq). by apply (H2 q).
Qed.

End resolved.

(** Scenario B followed by scenario A on one (cell, UMI) pair: the
    ambiguous bundle records nothing, and the bundle that follows it gets
    the channels of a first observation. *)
Lemma failed_bundles_are_not_recorded_witness :
  ∃ outs st1 chs st2,
    process_bundles length_hash default_counter fresh_counter
      [("AAAA", "UMI1", ambiguous_bundle)] = Ok (outs, st1)
    ∧ uniq st1 = uniq fresh_counter
                 ∪ list_to_set (length_hash
                                <$> resolved_pairs [("AAAA", "UMI1", ambiguous_bundle)] outs)
    ∧ process_bam_bundle length_hash default_counter "AAAA" "UMI1"
        [aln ["GeneA"] ["C"]] st1 = Ok ((GStr "GeneA", chs), st2)
    ∧ uniq st2 = {[length_hash ("AAAA", "UMI1")]} ∪ uniq st1.
Proof.
  assert (∃ outs st1,
    process_bundles length_hash default_counter fresh_counter
      [("AAAA", "UMI1", ambiguous_bundle)] = Ok (outs, st1)
    ∧ ∃ chs st2,
        process_bam_bundle length_hash default_counter "AAAA" "UMI1"
          [aln ["GeneA"] ["C"]] st1 = Ok ((GStr "GeneA", chs), st2))
    as (outs & st1 & H1 & chs & st2 & H2)
    by (do 2 eexists; split; [vm_compute; reflexivity|];
        do 2 eexists; vm_compute; reflexivity).
  destruct (failed_bundles_are_not_recorded length_hash default_counter fresh_counter st1
              [("AAAA", "UMI1", ambiguous_bundle)] outs H1) as [Hu Hlater].
  destruct (Hlater "AAAA" "UMI1" [aln ["GeneA"] ["C"]] (GStr "GeneA") chs st2 H2)
    as [_ Hres].
  destruct (Hres eq_refl) as [Hu2 _].
  exists outs, st1, chs, st2.
  split; [exact H1|]. split; [exact Hu|]. split; [exact H2|exact Hu2].
Defined.

(** C10 as stated fails: a pair that was never recorded is not treated as
    a first observation when a recorded pair has the same hash value. Under
    [length_hash], (CCCC, UMI2) is counted for GeneA, the only bundle seen
    for (AAAA, UMI1) is ambiguous, and the bundle of (AAAA, UMI1) that is
    then resolved gets the channels of a duplicate, without
    [exonic_counts]; and whatever 64-bit hash is used, two distinct pairs
    exist for which this happens. *)
Lemma unrecorded_pair_treated_as_duplicate :
  (∃ outs st1 st2,
     process_bundles length_hash default_counter fresh_counter
       [("CCCC", "UMI2", [aln ["GeneA"] ["C"]]); ("AAAA", "UMI1", ambiguous_bundle)]
     = Ok (outs, st1)
     ∧ resolved_pairs
         [("CCCC", "UMI2", [aln ["GeneA"] ["C"]]); ("AAAA", "UMI1", ambiguous_bundle)]
         outs = [("CCCC", "UMI2")]
     ∧ process_bam_bundle length_hash default_counter "AAAA" "UMI1"
         [aln ["GeneA"] ["C"]] st1
       = Ok ((GStr "GeneA", determine_channels default_counter ["C"] false), st2)
     ∧ bool_decide ("exonic_counts" ∈ determine_channels default_counter ["C"] false)
       = false
     ∧ bool_decide ("exonic_counts" ∈ determine_channels default_counter ["C"] true)
       = true)
  ∧ (∀ hash, machine_hash hash →
       ∃ p q outs st1 st2,
         p ≠ q
         ∧ process_bundles hash default_counter fresh_counter
             [(q.1, q.2, [aln ["GeneA"] ["C"]]); (p.1, p.2, ambiguous_bundle)]
           = Ok (outs, st1)
         ∧ resolved_pairs
             [(q.1, q.2, [aln ["GeneA"] ["C"]]); (p.1, p.2, ambiguous_bundle)] outs
           = [q]
         ∧ process_bam_bundle hash default_counter p.1 p.2 [aln ["GeneA"] ["C"]] st1
           = Ok ((GStr "GeneA", determine_channels default_counter ["C"] false), st2)).
Proof.
  assert (resolve default_counter [aln ["GeneA"] ["C"]] = Ok (GStr "GeneA", FStr "C"))
    as Hone by (vm_compute; reflexivity).
  assert (resolve default_counter ambiguous_bundle = Ok (GNone, FNone))
    as Htwo by (vm_compute; reflexivity).
  assert (∀ hash, ∀ p q : string * string, hash p = hash q →
            ∃ outs st1 st2,
              process_bundles hash default_counter fresh_counter
                [(q.1, q.2, [aln ["GeneA"] ["C"]]); (p.1, p.2, ambiguous_bundle)]
              = Ok (outs, st1)
              ∧ resolved_pairs
                  [(q.1, q.2, [aln ["GeneA"] ["C"]]); (p.1, p.2, ambiguous_bundle)] outs
                = [q]
              ∧ process_bam_bundle hash default_counter p.1 p.2 [aln ["GeneA"] ["C"]] st1
                = Ok ((GStr "GeneA", determine_channels default_counter ["C"] false),
                      st2)) as Hgen.
  { intros hash [pc pu] [qc qu] Heq. cbn [fst snd].
    destruct (process_bam_bundle_resolved hash default_counter qc qu
                [aln ["GeneA"] ["C"]] fresh_counter (GStr "GeneA") (FStr "C") ["C"]
                Hone eq_refl eq_refl) as (sta & Ha & Hua); [by intros [=]|].
    destruct (process_bam_bundle_not_resolved hash default_counter pc pu
                ambiguous_bundle sta GNone FNone Htwo eq_refl) as (stb & Hb & Hub).
    destruct (process_bam_bundle_resolved hash default_counter pc pu
                [aln ["GeneA"] ["C"]] stb (GStr "GeneA") (FStr "C") ["C"]
                Hone eq_refl eq_refl) as (stc & Hc & Huc); [by intros [=]|].
    eexists _, stb, stc. cbn [process_bundles]. rewrite Ha, Hb.
    split; [reflexivity|]. split; [reflexivity|]. rewrite Hc.
    assert (negb (bool_decide (hash (pc, pu) ∈ uniq stb)) = false) as ->; [|done].
    rewrite negb_false_iff, bool_decide_eq_true, Hub, Hua, Heq.
    apply elem_of_union_l, elem_of_singleton. reflexivity. }
  split.
  - destruct (Hgen length_hash ("AAAA", "UMI1") ("CCCC", "UMI2") eq_refl)
      as (outs & st1 & st2 & H1 & H2 & H3).
    exists outs, st1, st2. split; [exact H1|]. split; [exact H2|]. split; [exact H3|].
    split; vm_compute; reflexivity.
  - intros hash (p & q & Hpq & Heq)%machine_hash_collision.
    destruct (Hgen hash p q Heq) as (outs & st1 & st2 & H1 & H2 & H3).
    exists p, q, outs, st1, st2. split; [exact Hpq|]. split; [exact H1|].
    split; [exact H2|exact H3].
Qed.

(** ** Channel totals along the counting loop *)

Lemma total_in_incr counts key ch' ch :
  total_in (DGE.incr key counts ch') ch
  = total_in counts ch + (if decide (ch = ch') then 1 else 0).
Proof.
  unfold total_in, DGE.incr.
  induction counts as [|[k d] counts IH]; csimpl.
  - rewrite lookup_empty. simpl. case_decide as Hch.
    + subst. by rewrite lookup_insert_eq.
    + rewrite lookup_insert_ne, lookup_empty by done. done.
  - destruct (decide (key = k)) as [->|Hne]; csimpl.
    + case_decide as Hch.
      * subst. rewrite lookup_insert_eq. simpl. lia.
      * rewrite lookup_insert_ne by done. lia.
    + rewrite IH. lia.
Qed.

Lemma total_in_foldl_incr chs counts key ch :
  NoDup chs →
  total_in (foldl (DGE.incr key) counts chs) ch
  = total_in counts ch + (if decide (ch ∈ chs) then 1 else 0).
Proof.
  revert counts. induction chs as [|c chs IH]; intros counts Hnd.
  - destruct (decide (ch ∈ [])) as [H|H]; [by apply elem_of_nil in H | simpl; lia].
  - simpl. apply NoDup_cons in Hnd as [Hc Hnd]. rewrite IH, total_in_incr by done.
    destruct (decide (ch = c)) as [->|Hne].
    + rewrite decide_False by done. rewrite decide_True by left. lia.
    + rewrite Nat.add_0_r. f_equal. apply decide_ext. rewrite elem_of_cons. naive_solver.
Qed.

Lemma channel_total_add_read s gene cell chs ch :
  channel_total (DGE.add_read s gene cell chs) ch
  = channel_total s ch + (if decide (ch ∈ chs) then 1 else 0).
Proof.
  unfold DGE.add_read. case_decide as Hchs.
  - unfold channel_total. simpl.
    rewrite total_in_foldl_incr by apply NoDup_elements.
    f_equal. apply decide_ext. apply elem_of_elements.
  - subst chs. rewrite decide_False; [lia|set_solver].
Qed.

Lemma size_difference_fresh (x : Z) (X U : gset Z) :
  x ∉ U → size (({[x]} ∪ X) ∖ U) = S (size (X ∖ ({[x]} ∪ U))).
Proof.
  intros Hx.
  assert (({[x]} ∪ X) ∖ U = {[x]} ∪ X ∖ ({[x]} ∪ U)) as ->.
  { apply set_eq. intros y. set_unfold. destruct (decide (y = x)); naive_solver. }
  rewrite size_union by set_solver. by rewrite size_singleton.
Qed.

Section loop_facts.
Variable hash : string * string → Z.
Variable c : DefaultCounter.
Variable reference_name : string.

Lemma channel_fold_not_uniq gf st :
  chans (foldl (channel_step c false) st gf)
  ⊆ chans st ∪ list_to_set ["exonic_reads"; "intronic_reads"].
Proof.
  revert st. induction gf as [|f gf IH]; intros st; simpl; [set_solver|].
  etrans; [apply IH|]. unfold channel_step. repeat case_decide; simpl; set_solver.
Qed.

Lemma determine_channels_not_uniq fs :
  determine_channels c fs false
  ⊆ list_to_set ["counts"; "exonic_reads"; "intronic_reads"].
Proof.
  assert (post_policy_channels c fs false
          ⊆ list_to_set ["exonic_reads"; "intronic_reads"]) as Hpost.
  { unfold post_policy_channels.
    pose proof (channel_fold_not_uniq fs {| chans := ∅; exon := false; intron := false |}) as H.
    simpl in H. destruct (exon _ && intron _); [|set_solver].
    destruct (exon_intron_disambiguation_func c); simpl; set_solver. }
  unfold determine_channels. case_decide; set_solver.
Qed.

(** A channel named [..._counts] is only produced for a first
    observation. *)
Lemma counts_channel_needs_uniq fs u ch :
  ends_with "_counts" ch = true → ch ∈ determine_channels c fs u → u = true.
Proof.
  intros Hch Hin. destruct u; [done|]. exfalso.
  apply determine_channels_not_uniq in Hin.
  rewrite !elem_of_list_to_set, !elem_of_cons in Hin.
  destruct Hin as [->|[->|[->|Hin]]]; [done..|]. by apply elem_of_nil in Hin.
Qed.

Lemma count_alignment_inv cell umi gf st chs st' :
  count_alignment hash c cell umi gf st = Ok (chs, st') →
  ∃ fs, chs = determine_channels c fs (negb (bool_decide (hash (cell, umi) ∈ uniq st)))
        ∧ uniq st' = {[hash (cell, umi)]} ∪ uniq st.
Proof.
  intros H. destruct (items gf) as [[|f0 fs]|e] eqn:Hi.
  - unfold count_alignment, mbind, M_bind in H. simpl in H. rewrite Hi in H. done.
  - destruct (count_alignment_ok hash c cell umi gf (f0 :: fs) st Hi) as (st2 & Heq & Hu);
      [done|]. rewrite Heq in H. simplify_eq. eauto.
  - unfold count_alignment, mbind, M_bind in H. simpl in H. rewrite Hi in H. done.
Qed.

Lemma process_bam_bundle_inv cell umi bundle st gene chs st' :
  process_bam_bundle hash c cell umi bundle st = Ok ((gene, chs), st') →
  (truthy gene = false ∧ chs = ∅ ∧ uniq st' = uniq st)
  ∨ (truthy gene = true ∧
     ∃ fs, chs = determine_channels c fs (negb (bool_decide (hash (cell, umi) ∈ uniq st)))
           ∧ uniq st' = {[hash (cell, umi)]} ∪ uniq st).
Proof.
  rewrite process_bam_bundle_unfold. intros H.
  destruct (disambiguate c bundle st) as [[[g f] sta]|e] eqn:Hd; [|done].
  apply (proj2 (stats_only_disambiguate c bundle)) in Hd.
  destruct (truthy g) eqn:Hg.
  - destruct (count_alignment hash c cell umi f sta) as [[chs' stb]|e] eqn:Hc; [|done].
    simplify_eq. right. split; [done|].
    apply count_alignment_inv in Hc as (fs & Hchs & Hu). rewrite Hd in Hchs, Hu.
    by exists fs.
  - simplify_eq. by left.
Qed.

Lemma count_bundle_inv st cell umi bundle st' :
  count_bundle hash c reference_name st (cell, umi, bundle) = Ok st' →
  ∃ gene chs,
    process_bam_bundle hash c cell umi bundle (counter st) = Ok ((gene, chs), counter st')
    ∧ ∀ ch, channel_total (dge st') ch
            = channel_total (dge st) ch
              + (if decide (truthy gene = true ∧ ch ∈ chs) then 1 else 0).
Proof.
  unfold count_bundle. intros H.
  destruct (process_bam_bundle hash c cell umi bundle (counter st))
    as [[[gene chs] cst]|e] eqn:Hp; [|done].
  exists gene, chs. simpl in H.
  destruct gene as [g|l|]; simpl in H.
  - destruct (negb (g =? "")%string) eqn:Hg; simpl in H; injection H as <-; simpl.
    + split; [done|]. intros ch. rewrite channel_total_add_read.
      f_equal. apply decide_ext. naive_solver.
    + split; [done|]. intros ch. rewrite decide_False; [lia|].
      intros [Ht _]. congruence.
  - destruct (negb (bool_decide (l = []))); [case_decide|]; simpl in H; done.
  - injection H as <-. split; [done|]. intros ch.
    rewrite decide_False by (by intros [? _]). simpl. lia.
Qed.

(** Every channel total grows by the number of resolved bundles that
    produced the channel. *)
Lemma count_bundles_total bs st st' ch :
  count_bundles hash c reference_name st bs = Ok st' →
  channel_total (dge st') ch
  = channel_total (dge st) ch + produced ch (outputs hash c (counter st) bs).
Proof.
  revert st. induction bs as [|[[cell umi] bundle] bs IH]; intros st H.
  - injection H as <-. unfold produced. simpl. lia.
  - cbn [count_bundles] in H.
    destruct (count_bundle hash c reference_name st (cell, umi, bundle))
      as [st1|e] eqn:Hb; [|done]. simpl in H.
    apply count_bundle_inv in Hb as (gene & chs & Hp & Htot).
    cbn [outputs]. rewrite Hp. specialize (IH st1 H). rewrite IH, Htot.
    unfold produced. rewrite filter_cons. simpl.
    repeat case_decide; simpl; try lia; naive_solver.
Qed.

(** A [..._counts] total grows by at most the number of hash values of the
    processed pairs that were not yet in [uniq]. *)
Lemma count_bundles_counts bs st st' ch :
  ends_with "_counts" ch = true →
  count_bundles hash c reference_name st bs = Ok st' →
  channel_total (dge st') ch
  ≤ channel_total (dge st) ch
    + size ((list_to_set (hash <$> (fst <$> bs)) : gset Z) ∖ uniq (counter st)).
Proof.
  intros Hch. revert st. induction bs as [|[[cell umi] bundle] bs IH]; intros st H.
  - injection H as <-. lia.
  - cbn [count_bundles] in H.
    destruct (count_bundle hash c reference_name st (cell, umi, bundle))
      as [st1|e] eqn:Hb; [|done]. simpl in H. rewrite !fmap_cons. cbn [fst list_to_set].
    apply count_bundle_inv in Hb as (gene & chs & Hp & Htot).
    specialize (IH st1 H). rewrite Htot in IH.
    set (H' := list_to_set (hash <$> (fst <$> bs)) : gset Z) in *. clearbody H'.
    apply process_bam_bundle_inv in Hp as [(Hg & -> & Hu)|(Hg & fs & -> & Hu)].
    + rewrite decide_False in IH by (intros [? _]; congruence).
      etrans; [apply IH|]. rewrite Nat.add_0_r. apply Nat.add_le_mono_l.
      apply subseteq_size. rewrite Hu. set_solver.
    + case_decide as Hin.
      * destruct Hin as [_ Hin]. apply counts_channel_needs_uniq in Hin; [|done].
        apply negb_true_iff, bool_decide_eq_false in Hin.
        etrans; [apply IH|]. rewrite <-Nat.add_assoc. apply Nat.add_le_mono_l.
        rewrite Hu, size_difference_fresh by done. lia.
      * etrans; [apply IH|]. rewrite Nat.add_0_r. apply Nat.add_le_mono_l.
        apply subseteq_size. rewrite Hu. set_solver.
Qed.

End loop_facts.

Lemma size_list_to_set_fmap {A B} `{Countable A, Countable B} (f : A → B) (l : list A) :
  size (list_to_set (f <$> l) : gset B) ≤ size (list_to_set l : gset A).
Proof.
  induction l as [|a l IH]; [done|]. rewrite fmap_cons. cbn [list_to_set].
  destruct (decide (a ∈ l)) as [Hin|Hnin].
  - assert (({[a]} ∪ list_to_set l : gset A) = list_to_set l) as ->.
    { apply subseteq_union_1_L. apply singleton_subseteq_l. by apply elem_of_list_to_set. }
    assert (({[f a]} ∪ list_to_set (f <$> l) : gset B) = list_to_set (f <$> l)) as ->; [|done].
    apply subseteq_union_1_L, singleton_subseteq_l, elem_of_list_to_set, list_elem_of_fmap.
    eauto.
  - rewrite (size_union {[a]}) by (apply disjoint_singleton_l; by rewrite elem_of_list_to_set).
    rewrite size_union_alt, !size_singleton.
    etrans; [|apply Nat.add_le_mono_l, IH]. apply Nat.add_le_mono_l.
    apply subseteq_size, subseteq_difference_l. done.
Qed.

(** C6: along a run of the counting loop, every channel total, so also
    that of a reads channel, grows by at most the number of processed
    bundles that were resolved to a gene and whose channels include it, and
    the total of a [..._counts] channel grows by at most the number of
    distinct (cell, UMI) pairs of the processed bundles. *)
Theorem channel_totals_bounded (hash : string * string → Z) (c : DefaultCounter)
    (reference_name : string) (st st' : main_state)
    (bs : list (string * string * list alignment)) :
  count_bundles hash c reference_name st bs = Ok st' →
  (∀ ch, channel_total (dge st') ch
         ≤ channel_total (dge st) ch + produced ch (outputs hash c (counter st) bs))
  ∧ (∀ ch, ends_with "_counts" ch = true →
           channel_total (dge st') ch ≤ channel_total (dge st) ch + distinct_pairs bs).
Proof.
  intros Hrun. split.
  - intros ch. by rewrite (count_bundles_total hash c reference_name bs st st' ch Hrun).
  - intros ch Hch.
    etrans; [apply (count_bundles_counts hash c reference_name bs st st' ch Hch Hrun)|].
    apply Nat.add_le_mono_l. unfold distinct_pairs.
    etrans; [|apply (size_list_to_set_fmap hash)].
    apply subseteq_size, subseteq_difference_l. done.
Qed.

(** Scenario D: one (cell, UMI) pair in two bundles that resolve to GeneA
    with an exonic code. *)
Lemma channel_totals_bounded_witness :
  ∃ st',
    count_bundles length_hash default_counter "genome" fresh_main
      [("AAAA", "UMI1", [aln ["GeneA"] ["C"]]); ("AAAA", "UMI1", [aln ["GeneA"] ["C"]])]
    = Ok st'
    ∧ channel_total (dge st') "exonic_reads" = 2
    ∧ channel_total (dge st') "exonic_reads"
      ≤ channel_total (dge fresh_main) "exonic_reads"
        + produced "exonic_reads"
            (outputs length_hash default_counter (counter fresh_main)
               [("AAAA", "UMI1", [aln ["GeneA"] ["C"]]);
                ("AAAA", "UMI1", [aln ["GeneA"] ["C"]])])
    ∧ channel_total (dge st') "exonic_counts"
      ≤ channel_total (dge fresh_main) "exonic_counts"
        + distinct_pairs
            [("AAAA", "UMI1", [aln ["GeneA"] ["C"]]);
             ("AAAA", "UMI1", [aln ["GeneA"] ["C"]])].
Proof.
  assert (∃ st',
    count_bundles length_hash default_counter "genome" fresh_main
      [("AAAA", "UMI1", [aln ["GeneA"] ["C"]]); ("AAAA", "UMI1", [aln ["GeneA"] ["C"]])]
    = Ok st' ∧ channel_total (dge st') "exonic_reads" = 2) as (st' & Hrun & Htot)
    by (eexists; split; vm_compute; reflexivity).
  exists st'. split; [exact Hrun|]. split; [exact Htot|].
  destruct (channel_totals_bounded length_hash default_counter "genome" fresh_main st' _ Hrun)
    as [Hreads Hcounts].
  split; [apply Hreads | apply Hcounts; reflexivity].
Defined.

(** ** Runs that do not raise *)

Section no_exception.
Variable hash : string * string → Z.
Variable c : DefaultCounter.
Variable reference_name : string.

Lemma select_alignment_by_priority_ok prios bundle :
  (∀ a, a ∈ bundle → gf a ≠ []) →
  ∃ sel, select_alignment_by_priority prios bundle = Ok sel
         ∧ ∀ a, sel = Some a → a ∈ bundle.
Proof.
  intros Hgf. unfold select_alignment_by_priority.
  destruct (scan_spec prios bundle {| top_prio := 0; n_top := 0; kept := None |} Hgf)
    as (st' & -> & _ & _ & Hk). simpl in *.
  case_decide; [|by exists None]. exists (kept st'). split; [done|].
  intros a Ha. rewrite Ha in Hk.
  destruct (last (attaining prios (top_prio st') bundle)) as [b|] eqn:Hl; [|done].
  simplify_eq. apply last_Some_elem_of in Hl.
  by apply list_elem_of_filter in Hl as [_ ?].
Qed.

Lemma choose_alignment_ok bundle st :
  bundle ≠ [] → (∀ a, a ∈ bundle → gf a ≠ []) →
  ∃ sel st', choose_alignment c bundle st = Ok (sel, st')
             ∧ ∀ a, sel = Some a → a ∈ bundle.
Proof.
  intros Hne Hgf. unfold choose_alignment, mbind, M_bind. case_decide as Hlen.
  - destruct bundle as [|a [|b l]]; try done. simpl.
    eexists _, _. split; [done|]. intros ? [= <-]. left.
  - simpl. unfold call_select_alignment.
    destruct (select_alignment c).
    + destruct (select_alignment_by_priority_ok (alignment_priorities c) bundle Hgf)
        as (sel & -> & Hsel). simpl. by eexists _, _.
    + destruct bundle as [|a l]; [done|]. simpl.
      eexists _, _. split; [done|]. intros ? [= <-]. left.
Qed.

Lemma choose_gene_single a g f fs st :
  gn a = [g] → gf a = f :: fs →
  ∃ st', choose_gene c a st = Ok ((GStr g, FStr f), st').
Proof.
  intros Hg Hf. unfold choose_gene, mbind, M_bind. simpl.
  rewrite Hg, Hf. simpl. by eexists.
Qed.

Lemma process_bam_bundle_single_gene_ok cell umi bundle st :
  bundle ≠ [] →
  (∀ a, a ∈ bundle → ∃ g f fs, gn a = [g] ∧ gf a = f :: fs ∧ f ≠ "") →
  ∃ gene chs st',
    process_bam_bundle hash c cell umi bundle st = Ok ((gene, chs), st')
    ∧ (gene = GNone ∨ ∃ g, gene = GStr g).
Proof.
  intros Hne Haln. unfold process_bam_bundle, mbind, M_bind.
  destruct (choose_alignment_ok bundle st Hne) as (sel & sta & -> & Hsel).
  { intros a (g & f & fs & _ & -> & _)%Haln. done. }
  destruct sel as [a|]; [|eexists _, _, _; split; [done|by left]].
  destruct (Haln a (Hsel a eq_refl)) as (g & f & fs & Hg & Hf & Hf0).
  destruct (choose_gene_single a g f fs sta Hg Hf) as (stb & ->).
  destruct (truthy (GStr g)) eqn:Htrue.
  - destruct (count_alignment_ok hash c cell umi (FStr f) (chars f) stb) as (stc & -> & _).
    + done.
    + by destruct f.
    + eexists _, _, _. split; [done|]. right. by eexists.
  - eexists _, _, _. split; [done|]. right. by eexists.
Qed.

(** The counting loop completes when every bundle has an alignment and
    every alignment has one gene name and feature codes of which the first
    is not the empty string. *)
Theorem count_bundles_single_gene_ok (bs : list (string * string * list alignment))
    (st : main_state) :
  (∀ b, b ∈ bs →
     b.2 ≠ [] ∧
     ∀ a, a ∈ b.2 → ∃ g f fs, gn a = [g] ∧ gf a = f :: fs ∧ f ≠ "") →
  ∃ st', count_bundles hash c reference_name st bs = Ok st'.
Proof.
  revert st. induction bs as [|[[cell umi] bundle] bs IH]; intros st Hwf.
  - by eexists.
  - destruct (Hwf (cell, umi, bundle)) as [Hne Haln]; [left|]. simpl in Hne, Haln.
    cbn [count_bundles].
    assert (∃ st1, count_bundle hash c reference_name st (cell, umi, bundle) = Ok st1)
      as [st1 ->]; [|apply IH; intros b Hb; apply Hwf; by right].
    unfold count_bundle.
    destruct (process_bam_bundle_single_gene_ok cell umi bundle (counter st) Hne Haln)
      as (gene & chs & cst & -> & [-> | [g ->]]); simpl.
    + by eexists.
    + destruct (negb (g =? "")%string); by eexists.
Qed.

End no_exception.

(** Scenario D again: two single-gene bundles. *)
Lemma count_bundles_single_gene_ok_witness :
  ∃ st',
    count_bundles length_hash default_counter "genome" fresh_main
      [("AAAA", "UMI1", [aln ["GeneA"] ["C"]]); ("AAAA", "UMI1", [aln ["GeneA"] ["C"]])]
    = Ok st'.
Proof.
  apply count_bundles_single_gene_ok.
  intros b Hb.
  each_member Hb ltac:(split; [done|]; intros a ->%list_elem_of_singleton;
                       by exists "GeneA", "C", []).
Defined.

(** ** The statistics do not steer the counting *)

Section statistics.
Variable hash : string * string → Z.
Variable c : DefaultCounter.

(** An alignment with one gene name is credited to that name, with its
    first feature code, whatever the priorities and the gene strategy. *)
Theorem single_gene_name_selected (a : alignment) (g f : string) (fs : list string)
    (st : counter_state) :
  gn a = [g] → gf a = f :: fs →
  value (choose_gene c a st) = Ok (GStr g, FStr f).
Proof.
  intros Hg Hf. by destruct (choose_gene_single c a g f fs st Hg Hf) as [st' ->].
Qed.

Lemma count_alignment_uniq_only cell umi gf st1 st2 :
  uniq st1 = uniq st2 →
  match count_alignment hash c cell umi gf st1,
        count_alignment hash c cell umi gf st2 with
  | Ok (chs1, st1'), Ok (chs2, st2') => chs1 = chs2 ∧ uniq st1' = uniq st2'
  | Raise e1, Raise e2 => e1 = e2
  | _, _ => False
  end.
Proof.
  intros Hu. destruct (items gf) as [[|f0 fs]|e] eqn:Hi.
  - unfold count_alignment, mbind, M_bind. simpl. by rewrite Hi.
  - destruct (count_alignment_ok hash c cell umi gf (f0 :: fs) st1 Hi) as (s1 & -> & H1);
      [done|].
    destruct (count_alignment_ok hash c cell umi gf (f0 :: fs) st2 Hi) as (s2 & -> & H2);
      [done|].
    by rewrite H1, H2, Hu.
  - unfold count_alignment, mbind, M_bind. simpl. by rewrite Hi.
Qed.

(** Two counter states with the same [uniq] give the same gene and
    channels, or the same exception, and leave the same [uniq]: the
    statistics are written, never read. *)
Theorem statistics_do_not_affect_counting (cell umi : string) (bundle : list alignment)
    (st1 st2 : counter_state) :
  uniq st1 = uniq st2 →
  value (process_bam_bundle hash c cell umi bundle st1)
  = value (process_bam_bundle hash c cell umi bundle st2)
  ∧ ∀ r1 r2 st1' st2',
      process_bam_bundle hash c cell umi bundle st1 = Ok (r1, st1') →
      process_bam_bundle hash c cell umi bundle st2 = Ok (r2, st2') →
      uniq st1' = uniq st2'.
Proof.
  intros Hu. rewrite !process_bam_bundle_unfold.
  destruct (stats_only_disambiguate c bundle) as [Hval Huniq].
  specialize (Hval st1 st2).
  destruct (disambiguate c bundle st1) as [[[g1 f1] s1]|e1] eqn:H1,
           (disambiguate c bundle st2) as [[[g2 f2] s2]|e2] eqn:H2;
    simplify_eq/=; [|done].
  apply Huniq in H1, H2.
  destruct (truthy g2); [|split; [done|]; intros; simplify_eq; congruence].
  assert (uniq s1 = uniq s2) as Hs by congruence.
  pose proof (count_alignment_uniq_only cell umi f2 s1 s2 Hs) as Hc.
  destruct (count_alignment hash c cell umi f2 s1) as [[chs1 t1]|x1],
           (count_alignment hash c cell umi f2 s2) as [[chs2 t2]|x2]; simpl.
  - destruct Hc as [-> Ht]. split; [done|]. intros. by simplify_eq.
  - destruct Hc.
  - destruct Hc.
  - subst. by split.
Qed.

End statistics.

(** An alignment of GeneA with the codes C and I. *)
Lemma single_gene_name_selected_witness :
  value (choose_gene default_counter (aln ["GeneA"] ["C"; "I"]) fresh_counter)
  = Ok (GStr "GeneA", FStr "C").
Proof.
  apply (single_gene_name_selected default_counter (aln ["GeneA"] ["C"; "I"])
           "GeneA" "C" ["I"]); reflexivity.
Defined.

(** Scenario A from a counter without statistics and from one that has
    counted an event. *)
Lemma statistics_do_not_affect_counting_witness :
  value (process_bam_bundle length_hash default_counter "AAAA" "UMI1"
           [aln ["GeneA"] ["C"]] fresh_counter)
  = value (process_bam_bundle length_hash default_counter "AAAA" "UMI1"
             [aln ["GeneA"] ["C"]] {| stats := {["N_records" := 7]}; uniq := ∅ |}).
Proof.
  apply (statistics_do_not_affect_counting length_hash default_counter "AAAA" "UMI1"
           [aln ["GeneA"] ["C"]] fresh_counter
           {| stats := {["N_records" := 7]}; uniq := ∅ |}).
  reflexivity.
Defined.

(** ** Reading the count store *)

Section read_channel.
Implicit Types (d : gmap string nat) (by_channel : gmap string (list nat)).
Lemma touch_lookup d ch ch' : default 0 (touch d ch !! ch') = default 0 (d !! ch').
Proof.
  unfold touch. destruct (d !! ch) eqn:Hd; [done|].
  destruct (decide (ch = ch')) as [<-|Hne].
  - by rewrite lookup_insert_eq, Hd.
  - by rewrite lookup_insert_ne.
Qed.

Lemma foldl_touch_lookup chs d ch' :
  default 0 (foldl touch d chs !! ch') = default 0 (d !! ch').
Proof.
  revert d. induction chs as [|ch chs IH]; intros d; simpl; [done|].
  by rewrite IH, touch_lookup.
Qed.

Lemma touch_is_Some d ch ch' : is_Some (d !! ch') → is_Some (touch d ch !! ch').
Proof.
  unfold touch. destruct (d !! ch) eqn:Hd; [done|]. intros H.
  destruct (decide (ch = ch')) as [<-|Hne].
  - rewrite lookup_insert_eq. by eexists.
  - by rewrite lookup_insert_ne.
Qed.

Lemma touch_same d ch : is_Some (touch d ch !! ch).
Proof.
  unfold touch. destruct (d !! ch) eqn:Hd; [by rewrite Hd|].
  rewrite lookup_insert_eq. by eexists.
Qed.

Lemma foldl_touch_is_Some chs d ch :
  is_Some (d !! ch) ∨ ch ∈ chs → is_Some (foldl touch d chs !! ch).
Proof.
  revert d. induction chs as [|c chs IH]; intros d; simpl.
  - intros [H|H]; [done|]. by apply elem_of_nil in H.
  - intros [H|H]; apply IH.
    + left. by apply touch_is_Some.
    + apply elem_of_cons in H as [->|H]; [left; apply touch_same | by right].
Qed.

Lemma foldl_touch_id chs d :
  (∀ ch, ch ∈ chs → is_Some (d !! ch)) → foldl touch d chs = d.
Proof.
  induction chs as [|c chs IH]; intros H; simpl; [done|].
  assert (touch d c = d) as ->.
  { unfold touch. destruct (H c) as [x ->]; [left|done]. }
  apply IH. intros ch Hch. apply H. by right.
Qed.

Lemma foldl_touch_idem chs d :
  foldl touch (foldl touch d chs) chs = foldl touch d chs.
Proof.
  apply foldl_touch_id. intros ch Hch. apply foldl_touch_is_Some. by right.
Qed.

Lemma foldl_read_channel chs d d0 by_channel :
  (∀ ch, default 0 (d !! ch) = default 0 (d0 !! ch)) →
  foldl DGE.read_channel (d, by_channel) chs
  = (foldl touch d chs, foldl (append_count d0) by_channel chs).
Proof.
  revert d by_channel. induction chs as [|c chs IH]; intros d by_channel Hd; simpl; [done|].
  rewrite <-(IH (touch d c)).
  - unfold append_count. rewrite <-Hd. done.
  - intros ch. by rewrite touch_lookup.
Qed.

End read_channel.

(** ** Building the matrices twice *)

Lemma gather_again chs ind_of_cell ind_of_gene items st :
  DGE.gather chs ind_of_cell ind_of_gene
    (DGE.gather chs ind_of_cell ind_of_gene items st).1 st
  = DGE.gather chs ind_of_cell ind_of_gene items st.
Proof.
  revert st. induction items as [|[[gene cell] d] rest IH]; intros st; simpl; [done|].
  rewrite (foldl_read_channel chs d d) by done.
  destruct (ind_of_cell !! cell) as [i|] eqn:Hi, (ind_of_gene !! gene) as [j|] eqn:Hj;
    simpl.
  2-4: rewrite (foldl_read_channel chs _ d) by (intros ch; apply foldl_touch_lookup);
       rewrite foldl_touch_idem, Hi, ?Hj; done.
  match goal with |- context [DGE.gather _ _ _ rest ?s] => set (st1 := s) end.
  specialize (IH st1). destruct (DGE.gather chs ind_of_cell ind_of_gene rest st1)
    as [rest' r] eqn:Hg. simpl in *.
  rewrite (foldl_read_channel chs _ d) by (intros ch; apply foldl_touch_lookup).
  rewrite foldl_touch_idem, Hi, Hj. fold st1. by rewrite IH.
Qed.

(** C9: building the sparse arrays a second time, on the aggregator as the
    first build left it, gives the result of the first build: the same
    error, or the same matrices, cell list and gene list; and the second
    build leaves the aggregator as it found it. *)
Theorem make_sparse_arrays_twice (s : DGE.t) :
  (DGE.make_sparse_arrays (DGE.make_sparse_arrays s).1).2 = (DGE.make_sparse_arrays s).2
  ∧ (DGE.make_sparse_arrays (DGE.make_sparse_arrays s).1).1 = (DGE.make_sparse_arrays s).1.
Proof.
  unfold DGE.make_sparse_arrays.
  destruct (DGE.build_index (DGE.sorted (DGE.DGE_cells s))) as [ind_of_cell obs] eqn:Hc.
  destruct (DGE.build_index (DGE.sorted (DGE.DGE_genes s))) as [ind_of_gene var] eqn:Hv.
  pose proof (gather_again (DGE.channels s) ind_of_cell ind_of_gene (DGE.counts s)
    {| DGE.counts_by_channel := ∅; DGE.row_ind := []; DGE.col_ind := [] |}) as Hg.
  destruct (DGE.gather _ _ _ (DGE.counts s) _) as [counts' r] eqn:Hg1.
  simpl in *. rewrite Hc, Hv, Hg. done.
Qed.

(** ** Consistency of the aggregator *)

Lemma foldl_incr_keys chs key counts :
  chs ≠ [] →
  fst <$> foldl (DGE.incr key) counts chs
  = if decide (key ∈ fst <$> counts) then fst <$> counts else (fst <$> counts) ++ [key].
Proof.
  assert (∀ chs counts, key ∈ fst <$> counts →
            fst <$> foldl (DGE.incr key) counts chs = fst <$> counts) as Hin.
  { clear. intros chs. induction chs as [|c chs IH]; intros counts Hk; simpl; [done|].
    rewrite IH; unfold DGE.incr; rewrite alist_update_keys, decide_True; done. }
  destruct chs as [|c chs]; [done|]. intros _. simpl.
  case_decide as Hk.
  - rewrite Hin; unfold DGE.incr; rewrite alist_update_keys, decide_True; done.
  - rewrite Hin; unfold DGE.incr; rewrite alist_update_keys, decide_False by done;
      [done|]. apply elem_of_app. right. left.
Qed.

Lemma consistent_init channels fname lines : consistent (DGE.init channels fname lines).
Proof.
  split; simpl.
  - constructor.
  - by intros ?? ?%elem_of_nil.
  - intros ? ?%not_elem_of_empty. done.
  - intros ? ?%not_elem_of_empty. done.
Qed.

Lemma consistent_add_read s gene cell chs :
  consistent s → consistent (DGE.add_read s gene cell chs).
Proof.
  intros [Hnd Hobs Hcells Hgenes]. unfold DGE.add_read. case_decide as Hchs; [|done].
  set (cell' := if DGE.not_allowed s cell then "NA" else cell).
  assert (elements chs ≠ []) as Hel.
  { intros Hnil. apply Hchs. by apply elements_empty_inv, leibniz_equiv in Hnil. }
  assert (∀ k, k ∈ fst <$> foldl (DGE.incr (gene, cell')) (DGE.counts s) (elements chs)
               ↔ k = (gene, cell') ∨ k ∈ fst <$> DGE.counts s) as Hkeys.
  { intros k. rewrite foldl_incr_keys by done. case_decide.
    - naive_solver.
    - rewrite elem_of_app, list_elem_of_singleton. naive_solver. }
  split; simpl.
  - rewrite foldl_incr_keys by done. case_decide; [done|].
    apply NoDup_app. split; [done|]. split; [|apply NoDup_singleton].
    intros k Hk ->%list_elem_of_singleton. done.
  - intros g c' [[= -> ->]|Hin]%Hkeys; [set_solver|].
    apply Hobs in Hin. set_solver.
  - intros c' [->%elem_of_singleton|Hin]%elem_of_union.
    + exists gene. apply Hkeys. by left.
    + destruct (Hcells c' Hin) as [g Hg]. exists g. apply Hkeys. by right.
  - intros g [->%elem_of_singleton|Hin]%elem_of_union.
    + exists cell'. apply Hkeys. by left.
    + destruct (Hgenes g Hin) as [c' Hc]. exists c'. apply Hkeys. by right.
Qed.

Lemma reachable_consistent s : reachable s → consistent s.
Proof.
  induction 1; [apply consistent_init | by apply consistent_add_read].
Qed.

(** ** The index dictionaries *)

Lemma build_index_foldl l ind0 l0 :
  NoDup (l0 ++ l) →
  (∀ x i, ind0 !! x = Some i ↔ l0 !! i = Some x) →
  (foldl DGE.index_step (ind0, l0) l).2 = l0 ++ l
  ∧ ∀ x i, (foldl DGE.index_step (ind0, l0) l).1 !! x = Some i ↔ (l0 ++ l) !! i = Some x.
Proof.
  revert ind0 l0. induction l as [|y l IH]; intros ind0 l0 Hnd Hind; simpl.
  - by rewrite app_nil_r.
  - unfold DGE.index_step at 2 4. simpl.
    change (l0 ++ y :: l) with (l0 ++ [y] ++ l) in *.
    rewrite (assoc_L (++) l0 [y] l) in Hnd |- *. apply IH; [done|].
    apply NoDup_app in Hnd as [Hnd _]. apply NoDup_app in Hnd as (_ & Hy & _).
    intros x i. destruct (decide (x = y)) as [->|Hne].
    + rewrite lookup_insert_eq. split.
      * intros [= <-]. by rewrite list_lookup_middle.
      * intros Hi. f_equal. apply lookup_snoc_Some in Hi as [[Hlt Hi]|[Hi _]]; [|done].
        exfalso. apply (Hy y); [|left]. by eapply list_elem_of_lookup_2.
    + rewrite lookup_insert_ne by done. rewrite Hind, lookup_snoc_Some. split.
      * intros Hi. left. split; [by eapply lookup_lt_Some|done].
      * intros [[_ Hi]|[_ Heq]]; [done|]. by subst.
Qed.

Lemma build_index_spec l :
  NoDup l →
  (DGE.build_index l).2 = l
  ∧ ∀ x i, (DGE.build_index l).1 !! x = Some i ↔ l !! i = Some x.
Proof.
  intros Hnd. apply (build_index_foldl l ∅ []); [done|].
  intros x i. by rewrite lookup_empty.
Qed.

Lemma sorted_elem_of X x : x ∈ DGE.sorted X ↔ x ∈ X.
Proof. unfold DGE.sorted. by rewrite merge_sort_Permutation, elem_of_elements. Qed.

Lemma sorted_NoDup X : NoDup (DGE.sorted X).
Proof. unfold DGE.sorted. rewrite merge_sort_Permutation. apply NoDup_elements. Qed.

Lemma sorted_length X : length (DGE.sorted X) = size X.
Proof. unfold DGE.sorted. by rewrite merge_sort_Permutation. Qed.

Lemma sorted_Sorted X : StronglySorted String.le (DGE.sorted X).
Proof. apply StronglySorted_merge_sort; apply _. Qed.

(** ** The loop over the items of [counts] *)

Lemma append_count_lookup d by_channel c ch :
  append_count d by_channel c !! ch
  = if decide (ch = c)
    then Some (default [] (by_channel !! ch) ++ [default 0 (d !! ch)])
    else by_channel !! ch.
Proof.
  unfold append_count. case_decide as Hc.
  - subst. by rewrite lookup_insert_eq.
  - by rewrite lookup_insert_ne.
Qed.

Lemma foldl_append_count chs d by_channel ch :
  NoDup chs →
  foldl (append_count d) by_channel chs !! ch
  = if decide (ch ∈ chs)
    then Some (default [] (by_channel !! ch) ++ [default 0 (d !! ch)])
    else by_channel !! ch.
Proof.
  revert by_channel. induction chs as [|c chs IH]; intros by_channel Hnd.
  - by rewrite decide_False by (by intros ?%elem_of_nil).
  - apply NoDup_cons in Hnd as [Hc Hnd]. simpl. rewrite IH by done.
    rewrite append_count_lookup. destruct (decide (ch = c)) as [->|Hne].
    + rewrite decide_False by done. by rewrite decide_True by left.
    + apply decide_ext. rewrite elem_of_cons. naive_solver.
Qed.

Lemma gather_ok chs ind_of_cell ind_of_gene items st :
  NoDup chs →
  (∀ kv, kv ∈ items →
     is_Some (ind_of_cell !! kv.1.2) ∧ is_Some (ind_of_gene !! kv.1.1)) →
  ∃ st',
    (DGE.gather chs ind_of_cell ind_of_gene items st).2 = Ok st'
    ∧ DGE.row_ind st' = DGE.row_ind st ++ ((λ kv, index_of ind_of_cell kv.1.2) <$> items)
    ∧ DGE.col_ind st' = DGE.col_ind st ++ ((λ kv, index_of ind_of_gene kv.1.1) <$> items)
    ∧ ∀ ch, ch ∈ chs →
        default [] (DGE.counts_by_channel st' !! ch)
        = default [] (DGE.counts_by_channel st !! ch)
          ++ ((λ kv, default 0 (kv.2 !! ch)) <$> items).
Proof.
  intros Hnd. revert st. induction items as [|[[gene cell] d] items IH]; intros st Hidx.
  - exists st. simpl. rewrite !app_nil_r. repeat split; try done.
    intros ch _. by rewrite app_nil_r.
  - destruct (Hidx ((gene, cell), d)) as [[i Hi] [j Hj]]; [left|]. simpl in Hi, Hj.
    cbn [DGE.gather]. rewrite (foldl_read_channel _ d d) by done.
    rewrite Hi, Hj.
    match goal with |- context [DGE.gather _ _ _ items ?s] => set (st1 := s) end.
    destruct (IH st1) as (st' & Hg & Hr & Hc & Hd).
    { intros kv Hkv. apply Hidx. by right. }
    destruct (DGE.gather chs ind_of_cell ind_of_gene items st1) as [items' r].
    simpl in Hg. subst r. exists st'. split; [done|].
    rewrite Hr, Hc. subst st1. simpl. unfold index_of. rewrite Hi, Hj. simpl.
    rewrite <-!(assoc_L (++)). split; [done|]. split; [done|].
    intros ch Hch. rewrite (Hd ch Hch). simpl.
    rewrite foldl_append_count, decide_True by done. simpl.
    by rewrite <-(assoc_L (++)).
Qed.

(** ** The matrices *)

Lemma alist_update_fresh {K V} `{EqDecision K} (dflt : V) f (k : K) d :
  k ∉ fst <$> d → alist_update dflt f k d = d ++ [(k, f dflt)].
Proof.
  induction d as [|[k' v] d IH]; csimpl; [done|].
  rewrite elem_of_cons. intros Hk. rewrite decide_False by naive_solver.
  rewrite IH; [done|naive_solver].
Qed.

Lemma csr_from_coo_ok data row_ind col_ind :
  row_ind ≠ [] → length data = length row_ind → length col_ind = length row_ind →
  csr_from_coo data row_ind col_ind
  = Ok {| shape := (S (max_list row_ind), S (max_list col_ind));
          coo := zip (zip row_ind col_ind) data |}.
Proof.
  intros Hr Hd Hc. unfold csr_from_coo.
  destruct row_ind as [|r rows]; [done|]. destruct col_ind as [|c cols]; [done|].
  by rewrite decide_True by (by rewrite Hd, Hc).
Qed.

Lemma assemble_ok chs st acc :
  NoDup chs →
  (∀ ch, ch ∈ chs → ch ∉ fst <$> acc) →
  DGE.row_ind st ≠ [] →
  length (DGE.col_ind st) = length (DGE.row_ind st) →
  (∀ ch, ch ∈ chs →
     length (default [] (DGE.counts_by_channel st !! ch)) = length (DGE.row_ind st)) →
  DGE.assemble chs st acc = Ok (acc ++ ((λ ch, (ch, matrix_of st ch)) <$> chs)).
Proof.
  intros Hnd Hacc Hr Hc. revert acc Hacc Hnd.
  induction chs as [|ch chs IH]; intros acc Hacc Hnd Hlen; simpl.
  - by rewrite app_nil_r.
  - apply NoDup_cons in Hnd as [Hch Hnd].
    rewrite csr_from_coo_ok by (done || apply Hlen; left). simpl.
    rewrite alist_update_fresh by (apply Hacc; left).
    rewrite IH; [by rewrite <-(assoc_L (++))|..|done|].
    + intros c Hin. rewrite fmap_app, elem_of_app. csimpl.
      rewrite list_elem_of_singleton. intros [Hc'| ->]; [|done]. revert Hc'. apply Hacc. by right.
    + intros c Hin. apply Hlen. by right.
Qed.

Lemma zip_triples ind_of_cell ind_of_gene ch
    (items : list ((string * string) * gmap string nat)) :
  zip (zip ((λ kv, index_of ind_of_cell kv.1.2) <$> items)
           ((λ kv, index_of ind_of_gene kv.1.1) <$> items))
      ((λ kv, default 0 (kv.2 !! ch)) <$> items)
  = triple_of ind_of_cell ind_of_gene ch <$> items.
Proof. induction items as [|kv items IH]; csimpl; [done|]. by rewrite IH. Qed.

(** The entries that fall on one (row, column) add up to the count stored
    under the key with these indices. *)
Lemma sum_triples ind_of_cell ind_of_gene ch i j key
    (items : list ((string * string) * gmap string nat)) :
  NoDup (fst <$> items) →
  (∀ kv, kv ∈ items →
     (index_of ind_of_cell kv.1.2, index_of ind_of_gene kv.1.1) = (i, j) ↔ kv.1 = key) →
  sum_list (snd <$> filter (λ t, t.1 = (i, j))
                      (triple_of ind_of_cell ind_of_gene ch <$> items))
  = count_in items key ch.
Proof.
  induction items as [|[k d] items IH]; intros Hnd Hinj; [done|].
  apply NoDup_cons in Hnd as [Hk Hnd]. rewrite fmap_cons, filter_cons.
  pose proof (Hinj (k, d) (list_elem_of_here _ _)) as Hkd. simpl in Hkd.
  unfold count_in. cbn [alist_get].
  assert (∀ kv, kv ∈ items →
     (index_of ind_of_cell kv.1.2, index_of ind_of_gene kv.1.1) = (i, j) ↔ kv.1 = key)
    as Hinj' by (intros kv Hkv; apply Hinj; by right).
  specialize (IH Hnd Hinj').
  destruct (decide (key = k)) as [->|Hne].
  - rewrite decide_True by (by apply Hkd). csimpl.
    rewrite IH. unfold count_in. by rewrite alist_get_None.
  - rewrite decide_False by (simpl; intros ?%Hkd; congruence).
    rewrite IH. done.
Qed.

(** The largest index used is the last position of the sorted list. *)
Lemma max_index ind (sorted xs : list string) :
  (∀ x i, ind !! x = Some i ↔ sorted !! i = Some x) →
  xs ≠ [] →
  (∀ x, x ∈ xs ↔ x ∈ sorted) →
  S (max_list (index_of ind <$> xs)) = length sorted.
Proof.
  intros Hind Hne Hxs.
  assert (∀ x, x ∈ sorted → sorted !! index_of ind x = Some x) as Hidx.
  { intros x [i Hi]%list_elem_of_lookup. unfold index_of.
    by rewrite (proj2 (Hind x i) Hi). }
  assert (max_list (index_of ind <$> xs) < length sorted) as Hlt.
  { assert (index_of ind <$> xs ≠ []) as Hne' by (by destruct xs).
    apply max_list_elem_of, list_elem_of_fmap in Hne' as (x & -> & Hx).
    eapply lookup_lt_Some, Hidx, Hxs, Hx. }
  assert (length sorted - 1 ≤ max_list (index_of ind <$> xs)); [|lia].
  destruct (lookup_lt_is_Some_2 sorted (length sorted - 1)) as [x Hx]; [lia|].
  apply max_list_elem_of_le, list_elem_of_fmap. exists x. split.
  - unfold index_of. by rewrite (proj2 (Hind x _) Hx).
  - apply Hxs. by eapply list_elem_of_lookup_2.
Qed.

(** The matrices built from an aggregator that has counted at least one
    read (C5 away from the empty aggregator): the cell and gene lists are
    the sorted observed cells and genes, and every configured channel gets
    a matrix of shape (number of cells, number of genes) whose entry at
    row i, column j is the count stored for (gene j, cell i) in the
    channel. *)
Theorem make_sparse_arrays_correct (s : DGE.t) :
  reachable s → NoDup (DGE.channels s) → DGE.counts s ≠ [] →
  ∃ mats,
    (DGE.make_sparse_arrays s).2
    = Ok (mats, DGE.sorted (DGE.DGE_cells s), DGE.sorted (DGE.DGE_genes s))
    ∧ fst <$> mats = DGE.channels s
    ∧ ∀ ch m, (ch, m) ∈ mats →
        shape m = (size (DGE.DGE_cells s), size (DGE.DGE_genes s))
        ∧ ∀ i j cell gene,
            DGE.sorted (DGE.DGE_cells s) !! i = Some cell →
            DGE.sorted (DGE.DGE_genes s) !! j = Some gene →
            entry m i j = get_count s (gene, cell) ch.
Proof.
  intros [Hnd Hobs Hcells Hgenes]%reachable_consistent Hchs Hne.
  unfold DGE.make_sparse_arrays.
  destruct (build_index_spec _ (sorted_NoDup (DGE.DGE_cells s))) as [Hobs_eq Hic].
  destruct (build_index_spec _ (sorted_NoDup (DGE.DGE_genes s))) as [Hvar_eq Hig].
  destruct (DGE.build_index (DGE.sorted (DGE.DGE_cells s))) as [ind_of_cell obs].
  destruct (DGE.build_index (DGE.sorted (DGE.DGE_genes s))) as [ind_of_gene var].
  simpl in *. subst obs var.
  assert (∀ kv, kv ∈ DGE.counts s →
            kv.1.2 ∈ DGE.sorted (DGE.DGE_cells s) ∧ kv.1.1 ∈ DGE.sorted (DGE.DGE_genes s))
    as Hin.
  { intros [[g c] d] Hkv. rewrite !sorted_elem_of. apply Hobs.
    apply list_elem_of_fmap. by exists (g, c, d). }
  destruct (gather_ok (DGE.channels s) ind_of_cell ind_of_gene (DGE.counts s)
              {| DGE.counts_by_channel := ∅; DGE.row_ind := []; DGE.col_ind := [] |} Hchs)
    as (st' & Hg & Hr & Hc & Hd).
  { intros kv [[i Hi]%list_elem_of_lookup [j Hj]%list_elem_of_lookup]%Hin.
    apply Hic in Hi. apply Hig in Hj. by rewrite Hi, Hj. }
  destruct (DGE.gather _ _ _ (DGE.counts s) _) as [counts' r]. simpl in *. subst r.
  simpl. rewrite (assemble_ok _ st' []); first last.
  - intros ch Hch. rewrite (Hd ch Hch), lookup_empty, Hr. simpl.
    by rewrite !length_fmap.
  - by rewrite Hc, Hr, !length_fmap.
  - rewrite Hr. by destruct (DGE.counts s).
  - intros ch _ ?%elem_of_nil. done.
  - done.
  - simpl. eexists. split; [done|]. split.
    { rewrite <-list_fmap_compose. apply list_fmap_id. }
    intros ch m (ch' & [= <- ->] & Hch)%list_elem_of_fmap. split.
    + unfold matrix_of. simpl. rewrite Hr, Hc. simpl.
      replace ((λ kv, index_of ind_of_cell kv.1.2) <$> DGE.counts s)
        with (index_of ind_of_cell <$> ((λ kv, kv.1.2) <$> DGE.counts s))
        by (by rewrite <-list_fmap_compose).
      replace ((λ kv, index_of ind_of_gene kv.1.1) <$> DGE.counts s)
        with (index_of ind_of_gene <$> ((λ kv, kv.1.1) <$> DGE.counts s))
        by (by rewrite <-list_fmap_compose).
      rewrite (max_index ind_of_cell (DGE.sorted (DGE.DGE_cells s))),
              (max_index ind_of_gene (DGE.sorted (DGE.DGE_genes s))).
      * by rewrite !sorted_length.
      * done.
      * by destruct (DGE.counts s).
      * intros g. rewrite sorted_elem_of, list_elem_of_fmap. split.
        -- intros (kv & -> & Hkv). rewrite <-sorted_elem_of. by apply Hin.
        -- intros [c Hc']%Hgenes. apply list_elem_of_fmap in Hc' as ([[g' c'] d] & [= -> ->] & Hkv).
           by exists (g', c', d).
      * done.
      * by destruct (DGE.counts s).
      * intros c. rewrite sorted_elem_of, list_elem_of_fmap. split.
        -- intros (kv & -> & Hkv). rewrite <-sorted_elem_of. by apply Hin.
        -- intros [g Hg']%Hcells. apply list_elem_of_fmap in Hg' as ([[g' c'] d] & [= -> ->] & Hkv).
           by exists (g', c', d).
    + intros i j cell gene Hi Hj. unfold entry, matrix_of. simpl.
      rewrite Hr, Hc, (Hd ch Hch), lookup_empty. simpl.
      rewrite zip_triples. apply sum_triples; [done|].
      intros [[g c] d] Hkv. simpl.
      destruct (Hin _ Hkv) as [[i' Hi']%list_elem_of_lookup [j' Hj']%list_elem_of_lookup].
      simpl in *. unfold index_of.
      rewrite (proj2 (Hic c i') Hi'), (proj2 (Hig g j') Hj'). simpl. split.
      * intros [= -> ->]. congruence.
      * intros [= -> ->]. f_equal.
        -- eapply NoDup_lookup; [apply sorted_NoDup|done..].
        -- eapply NoDup_lookup; [apply sorted_NoDup|done..].
Qed.

(** The witness of [make_sparse_arrays_correct]: the aggregator after one
    exonic read of GeneA in cell AAAA. *)
Lemma make_sparse_arrays_correct_witness :
  ∃ mats,
    (DGE.make_sparse_arrays
       (DGE.add_read (DGE.init default_channels "" []) "GeneA" "AAAA"
          {["exonic_reads"]})).2
    = Ok (mats, ["AAAA"], ["GeneA"])
    ∧ fst <$> mats = default_channels.
Proof.
  destruct (make_sparse_arrays_correct
              (DGE.add_read (DGE.init default_channels "" []) "GeneA" "AAAA"
                 {["exonic_reads"]})) as (mats & Hm & Hch & _).
  - apply reachable_add_read, reachable_init.
  - simpl. apply (bool_decide_unpack (NoDup default_channels)). vm_compute. exact I.
  - vm_compute. discriminate.
  - exists mats. split; [|exact Hch]. rewrite Hm. vm_compute. reflexivity.
Defined.

(** C5, evaluated on the code: on a new aggregator, before any read is
    added, [make_sparse_arrays] does not return all-zero matrices of shape
    (0, 0): the index arrays are empty, no shape is passed to
    [csr_matrix], and the call raises [ValueError]. *)
Theorem make_sparse_arrays_empty_raises :
  (DGE.make_sparse_arrays (DGE.init default_channels "" [])).2 = Raise ValueError.
Proof. vm_compute. reflexivity. Qed.

(** ** The statistics of a counter *)

Lemma bumped_lookup names s k :
  default 0 (bumped names s !! k) = default 0 (s !! k) + occurrences k names.
Proof.
  unfold bumped, occurrences. revert s.
  induction names as [|n names IH]; intros s; [simpl; lia|].
  cbn [foldl]. rewrite IH, filter_cons. destruct (decide (n = k)) as [->|Hne].
  - rewrite lookup_insert_eq. simpl. lia.
  - rewrite lookup_insert_ne by done. lia.
Qed.

Lemma bumped_app n1 n2 s : bumped (n1 ++ n2) s = bumped n2 (bumped n1 s).
Proof. apply foldl_app. Qed.

Lemma occurrences_app k n1 n2 :
  occurrences k (n1 ++ n2) = occurrences k n1 + occurrences k n2.
Proof. unfold occurrences. by rewrite filter_app, length_app. Qed.

Lemma occurrences_cons k n names :
  occurrences k (n :: names) = (if decide (n = k) then 1 else 0) + occurrences k names.
Proof. unfold occurrences. rewrite filter_cons. by case_decide. Qed.

Lemma bump_all_stats names st st' :
  bump_all names st = Ok ((), st') →
  stats st' = bumped names (stats st) ∧ uniq st' = uniq st.
Proof.
  revert st. induction names as [|n names IH]; intros st H.
  - by injection H as <-.
  - apply IH in H as [-> ->]. done.
Qed.

(** An alignment kept by the scan comes from the bundle. *)
Lemma scan_kept prios bundle st st' a :
  scan prios st bundle = Ok st' → kept st' = Some a →
  kept st = Some a ∨ a ∈ bundle.
Proof.
  revert st. induction bundle as [|b bundle IH]; intros st H Hk.
  - injection H as <-. by left.
  - simpl in H. destruct (scan_step prios st b) as [st1|e] eqn:Hs; [|done].
    simpl in H. destruct (IH _ H Hk) as [Hk1|Hin]; [|right; by right].
    unfold scan_step in Hs. destruct (get_prio prios (gf b)) as [p|]; [|done].
    simpl in Hs. repeat case_decide; simplify_eq; simpl in *; simplify_eq;
      first [by left | right; by left].
Qed.

Lemma call_select_alignment_elem c bundle a :
  call_select_alignment c bundle = Ok (Some a) → a ∈ bundle.
Proof.
  unfold call_select_alignment. destruct (select_alignment c).
  - unfold select_alignment_by_priority.
    destruct (scan _ _ bundle) as [st|e] eqn:Hs; [|done]. simpl.
    case_decide; [|done]. intros [= Hk].
    by destruct (scan_kept _ _ _ _ _ Hs Hk).
  - destruct bundle as [|b bundle]; [done|]. intros [= <-]. left.
Qed.

Lemma M_bind_inv {A B} (m : M A) (k : A → M B) st b st' :
  (m ≫= k) st = Ok (b, st') → ∃ a st1, m st = Ok (a, st1) ∧ k a st1 = Ok (b, st').
Proof.
  unfold mbind, M_bind. destruct (m st) as [[a st1]|e]; [|done]. eauto.
Qed.

Section events.
Variable hash : string * string → Z.
Variable c : DefaultCounter.

Lemma choose_alignment_stats bundle st sel st' :
  choose_alignment c bundle st = Ok (sel, st') →
  stats st' = bumped (aln_names bundle sel) (stats st)
  ∧ uniq st' = uniq st
  ∧ match sel with
    | Some a => a ∈ bundle
    | None => length bundle ≠ 1
    end.
Proof.
  unfold choose_alignment, aln_names. case_decide as Hlen.
  - destruct bundle as [|a [|]]; try done. intros [= <- <-].
    split; [done|]. split; [done|]. left.
  - unfold mbind, M_bind, bump, lift. simpl.
    destruct (call_select_alignment c bundle) as [s|e] eqn:Hs; [|done].
    intros [= <- <-]. split; [done|]. split; [done|].
    destruct s as [a|]; [|done]. by apply call_select_alignment_elem in Hs.
Qed.

Lemma choose_gene_stats a st gene gfv st' :
  choose_gene c a st = Ok ((gene, gfv), st') →
  stats st' = bumped (gene_names a gene) (stats st) ∧ uniq st' = uniq st.
Proof.
  unfold choose_gene, gene_names. unfold mbind, M_bind, bump, lift. simpl.
  case_decide as Hlen.
  - destruct (index0 (gn a)) as [g|]; [|done]. simpl.
    destruct (index0 (gf a)) as [f|]; [|done]. simpl.
    by intros [= <- <- <-].
  - destruct (call_select_gene c a) as [g f]. simpl. by intros [= <- <- <-].
Qed.

Lemma count_alignment_stats cell umi gf st chs st' :
  count_alignment hash c cell umi gf st = Ok (chs, st') →
  ∃ f0, stats st' = bumped (count_names f0 chs) (stats st).
Proof.
  unfold count_alignment. intros H.
  apply M_bind_inv in H as ([] & s1 & [= <-] & H).
  apply M_bind_inv in H as (fs & s2 & H2 & H).
  unfold lift in H2. destruct (items gf); [|done]. injection H2 as -> <-.
  apply M_bind_inv in H as (f0 & s3 & H3 & H).
  unfold lift in H3. destruct (index0 fs); [|done]. injection H3 as -> <-.
  apply M_bind_inv in H as ([] & s4 & [= <-] & H).
  apply M_bind_inv in H as (u & s5 & H5 & H).
  unfold observe in H5. injection H5 as <- <-.
  set (u := negb _) in *. set (chs' := determine_channels c fs u) in *.
  apply M_bind_inv in H as ([] & s6 & [H6 _]%bump_all_stats & H).
  apply M_bind_inv in H as ([] & s7 & H7 & [= <- <-]).
  exists f0. unfold count_names. rewrite (bumped_app [_; _]), bumped_app.
  assert (stats s7 = bumped (if decide (chs' = ∅) then ["N_channel_NONE"] else [])
                       (stats s6)) as ->
    by (destruct (decide (chs' = ∅)); by injection H7 as <-).
  rewrite H6. by destruct u.
Qed.

(** The statistics after one bundle: the names of [events] are
    incremented, in order. *)
Lemma process_bam_bundle_events cell umi bundle st gene chs st' :
  process_bam_bundle hash c cell umi bundle st = Ok ((gene, chs), st') →
  ∃ names, events bundle gene chs names ∧ stats st' = bumped names (stats st).
Proof.
  unfold process_bam_bundle. unfold mbind at 1, M_bind.
  destruct (choose_alignment c bundle st) as [[sel st1]|e] eqn:H1; [|done].
  apply choose_alignment_stats in H1 as (H1 & _ & Hin). destruct sel as [a|].
  - unfold mbind at 1, M_bind.
    destruct (choose_gene c a st1) as [[[g f] st2]|e] eqn:H2; [|done].
    apply choose_gene_stats in H2 as [H2 _]. destruct (truthy g) eqn:Hg.
    + unfold mbind, M_bind.
      destruct (count_alignment hash c cell umi f st2) as [[chs' st3]|e] eqn:H3; [|done].
      apply count_alignment_stats in H3 as [f0 H3]. intros [= <- <- <-].
      eexists. split; [by apply (events_counted _ a g f0)|].
      by rewrite !bumped_app, <-H1, <-H2.
    + intros [= <- <- <-]. eexists. split; [by apply (events_not_counted _ a)|].
      by rewrite bumped_app, <-H1, <-H2.
  - intros [= <- <- <-]. eexists. split; [by apply events_not_selected|done].
Qed.

Lemma stat_events cell umi bundle st gene chs st' :
  process_bam_bundle hash c cell umi bundle st = Ok ((gene, chs), st') →
  ∃ names, events bundle gene chs names
           ∧ ∀ k, stat st' k = stat st k + occurrences k names.
Proof.
  intros (names & Hev & Hst)%process_bam_bundle_events. exists names.
  split; [done|]. intros k. unfold stat. rewrite Hst. apply bumped_lookup.
Qed.

End events.

(** A name that is not a channel statistic does not occur among the
    channel statistics. *)
Lemma occurrences_channel_other k (l : list string) :
  (∀ ch, "N_channel_" +:+ ch ≠ k) →
  occurrences k ((λ ch, "N_channel_" +:+ ch) <$> l) = 0.
Proof.
  intros Hk. induction l as [|x l IH]; [done|].
  rewrite fmap_cons, occurrences_cons, IH, decide_False; [done|apply Hk].
Qed.

Lemma occurrences_channel ch (X : gset string) :
  occurrences ("N_channel_" +:+ ch) ((λ ch, "N_channel_" +:+ ch) <$> elements X)
  = if decide (ch ∈ X) then 1 else 0.
Proof.
  assert (∀ l, NoDup l →
            occurrences ("N_channel_" +:+ ch) ((λ ch, "N_channel_" +:+ ch) <$> l)
            = if decide (ch ∈ l) then 1 else 0) as Hl.
  { induction l as [|x l IH]; intros Hnd; [done|].
    apply NoDup_cons in Hnd as [Hx Hnd].
    rewrite fmap_cons, occurrences_cons, IH by done.
    destruct (decide (x = ch)) as [->|Hne].
    - rewrite decide_True by done. rewrite decide_False by done.
      rewrite decide_True by left. done.
    - rewrite decide_False by (intros [= ?]; done).
      apply decide_ext. rewrite elem_of_cons. naive_solver. }
  rewrite Hl by apply NoDup_elements. apply decide_ext, elem_of_elements.
Qed.

(** The occurrences of a name in a list of names that is closed once the
    case analysis is done. *)
Ltac eval_occurrences :=
  repeat match goal with
  | |- context [occurrences ?k ?l] =>
    let v := eval vm_compute in (occurrences k l) in
    change (occurrences k l) with v
  end.

Ltac not_a_channel := by intros ? [=].

Section statistics_sums.
Variable hash : string * string → Z.
Variable c : DefaultCounter.
Variable reference_name : string.

Lemma events_balanced bundle gene chs names :
  events bundle gene chs names →
  (∀ a, a ∈ bundle → strand a = "+" ∨ strand a = "-") →
  occurrences "N_aln_multi" names
  = occurrences "N_aln_selected" names + occurrences "N_aln_selection_failed" names
  ∧ occurrences "N_aln_countable" names
    = occurrences "N_aln_unique" names + occurrences "N_aln_selected" names
  ∧ occurrences "N_aln_countable" names
    = occurrences "N_aln_+" names + occurrences "N_aln_-" names
  ∧ occurrences "N_aln_countable" names
    = occurrences "N_gene_unique" names + occurrences "N_gene_multi" names
  ∧ occurrences "N_gene_multi" names
    = occurrences "N_gene_selected" names + occurrences "N_gene_selection_failed" names
  ∧ occurrences "N_aln_counted" names
    = occurrences "N_aln_sense" names + occurrences "N_aln_antisense" names
  ∧ occurrences "N_aln_counted" names
    ≤ occurrences "N_gene_unique" names + occurrences "N_gene_selected" names.
Proof.
  intros Hev Hs. destruct Hev as [Hlen|a gene Ha Hg|a gene f0 chs Ha Hg].
  - unfold aln_names. rewrite decide_False by done. eval_occurrences. lia.
  - rewrite !occurrences_app. unfold aln_names, gene_names. rewrite Hg.
    destruct (Hs a Ha) as [-> | ->]; repeat case_decide; eval_occurrences; lia.
  - rewrite !occurrences_app. unfold aln_names, gene_names, count_names.
    rewrite !occurrences_app, Hg.
    rewrite !occurrences_channel_other by not_a_channel.
    destruct (Hs a Ha) as [-> | ->]; destruct (islower f0);
      repeat case_decide; eval_occurrences; lia.
Qed.

Lemma process_bam_bundle_balanced cell umi bundle st gene chs st' :
  balanced st →
  (∀ a, a ∈ bundle → strand a = "+" ∨ strand a = "-") →
  process_bam_bundle hash c cell umi bundle st = Ok ((gene, chs), st') →
  balanced st'.
Proof.
  intros [B1 B2 B3 B4 B5 B6 B7] Hs (names & Hev & Hk)%stat_events.
  destruct (events_balanced _ _ _ _ Hev Hs) as (E1 & E2 & E3 & E4 & E5 & E6 & E7).
  split; rewrite !Hk; lia.
Qed.

Lemma aln_names_channel bundle sel ch :
  occurrences ("N_channel_" +:+ ch) (aln_names bundle sel) = 0.
Proof.
  unfold aln_names, occurrences.
  case_decide; destruct sel; by rewrite !filter_cons_False by (by intros [=]).
Qed.

Lemma gene_names_channel a gene ch :
  occurrences ("N_channel_" +:+ ch) (gene_names a gene) = 0.
Proof.
  unfold gene_names, occurrences. cbn [app].
  case_decide; destruct (truthy gene);
    by rewrite !filter_cons_False by (by intros [=]).
Qed.

Lemma count_names_channel f0 chs ch :
  ch ≠ "NONE" →
  occurrences ("N_channel_" +:+ ch) (count_names f0 chs)
  = if decide (ch ∈ chs) then 1 else 0.
Proof.
  intros Hch. unfold count_names. rewrite !occurrences_app, occurrences_channel.
  assert (occurrences ("N_channel_" +:+ ch)
            (if decide (chs = ∅) then ["N_channel_NONE"] else []) = 0) as ->.
  { case_decide; [|done]. unfold occurrences.
    rewrite filter_cons_False; [done|]. intros [= Heq]. by apply Hch. }
  assert (occurrences ("N_channel_" +:+ ch)
            ["N_aln_counted"; if islower f0 then "N_aln_antisense" else "N_aln_sense"]
          = 0) as ->; [|lia].
  unfold occurrences. destruct (islower f0);
    by rewrite !filter_cons_False by (by intros [=]).
Qed.

Lemma events_channel bundle gene chs names ch :
  events bundle gene chs names → ch ≠ "NONE" →
  occurrences ("N_channel_" +:+ ch) names
  = if decide (truthy gene = true ∧ ch ∈ chs) then 1 else 0.
Proof.
  intros Hev Hch. destruct Hev as [Hlen|a gene Ha Hg|a gene f0 chs Ha Hg];
    rewrite ?occurrences_app, ?aln_names_channel, ?gene_names_channel.
  - by rewrite decide_False by (by intros [? _]).
  - by rewrite decide_False by (intros [? _]; congruence).
  - rewrite count_names_channel by done. apply decide_ext. naive_solver.
Qed.

End statistics_sums.

(** ** The counting loop, bundle by bundle *)

Section loop_invariants.
Variable hash : string * string → Z.
Variable c : DefaultCounter.
Variable reference_name : string.

(** What one iteration of the loop does to the three parts of the state. *)
Lemma count_bundle_step st cell umi bundle st' :
  count_bundle hash c reference_name st (cell, umi, bundle) = Ok st' →
  ∃ gene chs,
    process_bam_bundle hash c cell umi bundle (counter st) = Ok ((gene, chs), counter st')
    ∧ gene_source st' = <[source_key gene := reference_name]> (gene_source st)
    ∧ dge st' = match gene with
                | GStr g => if truthy gene then DGE.add_read (dge st) g cell chs
                            else dge st
                | _ => dge st
                end.
Proof.
  unfold count_bundle. intros H.
  destruct (process_bam_bundle hash c cell umi bundle (counter st))
    as [[[gene chs] cst]|e] eqn:Hp; [|done].
  exists gene, chs. simpl in H. destruct gene as [g|l|]; simpl in H.
  - destruct (negb (g =? "")%string) eqn:Hg; simpl in H; injection H as <-; simpl;
      by rewrite ?Hg.
  - destruct (negb (bool_decide (l = []))); [case_decide|]; simpl in H; done.
  - by injection H as <-.
Qed.

Lemma count_bundles_ind (P : main_state → Prop) bs st st' :
  (∀ st cell umi bundle st',
     (cell, umi, bundle) ∈ bs →
     P st → count_bundle hash c reference_name st (cell, umi, bundle) = Ok st' → P st') →
  P st → count_bundles hash c reference_name st bs = Ok st' → P st'.
Proof.
  revert st. induction bs as [|[[cell umi] bundle] bs IH]; intros st Hstep HP H.
  - by injection H as <-.
  - cbn [count_bundles] in H.
    destruct (count_bundle hash c reference_name st (cell, umi, bundle))
      as [st1|e] eqn:Hb; [|done].
    apply (IH st1); [|by eapply Hstep; [left|..]|done].
    intros ????? Hin. apply Hstep. by right.
Qed.

(** The sums of the statistics table hold after every bundle, for records
    on the two strands. *)
Theorem statistics_add_up (bs : list (string * string * list alignment))
    (st st' : main_state) :
  balanced (counter st) →
  (∀ b a, b ∈ bs → a ∈ b.2 → strand a = "+" ∨ strand a = "-") →
  count_bundles hash c reference_name st bs = Ok st' →
  balanced (counter st').
Proof.
  intros Hb Hs. apply (count_bundles_ind (λ st, balanced (counter st))); [|done].
  intros st0 cell umi bundle st1 Hin HP (gene & chs & Hp & _)%count_bundle_step.
  eapply process_bam_bundle_balanced; [done| |done].
  intros a Ha. by apply (Hs (cell, umi, bundle)).
Qed.

(** The statistic [N_channel_<ch>] and the total of channel [ch] in the
    count store grow by the same amount. *)
Theorem channel_statistic_is_channel_total (bs : list (string * string * list alignment))
    (st st' : main_state) (ch : string) :
  ch ≠ "NONE" →
  count_bundles hash c reference_name st bs = Ok st' →
  stat (counter st') ("N_channel_" +:+ ch) + channel_total (dge st) ch
  = stat (counter st) ("N_channel_" +:+ ch) + channel_total (dge st') ch.
Proof.
  intros Hch.
  apply (count_bundles_ind
           (λ s, stat (counter s) ("N_channel_" +:+ ch) + channel_total (dge st) ch
                 = stat (counter st) ("N_channel_" +:+ ch) + channel_total (dge s) ch));
    [|done].
  intros st0 cell umi bundle st1 _ HP Hb.
  apply count_bundle_inv in Hb as (gene & chs & Hp & Htot).
  apply stat_events in Hp as (names & Hev & Hk).
  rewrite Hk, Htot, (events_channel _ _ _ _ _ Hev Hch). lia.
Qed.

(** Every gene of the count store has an entry in [gene_source], so the
    reference column of the output is built without [KeyError]; a gene
    first met in this loop has the reference of the loop. *)
Theorem reference_column_defined (bs : list (string * string * list alignment))
    (st st' : main_state) :
  (∀ g, g ∈ DGE.DGE_genes (dge st) → is_Some (gene_source st !! Some g)) →
  count_bundles hash c reference_name st bs = Ok st' →
  (∃ refs, reference_column (gene_source st') (DGE.sorted (DGE.DGE_genes (dge st')))
           = Ok refs
           ∧ length refs = size (DGE.DGE_genes (dge st')))
  ∧ ∀ g, g ∈ DGE.DGE_genes (dge st') → g ∉ DGE.DGE_genes (dge st) →
         gene_source st' !! Some g = Some reference_name.
Proof.
  intros Hinit Hrun.
  assert ((∀ g, g ∈ DGE.DGE_genes (dge st') → is_Some (gene_source st' !! Some g))
          ∧ ∀ g, g ∈ DGE.DGE_genes (dge st') → g ∉ DGE.DGE_genes (dge st) →
                 gene_source st' !! Some g = Some reference_name) as [Hall Hnew].
  { revert Hrun.
    apply (count_bundles_ind
             (λ s, (∀ g, g ∈ DGE.DGE_genes (dge s) → is_Some (gene_source s !! Some g))
                   ∧ ∀ g, g ∈ DGE.DGE_genes (dge s) → g ∉ DGE.DGE_genes (dge st) →
                          gene_source s !! Some g = Some reference_name)); [|done].
    intros st0 cell umi bundle st1 _ [H1 H2] (gene & chs & _ & -> & ->)%count_bundle_step.
    assert (∀ g, g ∈ DGE.DGE_genes
                       (match gene with
                        | GStr g => if truthy gene then DGE.add_read (dge st0) g cell chs
                                    else dge st0
                        | _ => dge st0
                        end) →
                 Some g = source_key gene ∨ g ∈ DGE.DGE_genes (dge st0)) as Hg.
    { intros g. destruct gene as [g0| |]; simpl; auto.
      destruct (negb _); auto. unfold DGE.add_read. case_decide; simpl; auto.
      rewrite elem_of_union, elem_of_singleton. intros [->|?]; auto. }
    split.
    - intros g [<-|Hin]%Hg; [by rewrite lookup_insert_eq|].
      destruct (decide (source_key gene = Some g)) as [->|Hne].
      + by rewrite lookup_insert_eq.
      + rewrite lookup_insert_ne by done. by apply H1.
    - intros g [<-|Hin]%Hg Hnot; [by rewrite lookup_insert_eq|].
      destruct (decide (source_key gene = Some g)) as [->|Hne].
      + by rewrite lookup_insert_eq.
      + rewrite lookup_insert_ne by done. by apply H2. }
  split; [|done].
  rewrite <-sorted_length.
  assert (∀ g, g ∈ DGE.sorted (DGE.DGE_genes (dge st')) →
               is_Some (gene_source st' !! Some g)) as Hvar
    by (intros g ?%sorted_elem_of; by apply Hall).
  induction (DGE.sorted (DGE.DGE_genes (dge st'))) as [|g var IH]; [by exists []|].
  destruct (Hvar g) as [r Hr]; [left|]. destruct IH as (refs & Hrefs & Hlen).
  { intros ??. apply Hvar. by right. }
  exists (r :: refs). cbn [reference_column]. rewrite Hr, Hrefs. simpl. by rewrite Hlen.
Qed.

(** *** Relations between the channels *)

Lemma channel_fold_classes u fs st :
  (("exonic_counts" ∈ chans st → "exonic_reads" ∈ chans st)
   ∧ ("intronic_counts" ∈ chans st → "intronic_reads" ∈ chans st)
   ∧ ("exonic_reads" ∈ chans st → exon st = true)
   ∧ ("intronic_reads" ∈ chans st → intron st = true)) →
  let st' := foldl (channel_step c u) st fs in
  ("exonic_counts" ∈ chans st' → "exonic_reads" ∈ chans st')
  ∧ ("intronic_counts" ∈ chans st' → "intronic_reads" ∈ chans st')
  ∧ ("exonic_reads" ∈ chans st' → exon st' = true)
  ∧ ("intronic_reads" ∈ chans st' → intron st' = true).
Proof.
  revert st. induction fs as [|f fs IH]; intros st Hst; [done|].
  simpl. apply IH. unfold channel_step.
  repeat case_decide; destruct u; simpl; set_solver.
Qed.

Lemma post_policy_classes u fs :
  let P := post_policy_channels c fs u in
  ("exonic_counts" ∈ P → "exonic_reads" ∈ P)
  ∧ ("intronic_counts" ∈ P → "intronic_reads" ∈ P)
  ∧ (exon_intron_disambiguation_func c ≠ count_both →
     ¬ ("exonic_counts" ∈ P ∧ "intronic_counts" ∈ P)).
Proof.
  unfold post_policy_channels.
  pose proof (channel_fold_classes u fs {| chans := ∅; exon := false; intron := false |})
    as H.
  simpl in H. destruct H as (H1 & H2 & H3 & H4); [set_solver|].
  set (st := foldl _ _ _) in *.
  destruct (exon st) eqn:He, (intron st) eqn:Hi; simpl;
    try (split; [done|split; [done|]]; intros _ [??]; naive_solver).
  destruct (exon_intron_disambiguation_func c); simpl; set_solver.
Qed.

Lemma determine_channels_classes u fs :
  let D := determine_channels c fs u in
  ("exonic_counts" ∈ D → "exonic_reads" ∈ D)
  ∧ ("intronic_counts" ∈ D → "intronic_reads" ∈ D)
  ∧ (exon_intron_disambiguation_func c ≠ count_both →
     count_X_channels c = {["exonic_counts"; "intronic_counts"]} →
     ¬ ("exonic_counts" ∈ D ∧ "intronic_counts" ∈ D)
     ∧ ("counts" ∈ D ↔ "exonic_counts" ∈ D ∨ "intronic_counts" ∈ D)).
Proof.
  pose proof (post_policy_classes u fs) as (H1 & H2 & H3).
  pose proof (counts_not_in_post_policy c u fs) as Hno.
  unfold determine_channels. simpl in *.
  set (P := post_policy_channels c fs u) in *.
  split; [case_decide; set_solver|]. split; [case_decide; set_solver|].
  intros Hpol HX. specialize (H3 Hpol). rewrite HX. case_decide as Hcap.
  - split; [set_solver|]. split; [|set_solver]. intros _.
    apply set_choose_L in Hcap as [x Hx]. set_solver.
  - split; [set_solver|]. set_solver.
Qed.

(** The store after one bundle: unchanged, or one [add_read] with the
    channels [determine_channels] gave. *)
Lemma count_bundle_add_read st cell umi bundle st' :
  count_bundle hash c reference_name st (cell, umi, bundle) = Ok st' →
  dge st' = dge st
  ∨ ∃ g fs u, dge st' = DGE.add_read (dge st) g cell (determine_channels c fs u).
Proof.
  intros (gene & chs & Hp & _ & Hd)%count_bundle_step.
  destruct gene as [g| |]; auto. destruct (truthy (GStr g)) eqn:Hg; auto.
  apply process_bam_bundle_inv in Hp as [(Hg' & _)|(_ & fs & -> & _)]; [congruence|].
  right. eauto.
Qed.

(** For every (gene, cell) key the molecule count of a class is at most
    its read count. *)
Theorem molecule_counts_within_read_counts
    (bs : list (string * string * list alignment)) (st st' : main_state) :
  counts_within_reads (dge st) →
  count_bundles hash c reference_name st bs = Ok st' →
  counts_within_reads (dge st').
Proof.
  intros Hst. apply (count_bundles_ind (λ s, counts_within_reads (dge s))); [|done].
  intros st0 cell umi bundle st1 _ HP [->|(g & fs & u & ->)]%count_bundle_add_read;
    [done|].
  destruct (determine_channels_classes u fs) as (He & Hi & _).
  intros key. destruct (HP key) as [H1 H2]. rewrite !get_count_add_read.
  split; repeat case_decide; naive_solver lia.
Qed.

(** When the main channel is fed by the two molecule channels and the
    policy is not count_both, the main channel of every (gene, cell) key is
    the sum of its exonic and intronic molecule counts. *)
Theorem main_channel_is_sum_of_molecule_counts
    (bs : list (string * string * list alignment)) (st st' : main_state) :
  exon_intron_disambiguation_func c ≠ count_both →
  count_X_channels c = {["exonic_counts"; "intronic_counts"]} →
  main_is_sum (dge st) →
  count_bundles hash c reference_name st bs = Ok st' →
  main_is_sum (dge st').
Proof.
  intros Hpol HX Hst. apply (count_bundles_ind (λ s, main_is_sum (dge s))); [|done].
  intros st0 cell umi bundle st1 _ HP [->|(g & fs & u & ->)]%count_bundle_add_read;
    [done|].
  destruct (determine_channels_classes u fs) as (_ & _ & HD).
  destruct (HD Hpol HX) as [Hnot Hmain].
  intros key. specialize (HP key). rewrite !get_count_add_read.
  repeat case_decide; naive_solver lia.
Qed.

End loop_invariants.

(** The sums hold in the statistics left by [two_reads]. *)
Lemma statistics_add_up_witness :
  ∃ st',
    count_bundles length_hash default_counter "genome" fresh_main two_reads = Ok st'
    ∧ balanced (counter st').
Proof.
  assert (∀ b a, b ∈ two_reads → a ∈ b.2 → strand a = "+" ∨ strand a = "-") as Hs.
  { intros b a Hb Ha.
    each_member Hb ltac:(apply list_elem_of_singleton in Ha as ->; by left). }
  assert (balanced (counter fresh_main)) as Hb by (by split).
  assert (∃ st',
    count_bundles length_hash default_counter "genome" fresh_main two_reads = Ok st')
    as [st' Hrun] by (eexists; vm_compute; reflexivity).
  exists st'. split; [exact Hrun|].
  exact (statistics_add_up length_hash default_counter "genome" two_reads
           fresh_main st' Hb Hs Hrun).
Defined.

Lemma channel_statistic_is_channel_total_witness :
  ∃ st',
    count_bundles length_hash default_counter "genome" fresh_main two_reads = Ok st'
    ∧ stat (counter st') "N_channel_exonic_reads" + 0
      = 0 + channel_total (dge st') "exonic_reads".
Proof.
  assert ("exonic_reads" ≠ "NONE") as Hch by (by intros [=]).
  assert (∃ st',
    count_bundles length_hash default_counter "genome" fresh_main two_reads = Ok st')
    as [st' Hrun] by (eexists; vm_compute; reflexivity).
  exists st'. split; [exact Hrun|].
  exact (channel_statistic_is_channel_total length_hash default_counter "genome"
           two_reads fresh_main st' "exonic_reads" Hch Hrun).
Defined.

Lemma reference_column_defined_witness :
  ∃ st' refs,
    count_bundles length_hash default_counter "genome" fresh_main two_reads = Ok st'
    ∧ reference_column (gene_source st') (DGE.sorted (DGE.DGE_genes (dge st'))) = Ok refs
    ∧ length refs = size (DGE.DGE_genes (dge st')).
Proof.
  assert (∀ g, g ∈ DGE.DGE_genes (dge fresh_main) →
               is_Some (gene_source fresh_main !! Some g)) as Hinit.
  { intros g Hg. by apply elem_of_empty in Hg. }
  assert (∃ st',
    count_bundles length_hash default_counter "genome" fresh_main two_reads = Ok st')
    as [st' Hrun] by (eexists; vm_compute; reflexivity).
  destruct (reference_column_defined length_hash default_counter "genome" two_reads
              fresh_main st' Hinit Hrun) as [(refs & Hrefs & Hlen) _].
  exists st', refs. split; [exact Hrun|]. split; [exact Hrefs|exact Hlen].
Defined.

Lemma molecule_counts_within_read_counts_witness :
  ∃ st',
    count_bundles length_hash default_counter "genome" fresh_main two_reads = Ok st'
    ∧ counts_within_reads (dge st').
Proof.
  assert (counts_within_reads (dge fresh_main)) as Hinit by (intros key; split; reflexivity).
  assert (∃ st',
    count_bundles length_hash default_counter "genome" fresh_main two_reads = Ok st')
    as [st' Hrun] by (eexists; vm_compute; reflexivity).
  exists st'. split; [exact Hrun|].
  exact (molecule_counts_within_read_counts length_hash default_counter "genome"
           two_reads fresh_main st' Hinit Hrun).
Defined.

Lemma main_channel_is_sum_of_molecule_counts_witness :
  ∃ st',
    count_bundles length_hash default_counter "genome" fresh_main two_reads = Ok st'
    ∧ main_is_sum (dge st').
Proof.
  assert (exon_intron_disambiguation_func default_counter ≠ count_both) as Hpol by done.
  assert (count_X_channels default_counter = {["exonic_counts"; "intronic_counts"]})
    as HX by (apply leibniz_equiv, set_equiv; intros x; set_solver).
  assert (main_is_sum (dge fresh_main)) as Hinit by (intros key; reflexivity).
  assert (∃ st',
    count_bundles length_hash default_counter "genome" fresh_main two_reads = Ok st')
    as [st' Hrun] by (eexists; vm_compute; reflexivity).
  exists st'. split; [exact Hrun|].
  exact (main_channel_is_sum_of_molecule_counts length_hash default_counter "genome"
           two_reads fresh_main st' Hpol HX Hinit Hrun).
Defined.

(** ** The BAM reader *)


Lemma extract_all_app g1 g2 l1 l2 :
  extract_all g1 = Ok l1 → extract_all g2 = Ok l2 →
  extract_all (g1 ++ g2) = Ok (l1 ++ l2).
Proof.
  revert l1. induction g1 as [|r g1 IH]; intros l1 H1 H2; simpl in *.
  - by injection H1 as <-.
  - destruct (extract r) as [a|]; [|done]. simpl in *.
    destruct (extract_all g1) as [l|]; [|done]. simpl in *.
    injection H1 as <-. by rewrite (IH l eq_refl H2).
Qed.

Lemma extract_all_length g l : extract_all g = Ok l → length l = length g.
Proof.
  revert l. induction g as [|r g IH]; intros l H; simpl in *.
  - by injection H as <-.
  - destruct (extract r) as [a|]; [|done]. simpl in *.
    destruct (extract_all g) as [l'|]; [|done]. simpl in *.
    injection H as <-. simpl. by rewrite (IH l').
Qed.

Lemma bundle_of_nonempty g b : bundle_of g b → b.2 ≠ [].
Proof.
  intros (r & g' & -> & _ & _ & He) Hnil. apply extract_all_length in He.
  rewrite Hnil in He. done.
Qed.

Lemma open_collecting rec rs :
  Reader.open rec = Ok rs → collecting rs (query_name rec) [rec].
Proof.
  unfold Reader.open. intros H.
  destruct (tag_CB rec) as [cb|] eqn:Hcb; [|done].
  destruct (tag_MI rec) as [mi|] eqn:Hmi; [|done]. simpl in H.
  destruct (extract rec) as [a|] eqn:Ha; [|done]. injection H as <-.
  split; [done|]. split; [by intros r ->%list_elem_of_singleton|].
  exists rec, []. simpl. by rewrite Ha.
Qed.

Lemma append_collecting rec rs rs' q g :
  collecting rs q g → query_name rec = q → Reader.append rs rec = Ok rs' →
  collecting rs' q (g ++ [rec]).
Proof.
  intros (Hq & Hg & r & g' & -> & Hcb & Hmi & He) Hrec H. unfold Reader.append in H.
  destruct (extract rec) as [a|] eqn:Ha; [|done]. injection H as <-.
  split; [done|]. split.
  - intros r' [?| ->%list_elem_of_singleton]%elem_of_app; auto.
  - exists r, (g' ++ [rec]). split; [done|]. split; [done|]. split; [done|].
    cbn [fst snd Reader.bundle] in *. apply (extract_all_app (r :: g') [rec]); [done|].
    simpl. by rewrite Ha.
Qed.

Lemma read_collecting recs rs stats bs stats' q g0 :
  collecting rs q g0 →
  read recs rs stats = (bs, Ok stats') →
  ∃ g1 groups b bs',
    bs = b :: bs'
    ∧ (∀ r, r ∈ g1 → query_name r = q)
    ∧ bundle_of (g0 ++ g1) b
    ∧ g1 ++ concat groups = filter (λ r, usable r = true) recs
    ∧ Forall same_fragment groups
    ∧ Sorted other_fragment ((g0 ++ g1) :: groups)
    ∧ Forall2 bundle_of groups bs'.
Proof.
  revert rs stats bs q g0. induction recs as [|rec rest IH]; intros rs stats bs q g0 Hc H.
  - simpl in H. destruct Hc as (Hq & Hg & Hb). pose proof (bundle_of_nonempty _ _ Hb) as Hne.
    unfold Reader.flush in H. simpl in Hne.
    destruct (Reader.bundle rs) as [|a l] eqn:Hl; [done|]. injection H as <- <-.
    exists [], [], (Reader.CB rs, Reader.MI rs, a :: l), [].
    rewrite app_nil_r. repeat split; try done.
    + by intros r ?%elem_of_nil.
    + by repeat constructor.
  - cbn [read] in H. unfold usable. rewrite filter_cons.
    destruct (is_paired rec && is_read2 rec) eqn:Hp.
    { rewrite decide_False by done. by apply (IH _ _ _ _ _ Hc H). }
    destruct (is_unmapped rec) eqn:Hu.
    { rewrite decide_False by done. by apply (IH _ _ _ _ _ Hc H). }
    rewrite decide_True by done. destruct Hc as (Hq & Hg & Hb).
    case_decide as Hne.
    + destruct (Reader.open rec) as [rs'|e] eqn:Ho; [|done].
      destruct (read rest rs' _) as [bs2 r] eqn:Hr. injection H as <- ->.
      apply open_collecting in Ho.
      destruct (IH _ _ _ _ _ Ho Hr) as (g1 & groups & b & bs' & -> & Hg1 & Hb1 & Hcat & Hs & Hsort & Hf).
      pose proof (bundle_of_nonempty _ _ Hb) as Hnil. unfold Reader.flush.
      simpl in Hnil. destruct (Reader.bundle rs) as [|a l] eqn:Hl; [done|].
      exists [], (([rec] ++ g1) :: groups), (Reader.CB rs, Reader.MI rs, a :: l), (b :: bs').
      rewrite app_nil_r. split; [done|]. split; [by intros r ?%elem_of_nil|].
      split; [done|]. split; [simpl; by rewrite Hcat|]. split; [|split].
      * constructor; [|done]. intros r1 r2 H1 H2.
        assert (∀ r, r ∈ [rec] ++ g1 → query_name r = query_name rec) as Hall
          by (intros r [->%list_elem_of_singleton|?]%elem_of_app; auto).
        by rewrite (Hall r1), (Hall r2).
      * constructor; [done|]. constructor. intros r1 r2 H1 H2.
        rewrite (Hg r1 H1).
        assert (query_name r2 = query_name rec) as ->.
        { apply elem_of_app in H2 as [->%list_elem_of_singleton|?]; auto. }
        intros Heq. apply Hne. by rewrite Hq, Heq.
      * by constructor.
    + rewrite Hq in Hne. injection Hne as Hrec.
      destruct (Reader.append rs rec) as [rs'|e] eqn:Ha; [|done].
      pose proof (append_collecting rec rs rs' q g0 (conj Hq (conj Hg Hb)) Hrec Ha) as Hc'.
      destruct (IH _ _ _ _ _ Hc' H) as (g1 & groups & b & bs' & -> & Hg1 & Hb1 & Hcat & Hs & Hsort & Hf).
      exists (rec :: g1), groups, b, bs'. rewrite <-app_assoc in Hb1, Hsort.
      split; [done|]. split; [|split; [done|split; [|done]]].
      * intros r [->|?]%elem_of_cons; auto.
      * simpl. by rewrite Hcat.
Qed.

Lemma read_fragments recs stats stats' bs :
  read recs Reader.initial stats = (bs, Ok stats') →
  ∃ groups,
    concat groups = filter (λ r, usable r = true) recs
    ∧ Forall same_fragment groups
    ∧ Sorted other_fragment groups
    ∧ Forall2 bundle_of groups bs.
Proof.
  revert stats bs.
  induction recs as [|rec rest IH]; intros stats bs H.
  - injection H as <- <-. exists []. by repeat constructor.
  - cbn [read] in H. unfold usable. rewrite filter_cons.
    destruct (is_paired rec && is_read2 rec) eqn:Hp.
    { rewrite decide_False by done. by apply (IH _ _ H). }
    destruct (is_unmapped rec) eqn:Hu.
    { rewrite decide_False by done. by apply (IH _ _ H). }
    rewrite decide_True by done. rewrite decide_True in H by done.
    destruct (Reader.open rec) as [rs'|e] eqn:Ho; [|done].
    destruct (read rest rs' _) as [bs2 r] eqn:Hr. injection H as <- ->.
    apply open_collecting in Ho.
    destruct (read_collecting _ _ _ _ _ _ _ Ho Hr)
      as (g1 & groups & b & bs' & -> & Hg1 & Hb1 & Hcat & Hs & Hsort & Hf).
    exists (([rec] ++ g1) :: groups). split; [simpl; by rewrite Hcat|].
    split; [|split; [done|by constructor]].
    constructor; [|done]. intros r1 r2 H1 H2.
    assert (∀ r, r ∈ [rec] ++ g1 → query_name r = query_name rec) as Hall
      by (intros r [->%list_elem_of_singleton|?]%elem_of_app; auto).
    by rewrite (Hall r1), (Hall r2).
Qed.

(** The bundles of the reader, one per fragment: the usable records are
    cut, in order, into the longest runs of records with one query name;
    each run gives one bundle, made of its extracted records and of the CB
    and MI tags of its first record. *)
Theorem bam_iter_bundles_fragments (recs : list bam_record) (stats stats' : gmap string nat)
    (bs : list (string * string * list alignment)) :
  bam_iter_bundles recs stats = (bs, Ok stats') →
  ∃ groups,
    concat groups = filter (λ r, usable r = true) recs
    ∧ Forall same_fragment groups
    ∧ Sorted other_fragment groups
    ∧ Forall2 bundle_of groups bs.
Proof. apply read_fragments. Qed.

Lemma bam_iter_bundles_fragments_witness :
  ∃ groups,
    concat groups = filter (λ r, usable r = true) three_fragments
    ∧ Forall same_fragment groups
    ∧ Sorted other_fragment groups
    ∧ Forall2 bundle_of groups
        [("AAAA", "UMI1", [{| chrom := "chr1"; strand := "+"; gn := ["GeneA"];
                               gf := ["C"]; score := 10 |};
                            {| chrom := "chr1"; strand := "+"; gn := ["GeneB"];
                               gf := ["I"]; score := 10 |}]);
         ("AAAA", "UMI1", [{| chrom := "chr1"; strand := "+"; gn := ["GeneA"; "GeneB"];
                               gf := ["C"; "I"]; score := 10 |}])].
Proof.
  apply (bam_iter_bundles_fragments three_fragments ∅ (bumped
           ["N_records"; "N_frags"; "N_records"; "N_records"; "N_unmapped";
            "N_records"; "N_frags"] ∅)).
  vm_compute. reflexivity.
Defined.

Lemma incr_stat_lookup n s k :
  default 0 (incr_stat n s !! k)
  = default 0 (s !! k) + (if decide (n = k) then 1 else 0).
Proof.
  unfold incr_stat. case_decide as Hk.
  - subst. rewrite lookup_insert_eq. simpl. lia.
  - rewrite lookup_insert_ne by done. lia.
Qed.

Lemma incr_stat_other n s k : n ≠ k → incr_stat n s !! k = s !! k.
Proof. intros Hk. unfold incr_stat. by rewrite lookup_insert_ne. Qed.

Ltac decide_names H :=
  repeat first [rewrite decide_True in H by done | rewrite decide_False in H by done].

Lemma read_stats recs rs stats bs stats' :
  Reader.bundle rs ≠ [] ∨ Reader.last_qname rs = None →
  read recs rs stats = (bs, Ok stats') →
  default 0 (stats' !! "N_records") = default 0 (stats !! "N_records") + length recs
  ∧ default 0 (stats' !! "N_unmapped")
    = default 0 (stats !! "N_unmapped")
      + length (filter (λ r, (is_paired r && is_read2 r) = false ∧ is_unmapped r = true)
                       recs)
  ∧ default 0 (stats' !! "N_frags") + length (Reader.flush rs)
    = default 0 (stats !! "N_frags") + length bs
  ∧ ∀ k, k ≠ "N_records" → k ≠ "N_unmapped" → k ≠ "N_frags" → stats' !! k = stats !! k.
Proof.
  revert rs stats bs. induction recs as [|rec rest IH]; intros rs stats bs Hrs H.
  - injection H as <- <-. simpl. repeat split; lia.
  - cbn [read] in H. rewrite filter_cons. cbn [length].
    destruct (is_paired rec && is_read2 rec) eqn:Hp.
    { rewrite decide_False by (by intros [? _]).
      destruct (IH _ _ _ Hrs H) as (H1 & H2 & H3 & H4).
      rewrite !incr_stat_lookup in H1, H2, H3.
      decide_names H1. decide_names H2. decide_names H3.
      repeat split; [lia..|]. intros k ???. rewrite H4 by done. by apply incr_stat_other. }
    destruct (is_unmapped rec) eqn:Hu.
    { rewrite decide_True by done.
      destruct (IH _ _ _ Hrs H) as (H1 & H2 & H3 & H4).
      rewrite !incr_stat_lookup in H1, H2, H3.
      decide_names H1. decide_names H2. decide_names H3.
      repeat split; [simpl; lia..|]. intros k ???. rewrite H4 by done.
      by rewrite !incr_stat_other. }
    rewrite decide_False by (intros [_ ?]; done). case_decide as Hne.
    + destruct (Reader.open rec) as [rs'|e] eqn:Ho; [|done].
      destruct (read rest rs' _) as [bs2 r] eqn:Hr. injection H as <- ->.
      assert (Reader.bundle rs' ≠ [] ∧ length (Reader.flush rs') = 1) as [Hb Hf].
      { unfold Reader.open in Ho. destruct (get_tag (tag_CB rec)); [|done].
        destruct (get_tag (tag_MI rec)); [|done]. destruct (extract rec); [|done].
        by injection Ho as <-. }
      destruct (IH _ _ _ (or_introl Hb) Hr) as (H1 & H2 & H3 & H4).
      rewrite !incr_stat_lookup in H1, H2, H3.
      decide_names H1. decide_names H2. decide_names H3. rewrite length_app.
      repeat split; [lia..|]. intros k ???. rewrite H4 by done.
      by rewrite !incr_stat_other.
    + destruct Hrs as [Hb|Hnone]; [|by rewrite Hnone in Hne].
      destruct (Reader.append rs rec) as [rs'|e] eqn:Ha; [|done].
      assert (Reader.bundle rs' ≠ [] ∧ length (Reader.flush rs') = length (Reader.flush rs))
        as [Hb' Hf].
      { unfold Reader.append in Ha. destruct (extract rec); [|done].
        injection Ha as <-. unfold Reader.flush. simpl.
        destruct (Reader.bundle rs); done. }
      destruct (IH _ _ _ (or_introl Hb') H) as (H1 & H2 & H3 & H4).
      rewrite !incr_stat_lookup in H1, H2, H3.
      decide_names H1. decide_names H2. decide_names H3.
      repeat split; [lia..|]. intros k ???. rewrite H4 by done.
      by rewrite !incr_stat_other.
Qed.

(** The statistics of the reader: [N_records] counts the records,
    [N_unmapped] the unmapped records that are not second mates,
    [N_frags] the bundles yielded, and no other name is written. *)
Theorem bam_iter_bundles_statistics (recs : list bam_record)
    (stats stats' : gmap string nat) (bs : list (string * string * list alignment)) :
  bam_iter_bundles recs stats = (bs, Ok stats') →
  default 0 (stats' !! "N_records") = default 0 (stats !! "N_records") + length recs
  ∧ default 0 (stats' !! "N_unmapped")
    = default 0 (stats !! "N_unmapped")
      + length (filter (λ r, (is_paired r && is_read2 r) = false ∧ is_unmapped r = true)
                       recs)
  ∧ default 0 (stats' !! "N_frags") = default 0 (stats !! "N_frags") + length bs
  ∧ ∀ k, k ≠ "N_records" → k ≠ "N_unmapped" → k ≠ "N_frags" → stats' !! k = stats !! k.
Proof.
  intros H. apply read_stats in H as (H1 & H2 & H3 & H4); [|by right].
  simpl in H3. rewrite Nat.add_0_r in H3. done.
Qed.

Lemma bam_iter_bundles_statistics_witness :
  ∃ bs stats',
    bam_iter_bundles three_fragments ∅ = (bs, Ok stats')
    ∧ default 0 (stats' !! "N_records") = 0 + 4
    ∧ default 0 (stats' !! "N_frags") = 0 + length bs.
Proof.
  assert (∃ bs stats', bam_iter_bundles three_fragments ∅ = (bs, Ok stats'))
    as (bs & stats' & Hrun) by (do 2 eexists; vm_compute; reflexivity).
  destruct (bam_iter_bundles_statistics three_fragments ∅ stats' bs Hrun)
    as (H1 & _ & H3 & _).
  exists bs, stats'. split; [exact Hrun|]. split; [exact H1|exact H3].
Defined.

(** When every usable record carries the tags AS, CB and MI, the reader
    runs to the end of the records. *)
Lemma read_ok recs rs stats :
  (∀ r, r ∈ recs → usable r = true →
        is_Some (tag_AS r) ∧ is_Some (tag_CB r) ∧ is_Some (tag_MI r)) →
  ∃ bs stats', read recs rs stats = (bs, Ok stats').
Proof.
  revert rs stats. induction recs as [|rec rest IH]; intros rs stats Htags; [by eexists _, _|].
  assert (∀ r, r ∈ rest → usable r = true →
               is_Some (tag_AS r) ∧ is_Some (tag_CB r) ∧ is_Some (tag_MI r)) as Hrest
    by (intros r ?; apply Htags; by right).
  cbn [read]. specialize (Htags rec (list_elem_of_here _ _)). unfold usable in Htags.
  destruct (is_paired rec && is_read2 rec); [by apply IH|].
  destruct (is_unmapped rec); [by apply IH|].
  destruct Htags as ([s Hs] & [cb Hcb] & [mi Hmi]); [done|].
  unfold Reader.open, Reader.append, extract. rewrite Hs, Hcb, Hmi. simpl.
  case_decide.
  - match goal with |- context [read rest ?rs ?s] =>
      destruct (IH rs s Hrest) as (bs & stats' & ->) end.
    by eexists _, _.
  - by apply IH.
Qed.

Theorem bam_iter_bundles_ends_normally (recs : list bam_record) (stats : gmap string nat) :
  (∀ r, r ∈ recs → usable r = true →
        is_Some (tag_AS r) ∧ is_Some (tag_CB r) ∧ is_Some (tag_MI r)) →
  ∃ bs stats', bam_iter_bundles recs stats = (bs, Ok stats').
Proof. apply read_ok. Qed.

Lemma bam_iter_bundles_ends_normally_witness :
  ∃ bs stats', bam_iter_bundles three_fragments ∅ = (bs, Ok stats').
Proof.
  apply (bam_iter_bundles_ends_normally three_fragments ∅).
  intros r Hr Hu.
  each_member Hr ltac:(first [discriminate Hu | by repeat split]).
Defined.

(** *** Bundles of the reader in the counter *)






Section reader_and_counter.
Variable hash : string * string → Z.
Variable c : DefaultCounter.



End reader_and_counter.


(** *** The reader and the counter taking turns *)

Lemma regular_ret {A} (a : A) : regular (mret a).
Proof. intros st1 st2 Hu. split; [done|]. split; [done|]. by exists []. Qed.

Lemma regular_lift {A} (r : result A) : regular (lift r).
Proof.
  intros st1 st2 Hu. destruct r; simpl; [|done].
  split; [done|]. split; [done|]. by exists [].
Qed.

Lemma regular_bump name : regular (bump name).
Proof. intros st1 st2 Hu. split; [done|]. split; [done|]. by exists [name]. Qed.

Lemma regular_bind {A B} (m : M A) (f : A → M B) :
  regular m → (∀ a, regular (f a)) → regular (m ≫= f).
Proof.
  intros Hm Hf st1 st2 Hu. specialize (Hm st1 st2 Hu). unfold mbind, M_bind.
  destruct (m st1) as [[a1 s1]|e1], (m st2) as [[a2 s2]|e2]; try done.
  destruct Hm as (-> & Hu' & n1 & H1 & H2). specialize (Hf a2 s1 s2 Hu').
  destruct (f a2 s1) as [[b1 t1]|e1], (f a2 s2) as [[b2 t2]|e2]; try done.
  destruct Hf as (-> & Hu'' & n2 & H3 & H4). split; [done|]. split; [done|].
  exists (n1 ++ n2). by rewrite !bumped_app, <-H1, <-H2.
Qed.

Lemma regular_bump_all names : regular (bump_all names).
Proof.
  induction names as [|n names IH]; [apply regular_ret|].
  apply regular_bind; [apply regular_bump|done].
Qed.

Lemma regular_observe hash cell umi : regular (observe hash cell umi).
Proof.
  intros st1 st2 Hu. unfold observe. rewrite Hu. split; [done|].
  destruct (negb _); simpl; (split; [by rewrite ?Hu|by exists []]).
Qed.

Lemma regular_process_bam_bundle hash c cell umi bundle :
  regular (process_bam_bundle hash c cell umi bundle).
Proof.
  unfold process_bam_bundle. apply regular_bind.
  - unfold choose_alignment. case_decide;
      repeat first [apply regular_bind; [|intros ?] | apply regular_bump
                   | apply regular_lift | apply regular_ret].
  - intros [a|]; [|apply regular_ret]. apply regular_bind.
    + unfold choose_gene.
      repeat first [apply regular_bind; [|intros ?] | apply regular_bump
                   | apply regular_lift | apply regular_ret | case_decide].
    + intros [gene gf]. destruct (truthy gene); [|apply regular_ret].
      apply regular_bind; [|intros ?; apply regular_ret]. unfold count_alignment.
      repeat first [apply regular_bind; [|intros ?] | apply regular_bump
                   | apply regular_lift | apply regular_ret | apply regular_observe
                   | apply regular_bump_all | case_decide].
Qed.

Section turns.
Variable hash : string * string → Z.
Variable c : DefaultCounter.
Variable reference_name : string.

Lemma count_bundle_same st1 st2 b :
  same_counts st1 st2 →
  match count_bundle hash c reference_name st1 b,
        count_bundle hash c reference_name st2 b with
  | Ok s1, Ok s2 =>
    same_counts s1 s2
    ∧ ∃ names, stats (counter s1) = bumped names (stats (counter st1))
               ∧ stats (counter s2) = bumped names (stats (counter st2))
  | Raise e1, Raise e2 => e1 = e2
  | _, _ => False
  end.
Proof.
  intros (Hd & Hg & Hu). destruct b as [[cell umi] bundle]. unfold count_bundle.
  pose proof (regular_process_bam_bundle hash c cell umi bundle _ _ Hu) as Hp.
  destruct (process_bam_bundle hash c cell umi bundle (counter st1)) as [[[g1 ch1] t1]|e1],
           (process_bam_bundle hash c cell umi bundle (counter st2)) as [[[g2 ch2] t2]|e2];
    try done.
  destruct Hp as ([= -> ->] & Hu' & Hnames). simpl. rewrite Hd, Hg.
  destruct g2 as [g|l|]; simpl.
  - destruct (negb (g =? "")%string); simpl; done.
  - destruct (negb (bool_decide (l = []))); [case_decide|]; simpl; done.
  - done.
Qed.

Lemma count_bundles_app st l1 l2 :
  count_bundles hash c reference_name st (l1 ++ l2)
  = s ← count_bundles hash c reference_name st l1;
    count_bundles hash c reference_name s l2.
Proof.
  revert st. induction l1 as [|b l1 IH]; intros st; [done|]. simpl.
  destruct (count_bundle hash c reference_name st b) as [s|e]; simpl; [apply IH|done].
Qed.

Lemma count_bundles_same bs st1 st2 :
  same_counts st1 st2 →
  match count_bundles hash c reference_name st1 bs,
        count_bundles hash c reference_name st2 bs with
  | Ok s1, Ok s2 =>
    same_counts s1 s2
    ∧ ∃ names, stats (counter s1) = bumped names (stats (counter st1))
               ∧ stats (counter s2) = bumped names (stats (counter st2))
  | Raise e1, Raise e2 => e1 = e2
  | _, _ => False
  end.
Proof.
  revert st1 st2. induction bs as [|b bs IH]; intros st1 st2 Hs.
  - simpl. split; [done|]. by exists [].
  - cbn [count_bundles]. pose proof (count_bundle_same st1 st2 b Hs) as Hb.
    destruct (count_bundle hash c reference_name st1 b) as [s1|e1],
             (count_bundle hash c reference_name st2 b) as [s2|e2]; try done.
    destruct Hb as (Hs' & n1 & H1 & H2). simpl. specialize (IH s1 s2 Hs').
    destruct (count_bundles hash c reference_name s1 bs) as [t1|e1],
             (count_bundles hash c reference_name s2 bs) as [t2|e2]; try done.
    destruct IH as (Hs'' & n2 & H3 & H4). split; [done|].
    exists (n1 ++ n2). by rewrite !bumped_app, <-H1, <-H2.
Qed.

Lemma with_stats_incr n st1 st2 sR (base : string → nat) :
  same_counts st1 st2 →
  (∀ k, stat (counter st1) k + base k = default 0 (sR !! k) + stat (counter st2) k) →
  same_counts (with_stats (incr_stat n) st1) st2
  ∧ ∀ k, stat (counter (with_stats (incr_stat n) st1)) k + base k
         = default 0 (incr_stat n sR !! k) + stat (counter st2) k.
Proof.
  intros Hs Hk. split; [done|]. intros k. specialize (Hk k).
  unfold stat, with_stats in *. cbn [counter stats]. rewrite !incr_stat_lookup. lia.
Qed.

Lemma read_and_count_read recs rs st1 sR st2 (base : string → nat) :
  same_counts st1 st2 →
  (∀ k, stat (counter st1) k + base k = default 0 (sR !! k) + stat (counter st2) k) →
  match read recs rs sR with
  | (bs, Ok sR') =>
    match read_and_count hash c reference_name recs rs st1,
          count_bundles hash c reference_name st2 bs with
    | Ok s1, Ok s2 =>
      same_counts s1 s2
      ∧ ∀ k, stat (counter s1) k + base k = default 0 (sR' !! k) + stat (counter s2) k
    | Raise e1, Raise e2 => e1 = e2
    | _, _ => False
    end
  | (bs, Raise e) =>
    read_and_count hash c reference_name recs rs st1
    = match count_bundles hash c reference_name st2 bs with
      | Ok _ => Raise e
      | Raise e' => Raise e'
      end
  end.
Proof.
  revert rs st1 sR st2. induction recs as [|rec rest IH]; intros rs st1 sR st2 Hs Hk.
  - cbn [read read_and_count]. unfold consume.
    pose proof (count_bundles_same (Reader.flush rs) st1 st2 Hs) as Hf.
    destruct (count_bundles hash c reference_name st1 (Reader.flush rs)) as [s1|e1],
             (count_bundles hash c reference_name st2 (Reader.flush rs)) as [s2|e2];
      try done.
    destruct Hf as (Hs' & names & H1 & H2). split; [done|]. intros k.
    specialize (Hk k). unfold stat in *. rewrite H1, H2, !bumped_lookup. lia.
  - cbn [read read_and_count].
    destruct (with_stats_incr "N_records" st1 st2 sR base Hs Hk) as [Hs1 Hk1].
    destruct (is_paired rec && is_read2 rec); [by apply IH|].
    destruct (is_unmapped rec).
    { destruct (with_stats_incr "N_unmapped" _ _ _ base Hs1 Hk1) as [Hs2 Hk2].
      by apply IH. }
    case_decide as Hne.
    + destruct (with_stats_incr "N_frags" _ _ _ base Hs1 Hk1) as [Hs2 Hk2].
      set (st1' := with_stats (incr_stat "N_frags") _) in *.
      set (sR' := incr_stat "N_frags" _) in *. unfold consume.
      pose proof (count_bundles_same (Reader.flush rs) st1' st2 Hs2) as Hf.
      destruct (count_bundles hash c reference_name st1' (Reader.flush rs)) as [s1|e1] eqn:E1,
               (count_bundles hash c reference_name st2 (Reader.flush rs)) as [s2|e2] eqn:E2;
        try done.
      * destruct Hf as (Hs' & names & H1 & H2). simpl.
        destruct (Reader.open rec) as [rs'|e]; simpl; [|by rewrite E2].
        assert (∀ k, stat (counter s1) k + base k
                     = default 0 (sR' !! k) + stat (counter s2) k) as Hk'.
        { intros k. specialize (Hk2 k). unfold stat in *.
          rewrite H1, H2, !bumped_lookup. lia. }
        specialize (IH rs' s1 sR' s2 Hs' Hk').
        destruct (read rest rs' sR') as [bs2 r]. rewrite count_bundles_app, E2. done.
      * subst e2. simpl.
        destruct (Reader.open rec) as [rs'|e]; simpl; [|by rewrite E2].
        destruct (read rest rs' sR') as [bs2 r]. rewrite count_bundles_app, E2. simpl.
        by destruct r.
    + destruct (Reader.append rs rec) as [rs'|e]; simpl; [by apply IH|done].
Qed.

(** The loop of [main] over the generator does what counting the list of
    its bundles does: when the reader runs to the end, both raise the same
    exception or both end with the same count store, gene sources and
    [uniq], and a statistic of the loop is the sum of what the reader and
    the counter add to it; when the reader raises, the loop raises the
    exception of the counter, if it raises on an earlier bundle, and that of
    the reader otherwise. *)
Theorem read_and_count_as_count_bundles (recs : list bam_record) (st : main_state) :
  match bam_iter_bundles recs (stats (counter st)) with
  | (bs, Ok stats_r) =>
    match read_and_count hash c reference_name recs Reader.initial st,
          count_bundles hash c reference_name st bs with
    | Ok s1, Ok s2 =>
      same_counts s1 s2
      ∧ ∀ k, stat (counter s1) k + stat (counter st) k
             = default 0 (stats_r !! k) + stat (counter s2) k
    | Raise e1, Raise e2 => e1 = e2
    | _, _ => False
    end
  | (bs, Raise e) =>
    read_and_count hash c reference_name recs Reader.initial st
    = match count_bundles hash c reference_name st bs with
      | Ok _ => Raise e
      | Raise e' => Raise e'
      end
  end.
Proof. by apply read_and_count_read. Qed.

End turns.

(** ** Flavors *)

Section flavors.
Import Config.
Context {object : Type}.
Variable module_globals : gmap string object.
Variable import_module : string → option (gmap string object).


Lemma alist_update_NoDup {V} (dflt : V) f (k : string) d :
  NoDup (fst <$> d) → NoDup (fst <$> alist_update dflt f k d).
Proof.
  intros Hd. rewrite alist_update_keys. case_decide as Hk; [done|].
  apply NoDup_app. split; [done|]. split; [|apply NoDup_singleton].
  intros x Hx ->%list_elem_of_singleton. done.
Qed.

Lemma alist_update_elem {V} (v : V) (k : string) d k' v' :
  (k', v') ∈ alist_update v (λ _, v) k d →
  (k', v') = (k, v) ∨ (k', v') ∈ d.
Proof.
  induction d as [|[k0 v0] d IH]; simpl.
  - intros ->%list_elem_of_singleton. by left.
  - case_decide as Hk.
    + subst. intros [->|?]%elem_of_cons; [by left|]. right. by right.
    + intros [->|[?|?]%IH]%elem_of_cons; [right; left|by left|right; by right].
Qed.

Lemma parse_item_spec (flavors : gmap string (flavor object)) ref_d dflt f ref_d' dflt' :
  parse_item flavors (ref_d, dflt) f = Done (ref_d', dflt') →
  (NoDup (fst <$> ref_d) → NoDup (fst <$> ref_d'))
  ∧ ((∀ ref name, (ref, name) ∈ ref_d → is_Some (flavors !! name)) →
     ∀ ref name, (ref, name) ∈ ref_d' → is_Some (flavors !! name)).
Proof.
  unfold parse_item. destruct (split "@" f) as [|f1 [|f2 [|]]]; try done.
  - intros [= <- <-]. split; auto.
  - destruct (flavors !! f1) as [config|] eqn:Hf; [|done]. intros [= <- <-].
    split; [apply alist_update_NoDup|].
    intros Hall ref name [[= -> ->]|?]%alist_update_elem; eauto.
Qed.

Lemma parse_items_spec (flavors : gmap string (flavor object)) items ref_d dflt ref_d' dflt' :
  parse_items flavors (ref_d, dflt) items = Done (ref_d', dflt') →
  NoDup (fst <$> ref_d) →
  (∀ ref name, (ref, name) ∈ ref_d → is_Some (flavors !! name)) →
  NoDup (fst <$> ref_d')
  ∧ ∀ ref name, (ref, name) ∈ ref_d' → is_Some (flavors !! name).
Proof.
  revert ref_d dflt. induction items as [|f items IH]; intros ref_d dflt H Hnd Hall.
  - by injection H as <- <-.
  - cbn [parse_items] in H.
    destruct (parse_item flavors (ref_d, dflt) f) as [[r1 d1]|e] eqn:Hf;
      [|done].
    apply parse_item_spec in Hf as [H1 H2]. simpl in H. apply (IH _ _ H); [by apply H1|by apply H2].
Qed.

(** A flavor that already holds a class object stops the second loop. *)
Lemma load_classes_object entries (flavors : gmap string (flavor object)) chs name config o :
  name ∈ snd <$> entries →
  flavors !! name = Some config → counter_class config = Some (ClassObject o) →
  ∃ e, load_classes module_globals import_module entries flavors chs = Fail e.
Proof.
  revert flavors chs config. induction entries as [|[ref n] entries IH];
    intros flavors chs config Hin Hf Hc.
  - by apply elem_of_nil in Hin.
  - cbn [Config.load_classes]. destruct (decide (n = name)) as [->|Hne].
    + rewrite Hf, Hc. simpl. by eexists.
    + destruct (flavors !! n) as [config'|]; [|by eexists].
      destruct (get_counter_class _ _ _) as [cls|e]; [|by eexists]. simpl.
      apply (IH _ _ config).
      * rewrite fmap_cons in Hin. apply elem_of_cons in Hin as [?|?]; [done|done].
      * by rewrite lookup_insert_ne.
      * done.
Qed.

Lemma load_classes_spec entries (flavors flavors' : gmap string (flavor object)) chs chs' :
  load_classes module_globals import_module entries flavors chs = Done (flavors', chs') →
  NoDup (snd <$> entries)
  ∧ (∀ name, name ∈ snd <$> entries →
       ∃ config o, flavors !! name = Some config
                   ∧ flavors' !! name
                     = Some {| counter_class := Some (ClassObject o);
                               channels := channels config |})
  ∧ (∀ name, name ∉ snd <$> entries → flavors' !! name = flavors !! name)
  ∧ ∀ ch, ch ∈ chs' ↔
          ch ∈ chs ∨ ∃ name config, name ∈ snd <$> entries
                                     ∧ flavors !! name = Some config
                                     ∧ ch ∈ default default_channels
                                                    (channels config).
Proof.
  revert flavors chs. induction entries as [|[ref n] entries IH]; intros flavors chs H.
  - injection H as <- <-. split; [constructor|]. split; [by intros ? ?%elem_of_nil|].
    split; [done|]. intros ch. split; [by left|].
    intros [?|(? & ? & ?%elem_of_nil & _)]; done.
  - cbn [Config.load_classes] in H. destruct (flavors !! n) as [config|] eqn:Hn; [|done].
    destruct (get_counter_class _ _ _) as [cls|e] eqn:Hcls; [|done]. simpl in H.
    assert (n ∉ snd <$> entries) as Hnot.
    { intros Hin.
      destruct (load_classes_object entries
                  (<[n := {| counter_class := Some (ClassObject cls);
                             channels := channels config |}]> flavors)
                  (chs ++ default default_channels (channels config))
                  n _ cls Hin (lookup_insert_eq _ _ _) eq_refl) as [e He].
      by rewrite He in H. }
    destruct (IH _ _ H) as (Hnd & Hin & Hout & Hch). rewrite fmap_cons. cbn [snd].
    split; [by constructor|]. split; [|split].
    + intros name [->|Hname]%elem_of_cons.
      * exists config, cls. split; [done|]. by rewrite Hout, lookup_insert_eq.
      * destruct (Hin name Hname) as (cfg & o & H1 & H2). exists cfg, o.
        split; [|done]. rewrite lookup_insert_ne in H1; [done|]. by intros ->.
    + intros name [Hne Hname]%not_elem_of_cons. rewrite Hout by done.
      by rewrite lookup_insert_ne.
    + intros ch. rewrite Hch, elem_of_app. split.
      * intros [[?|?]|(name & cfg & Hname & Hcfg & Hin')].
        -- by left.
        -- right. exists n, config. split; [left|done].
        -- right. exists name, cfg. split; [by right|]. split; [|done].
           rewrite lookup_insert_ne in Hcfg; [done|]. by intros ->.
      * intros [?|(name & cfg & [->|Hname]%elem_of_cons & Hcfg & Hin')].
        -- left. by left.
        -- left. right. by simplify_eq.
        -- right. exists name, cfg. split; [done|]. split; [|done].
           rewrite lookup_insert_ne; [done|]. by intros ->.
Qed.

Lemma get_config_for_refs_inv (flavors flavors' : gmap string (flavor object)) arg ref_d chs :
  get_config_for_refs module_globals import_module flavors arg = Done (ref_d, flavors', chs) →
  ∃ chs0,
    load_classes module_globals import_module ref_d flavors [] = Done (flavors', chs0)
    ∧ chs = DGE.sorted (list_to_set chs0)
    ∧ ("*" ∈ fst <$> ref_d)
    ∧ NoDup (fst <$> ref_d).
Proof.
  unfold get_config_for_refs. intros H.
  destruct (parse_items flavors _ _) as [[r0 dflt]|e] eqn:Hp; [|done]. simpl in H.
  destruct (flavors !! dflt) as [cfg|] eqn:Hd; [|done].
  destruct (Config.load_classes _ _ _ _ _) as [[fl chs0]|e] eqn:Hl; [|done].
  injection H as <- <- <-. exists chs0. split; [done|]. split; [done|].
  apply parse_items_spec in Hp as [Hnd _]; [|constructor|by intros ?? ?%elem_of_nil].
  split; [|by apply alist_update_NoDup].
  rewrite alist_update_keys. case_decide; [done|]. apply elem_of_app. right. left.
Qed.

(** What [get_config_for_refs] returns: [ref_d] has the key ['*'], no two
    of its reference names hold the same flavor dictionary, and every
    flavor it holds has its class path replaced by the class. *)
Theorem get_config_for_refs_flavors (flavors flavors' : gmap string (flavor object))
    (flavor_arg : string) (ref_d : list (string * string)) (chs : list string) :
  get_config_for_refs module_globals import_module flavors flavor_arg = Done (ref_d, flavors', chs) →
  ("*" ∈ fst <$> ref_d)
  ∧ NoDup (fst <$> ref_d)
  ∧ NoDup (snd <$> ref_d)
  ∧ ∀ ref name, (ref, name) ∈ ref_d →
      ∃ config o, flavors !! name = Some config
                  ∧ flavors' !! name
                    = Some {| counter_class := Some (ClassObject o);
                              channels := channels config |}.
Proof.
  intros (chs0 & Hl & _ & Hstar & Hnd)%get_config_for_refs_inv.
  apply load_classes_spec in Hl as (Hnames & Hin & _ & _).
  split; [done|]. split; [done|]. split; [done|].
  intros ref name Href. apply Hin, list_elem_of_fmap. by exists (ref, name).
Qed.

(** The channel names it returns for the [DGE]: the channels of the
    flavors in [ref_d], the default channels for a flavor that lists none,
    each once and in increasing order. *)
Theorem get_config_for_refs_channels (flavors flavors' : gmap string (flavor object))
    (flavor_arg : string) (ref_d : list (string * string)) (chs : list string) :
  get_config_for_refs module_globals import_module flavors flavor_arg = Done (ref_d, flavors', chs) →
  StronglySorted String.le chs
  ∧ NoDup chs
  ∧ ∀ ch, ch ∈ chs ↔
          ∃ ref name config, (ref, name) ∈ ref_d ∧ flavors !! name = Some config
                             ∧ ch ∈ default default_channels (channels config).
Proof.
  intros (chs0 & Hl & -> & _ & _)%get_config_for_refs_inv.
  apply load_classes_spec in Hl as (_ & _ & _ & Hch).
  split; [apply sorted_Sorted|]. split; [apply sorted_NoDup|].
  intros ch. rewrite sorted_elem_of, elem_of_list_to_set, Hch. split.
  - intros [?%elem_of_nil|(name & cfg & ([ref n] & -> & Hin)%list_elem_of_fmap & Hcfg & Hc)];
      [done|].
    by exists ref, n, cfg.
  - intros (ref & name & cfg & Hin & Hcfg & Hc). right. exists name, cfg.
    split; [|done]. apply list_elem_of_fmap. by exists (ref, name).
Qed.

Lemma split_fields_no_sep sep s :
  contains sep s = false → split_fields sep s = (s, []).
Proof.
  induction s as [|a s IH]; [done|]. simpl. intros [Ha Hs]%orb_false_elim.
  rewrite (IH Hs). apply bool_decide_eq_false in Ha. by rewrite decide_False by done.
Qed.

Lemma split_fields_prefix sep p s :
  contains sep p = false →
  split_fields sep (p +:+ String sep s)
  = (p, (split_fields sep s).1 :: (split_fields sep s).2).
Proof.
  induction p as [|a p IH]; intros Hp.
  - change ("" +:+ String sep s) with (String sep s). cbn [split_fields].
    destruct (split_fields sep s). by rewrite decide_True.
  - simpl in Hp. apply orb_false_elim in Hp as [Ha Hp].
    change (String a p +:+ String sep s) with (String a (p +:+ String sep s)).
    cbn [split_fields]. rewrite (IH Hp). apply bool_decide_eq_false in Ha.
    by rewrite decide_False by done.
Qed.

Lemma contains_app a p s : contains a (p +:+ s) = contains a p || contains a s.
Proof.
  induction p as [|b p IH]; [done|].
  change (String b p +:+ s) with (String b (p +:+ s)). simpl.
  by rewrite IH, orb_assoc.
Qed.

(** The default flavor given to a reference name as well: the flavor
    dictionary is met twice by the second loop, the second time with the
    class in place of its path, and the call raises [AttributeError],
    unless it raised before on a missing flavor or class. *)
Theorem default_flavor_for_a_reference_raises (flavors : gmap string (flavor object))
    (ref : string) :
  contains "@" ref = false → contains "," ref = false → ref ≠ "*" →
  get_config_for_refs module_globals import_module flavors ("default@" +:+ ref)
  = match flavors !! "default" with
    | None => Fail (Builtin KeyError)
    | Some config =>
      match get_counter_class module_globals import_module
              (default (ClassPath "spacemake.quant.DefaultCounter")
                       (counter_class config)) with
      | Done _ => Fail AttributeError
      | Fail e => Fail e
      end
    end.
Proof.
  intros Hat Hcomma Hstar. unfold get_config_for_refs.
  assert (split "," ("default@" +:+ ref) = ["default@" +:+ ref]) as Hitems.
  { unfold split. rewrite split_fields_no_sep; [done|].
    by rewrite contains_app, Hcomma. }
  assert (split "@" ("default@" +:+ ref) = ["default"; ref]) as Hparts.
  { unfold split. change ("default@" +:+ ref) with ("default" +:+ String "@" ref).
    rewrite split_fields_prefix by done. by rewrite split_fields_no_sep. }
  rewrite Hitems. cbn [parse_items]. unfold parse_item.
  rewrite Hparts. destruct (flavors !! "default") as [cfg|] eqn:Hd; [|done].
  assert (alist_update "default" (λ _, "default") "*"
            (alist_update "default" (λ _ : string, "default") ref [])
          = [(ref, "default"); ("*", "default")]) as Hr.
  { simpl. rewrite decide_False; [done|]. by intros <-. }
  cbn -[alist_update Config.load_classes]. rewrite Hd, Hr.
  cbn [Config.load_classes]. rewrite Hd.
  destruct (get_counter_class _ _ _) as [cls|e]; [|done].
  cbn [mbind outcome_bind]. by rewrite lookup_insert_eq.
Qed.

End flavors.

Lemma get_config_for_refs_flavors_witness :
  ∃ ref_d flavors' chs,
    Config.get_config_for_refs sample_globals (λ _, None) sample_flavors "mirna@miRNA"
    = Config.Done (ref_d, flavors', chs)
    ∧ ("*" ∈ fst <$> ref_d)
    ∧ NoDup (fst <$> ref_d)
    ∧ NoDup (snd <$> ref_d).
Proof.
  assert (∃ ref_d flavors' chs,
    Config.get_config_for_refs sample_globals (λ _, None) sample_flavors "mirna@miRNA"
    = Config.Done (ref_d, flavors', chs)) as (ref_d & flavors' & chs & Hrun)
    by (do 3 eexists; vm_compute; reflexivity).
  destruct (get_config_for_refs_flavors sample_globals (λ _, None) sample_flavors flavors'
              "mirna@miRNA" ref_d chs Hrun) as (H1 & H2 & H3 & _).
  exists ref_d, flavors', chs. split; [exact Hrun|]. split; [exact H1|].
  split; [exact H2|exact H3].
Defined.

Lemma get_config_for_refs_channels_witness :
  ∃ ref_d flavors' chs,
    Config.get_config_for_refs sample_globals (λ _, None) sample_flavors "mirna@miRNA"
    = Config.Done (ref_d, flavors', chs)
    ∧ StronglySorted String.le chs
    ∧ NoDup chs.
Proof.
  assert (∃ ref_d flavors' chs,
    Config.get_config_for_refs sample_globals (λ _, None) sample_flavors "mirna@miRNA"
    = Config.Done (ref_d, flavors', chs)) as (ref_d & flavors' & chs & Hrun)
    by (do 3 eexists; vm_compute; reflexivity).
  destruct (get_config_for_refs_channels sample_globals (λ _, None) sample_flavors flavors'
              "mirna@miRNA" ref_d chs Hrun) as (H1 & H2 & _).
  exists ref_d, flavors', chs. split; [exact Hrun|]. split; [exact H1|exact H2].
Defined.

Lemma default_flavor_for_a_reference_raises_witness :
  Config.get_config_for_refs sample_globals (λ _, None) sample_flavors "default@genome"
  = Config.Fail Config.AttributeError.
Proof.
  apply (default_flavor_for_a_reference_raises sample_globals (λ _, None) sample_flavors
           "genome"); [reflexivity|reflexivity|by intros [=]].
Defined.

(** ** Order of the input *)

Lemma foldl_max_perm (l l' : list Z) x :
  l ≡ₚ l' → foldl Z.max x l = foldl Z.max x l'.
Proof.
  intros Hp. revert x. induction Hp as [|y l l' _ IH|y z l|l1 l2 l3 _ IH1 _ IH2];
    intros x; simpl.
  - done.
  - apply IH.
  - f_equal. lia.
  - by rewrite IH1.
Qed.

Lemma scan_raises prios bundle st :
  (∃ a, a ∈ bundle ∧ gf a = []) → scan prios st bundle = Raise ValueError.
Proof.
  revert st. induction bundle as [|b bundle IH]; intros st (a & Ha & Hgf).
  - by apply elem_of_nil in Ha.
  - cbn [scan]. unfold scan_step. destruct (decide (gf b = [])) as [Hb|Hb].
    + by rewrite Hb.
    + rewrite (get_prio_priority prios b Hb).
      apply elem_of_cons in Ha as [->|Ha]; [done|]. simpl.
      repeat case_decide; simpl; apply IH; eauto.
Qed.

Lemma select_alignment_by_priority_perm (prios : gmap string Z)
    (bundle bundle' : list alignment) :
  bundle ≡ₚ bundle' →
  select_alignment_by_priority prios bundle = select_alignment_by_priority prios bundle'.
Proof.
  intros Hp. unfold select_alignment_by_priority.
  destruct (decide (Exists (λ a, gf a = []) bundle)) as [Hex|Hall].
  - assert (Exists (λ a, gf a = []) bundle') as Hex' by (by rewrite <-Hp).
    apply Exists_exists in Hex, Hex'. by rewrite !scan_raises.
  - assert (∀ l, l ≡ₚ bundle → ∀ a, a ∈ l → gf a ≠ []) as Hne.
    { intros l Hl a Ha Hgf. apply Hall, Exists_exists. exists a.
      split; [by rewrite <-Hl|done]. }
    destruct (scan_spec prios bundle {| top_prio := 0; n_top := 0; kept := None |}
                (Hne bundle (reflexivity _))) as (s1 & -> & Ht1 & Hn1 & Hk1).
    destruct (scan_spec prios bundle' {| top_prio := 0; n_top := 0; kept := None |}
                (Hne bundle' (symmetry Hp))) as (s2 & -> & Ht2 & Hn2 & Hk2).
    simpl in *.
    assert (top_prio s2 = top_prio s1) as Htop.
    { rewrite Ht1, Ht2. apply foldl_max_perm. by rewrite Hp. }
    rewrite Htop in *.
    assert (attaining prios (top_prio s1) bundle ≡ₚ attaining prios (top_prio s1) bundle')
      as Hatt by (unfold attaining; by rewrite Hp).
    assert (n_top s2 = n_top s1) as Hn.
    { rewrite Hn1, Hn2. by rewrite Hatt. }
    rewrite Hn. destruct (decide (n_top s1 = 1)) as [H1|]; [|done]. f_equal.
    rewrite Hk1, Hk2.
    assert (length (attaining prios (top_prio s1) bundle) = 1) as Hlen
      by (repeat case_decide; lia).
    destruct (attaining prios (top_prio s1) bundle) as [|a [|]] eqn:Ha; try done.
    apply Permutation_singleton_l in Hatt. by rewrite Hatt.
Qed.

(** What the counter does with a bundle does not depend on the order of
    its alignments, when alignments are picked by priority. *)
Theorem process_bam_bundle_permutation (hash : string * string → Z) (c : DefaultCounter)
    (cell umi : string) (bundle bundle' : list alignment) (st : counter_state) :
  select_alignment c = aln_priority →
  bundle ≡ₚ bundle' →
  process_bam_bundle hash c cell umi bundle st
  = process_bam_bundle hash c cell umi bundle' st.
Proof.
  intros Hsel Hp. unfold process_bam_bundle.
  assert (choose_alignment c bundle = choose_alignment c bundle') as ->; [|done].
  unfold choose_alignment. rewrite <-(Permutation_length Hp). case_decide as Hlen.
  - destruct bundle as [|a [|]]; try done. by apply Permutation_singleton_l in Hp as ->.
  - unfold call_select_alignment. rewrite Hsel.
    by rewrite (select_alignment_by_priority_perm _ _ _ Hp).
Qed.

Lemma process_bam_bundle_permutation_witness :
  process_bam_bundle length_hash default_counter "AAAA" "UMI1"
    [aln ["GeneA"] ["C"]; aln ["GeneB"] ["I"]] fresh_counter
  = process_bam_bundle length_hash default_counter "AAAA" "UMI1"
      [aln ["GeneB"] ["I"]; aln ["GeneA"] ["C"]] fresh_counter.
Proof.
  apply process_bam_bundle_permutation; [reflexivity|apply perm_swap].
Defined.

(** The gene picked by priority does not depend on the order in which
    [set(gn)] is iterated. *)
Theorem select_gene_by_priority_iteration_order (names : list string)
    (prios : gmap string Z) (a : alignment) :
  NoDup names → (∀ n, n ∈ names ↔ n ∈ gn a) →
  select_gene_by_priority_iterating names prios a = select_gene_by_priority prios a.
Proof.
  intros Hnd Hnames. unfold select_gene_by_priority_iterating, select_gene_by_priority.
  set (st := gene_scan prios (gn a) (gf a)).
  assert (names ≡ₚ elements (list_to_set (gn a) : gset string)) as Hp.
  { apply NoDup_Permutation; [done|apply NoDup_elements|].
    intros n. rewrite elem_of_elements, elem_of_list_to_set. apply Hnames. }
  assert (filter (λ n, get0 (gene_prio st) n = max_prio st) names
          ≡ₚ filter (λ n, get0 (gene_prio st) n = max_prio st)
               (elements (list_to_set (gn a) : gset string))) as Hf by (by rewrite Hp).
  destruct (filter _ names) as [|n [|]] eqn:Hl.
  - apply Permutation_nil_l in Hf. by rewrite <-Hf.
  - apply Permutation_singleton_l in Hf. by rewrite Hf.
  - rewrite decide_False by (simpl; lia). rewrite decide_False; [done|].
    rewrite <-Hf. simpl. lia.
Qed.

Lemma select_gene_by_priority_iteration_order_witness :
  select_gene_by_priority_iterating ["GeneB"; "GeneA"] default_gene_priorities
    (aln ["GeneA"; "GeneB"; "GeneA"] ["I"; "C"; "I"])
  = select_gene_by_priority default_gene_priorities
      (aln ["GeneA"; "GeneB"; "GeneA"] ["I"; "C"; "I"]).
Proof.
  apply select_gene_by_priority_iteration_order.
  - apply (bool_decide_unpack (NoDup ["GeneB"; "GeneA"])). vm_compute. exact I.
  - intros n. simpl. set_solver.
Defined.

Lemma alist_update_twice {K V} `{EqDecision K} (dflt : V) f g (k : K) d :
  alist_update dflt f k (alist_update dflt g k d) = alist_update dflt (f ∘ g) k d.
Proof.
  induction d as [|[k' v] d IH]; simpl.
  - by rewrite decide_True.
  - case_decide; simpl.
    + by rewrite decide_True.
    + rewrite decide_False by done. by rewrite IH.
Qed.

Lemma alist_update_ext {K V} `{EqDecision K} (dflt : V) f g (k : K) d :
  (∀ v, f v = g v) → alist_update dflt f k d = alist_update dflt g k d.
Proof.
  intros Hfg. induction d as [|[k' v] d IH]; simpl.
  - by rewrite Hfg.
  - case_decide; [by rewrite Hfg|by rewrite IH].
Qed.

Lemma incr_commute key counts a b :
  DGE.incr key (DGE.incr key counts a) b = DGE.incr key (DGE.incr key counts b) a.
Proof.
  unfold DGE.incr. rewrite !alist_update_twice. apply alist_update_ext. intros d. simpl.
  destruct (decide (a = b)) as [->|Hne]; [done|].
  rewrite !lookup_insert_ne by done. by apply insert_insert_ne.
Qed.

Lemma foldl_incr_perm key counts (l l' : list string) :
  l ≡ₚ l' → foldl (DGE.incr key) counts l = foldl (DGE.incr key) counts l'.
Proof.
  intros Hp. revert counts.
  induction Hp as [|y l l' _ IH|y z l|l1 l2 l3 _ IH1 _ IH2]; intros counts; simpl.
  - done.
  - apply IH.
  - by rewrite incr_commute.
  - by rewrite IH1.
Qed.

(** The counts stored by [add_read] do not depend on the order in which
    the channel set is iterated. *)
Theorem add_read_iteration_order (names : list string) (s : DGE.t) (gene cell : string)
    (chs : gset string) :
  NoDup names → (∀ ch, ch ∈ names ↔ ch ∈ chs) →
  add_read_iterating names s gene cell = DGE.add_read s gene cell chs.
Proof.
  intros Hnd Hnames.
  assert (names ≡ₚ elements chs) as Hp.
  { apply NoDup_Permutation; [done|apply NoDup_elements|].
    intros ch. by rewrite elem_of_elements. }
  unfold add_read_iterating, DGE.add_read. destruct names as [|n names].
  - rewrite decide_False; [done|]. intros Hne. apply Hne, elem_of_equiv_empty_L.
    intros ch Hch. by apply Hnames, elem_of_nil in Hch.
  - rewrite decide_True.
    + by rewrite (foldl_incr_perm _ _ _ _ Hp).
    + intros ->. specialize (Hnames n). rewrite elem_of_empty in Hnames.
      apply Hnames. left.
Qed.

Lemma add_read_iteration_order_witness :
  add_read_iterating ["exonic_reads"; "counts"; "exonic_counts"]
    (DGE.init default_channels "" []) "GeneA" "AAAA"
  = DGE.add_read (DGE.init default_channels "" []) "GeneA" "AAAA"
      (list_to_set ["counts"; "exonic_counts"; "exonic_reads"]).
Proof.
  apply add_read_iteration_order.
  - apply (bool_decide_unpack (NoDup ["exonic_reads"; "counts"; "exonic_counts"])).
    vm_compute. exact I.
  - intros ch. set_solver.
Defined.

(** ** The channels of a feature code list *)

Section channel_spec.
Variable c : DefaultCounter.
Variable uniq : bool.

Lemma has_exonic_snoc gf f :
  has_exonic c (gf ++ [f]) ↔ has_exonic c gf ∨ f ∈ exonic_set c.
Proof.
  unfold has_exonic. split.
  - intros (x & [?| ->%list_elem_of_singleton]%elem_of_app & Hx); eauto.
  - intros [(x & ? & ?)|?]; [exists x|exists f]; rewrite elem_of_app;
      (split; [|done]); [by left|right; left].
Qed.

Lemma has_intronic_snoc gf f :
  has_intronic c (gf ++ [f])
  ↔ has_intronic c gf ∨ ((f ∉ exonic_set c) ∧ f ∈ intronic_set c).
Proof.
  unfold has_intronic. split.
  - intros (x & [?| ->%list_elem_of_singleton]%elem_of_app & Hx); eauto.
  - intros [(x & ? & ?)|?]; [exists x|exists f]; rewrite elem_of_app;
      (split; [|done]); [by left|right; left].
Qed.

Lemma elem_of_if_uniq (a x : string) (X : gset string) :
  x ∈ (if uniq then {[a]} ∪ X else X) ↔ (x = a ∧ uniq = true) ∨ x ∈ X.
Proof. destruct uniq; set_solver. Qed.

Lemma channel_fold_spec gf :
  let st := foldl (channel_step c uniq)
                  {| chans := ∅; exon := false; intron := false |} gf in
  (exon st = true ↔ has_exonic c gf)
  ∧ (intron st = true ↔ has_intronic c gf)
  ∧ ∀ ch, ch ∈ chans st ↔
          (ch = "exonic_reads" ∧ has_exonic c gf)
          ∨ (ch = "exonic_counts" ∧ uniq = true ∧ has_exonic c gf)
          ∨ (ch = "intronic_reads" ∧ has_intronic c gf)
          ∨ (ch = "intronic_counts" ∧ uniq = true ∧ has_intronic c gf).
Proof.
  induction gf as [|f gf IH] using rev_ind.
  - simpl. unfold has_exonic, has_intronic.
    split; [|split]; [split; [done|]; by intros (? & ?%elem_of_nil & _)..|].
    intros ch. split; [by intros ?%elem_of_empty|].
    intros [(_ & ? & ?%elem_of_nil & _)|[(_ & _ & ? & ?%elem_of_nil & _)
           |[(_ & ? & ?%elem_of_nil & _)|(_ & _ & ? & ?%elem_of_nil & _)]]]; done.
  - rewrite foldl_app. cbn [foldl]. set (st := foldl _ _ gf) in *. cbv zeta in IH.
    destruct IH as (He & Hi & Hch). rewrite has_exonic_snoc, has_intronic_snoc.
    unfold channel_step. destruct (decide (f ∈ exonic_set c)) as [Hfe|Hfe];
      [|destruct (decide (f ∈ intronic_set c)) as [Hfi|Hfi]]; cbn [exon intron chans].
    + split; [tauto|]. split; [rewrite Hi; tauto|].
      intros ch. rewrite elem_of_if_uniq, elem_of_union, elem_of_singleton, Hch.
      rewrite !has_exonic_snoc, !has_intronic_snoc. tauto.
    + split; [rewrite He; tauto|]. split; [tauto|].
      intros ch. rewrite elem_of_if_uniq, elem_of_union, elem_of_singleton, Hch.
      rewrite !has_exonic_snoc, !has_intronic_snoc. tauto.
    + split; [rewrite He; tauto|]. split; [rewrite Hi; tauto|].
      intros ch. rewrite Hch, !has_exonic_snoc, !has_intronic_snoc. tauto.
Qed.

Lemma post_policy_channels_spec gf ch :
  ch ∈ post_policy_channels c gf uniq ↔ class_channel c gf uniq ch.
Proof.
  unfold post_policy_channels, class_channel, exonic_kept, intronic_kept.
  destruct (channel_fold_spec gf) as (He & Hi & Hch). cbv zeta in *.
  set (st := foldl _ _ gf) in *.
  destruct (exon st) eqn:Hexon, (intron st) eqn:Hintron; simpl.
  - assert (has_exonic c gf) as HE by (by apply He).
    assert (has_intronic c gf) as HI by (by apply Hi).
    destruct (exon_intron_disambiguation_func c); simpl;
      rewrite ?elem_of_difference, Hch; clear Hch; set_unfold; intuition congruence.
  - assert (¬ has_intronic c gf) as HI by (rewrite <-Hi; done).
    rewrite Hch. tauto.
  - assert (¬ has_exonic c gf) as HE by (rewrite <-He; done).
    rewrite Hch. tauto.
  - assert (¬ has_exonic c gf) as HE by (rewrite <-He; done).
    rewrite Hch. tauto.
Qed.

(** [determine_channels], channel by channel: the reads channel of a
    class when the feature codes have a code of the class and the policy
    does not drop the class, its counts channel when moreover the molecule
    is new, and the main channel when one of these is in [count_X_channels]. *)
Theorem determine_channels_spec (gf : list string) (ch : string) :
  ch ∈ determine_channels c gf uniq ↔
  class_channel c gf uniq ch
  ∨ (ch = "counts" ∧ ∃ x, x ∈ count_X_channels c ∧ class_channel c gf uniq x).
Proof.
  unfold determine_channels. case_decide as Hcap.
  - apply set_choose_L in Hcap as [x [Hx1 Hx2]%elem_of_intersection].
    rewrite elem_of_union, elem_of_singleton, post_policy_channels_spec. split.
    + intros [->|?]; [|by left]. right. split; [done|]. exists x.
      by rewrite <-post_policy_channels_spec.
    + intros [?|[-> _]]; auto.
  - rewrite post_policy_channels_spec. split; [by left|].
    intros [?|(-> & x & Hx1 & Hx2)]; [done|]. exfalso.
    apply post_policy_channels_spec in Hx2. set_solver.
Qed.

Lemma determine_channels_default gf ch :
  ch ∈ determine_channels c gf uniq → ch ∈ default_channels.
Proof.
  assert (ch ∈ post_policy_channels c gf uniq → ch ∈ default_channels) as Hpost.
  { intros [[-> _]|[[-> _]|[[-> _]|[-> _]]]]%post_policy_channels_spec;
      unfold default_channels; set_solver. }
  unfold determine_channels. case_decide; [|done].
  intros [->%elem_of_singleton|?]%elem_of_union; [|auto].
  unfold default_channels. set_solver.
Qed.

End channel_spec.

(** ** What is never counted *)

Section never_counted.
Variable hash : string * string → Z.
Variable c : DefaultCounter.
Variable reference_name : string.

(** A channel that is not one of the five default channels is never
    written to the count store by a [DefaultCounter]. *)
Theorem other_channels_are_never_counted (bs : list (string * string * list alignment))
    (st st' : main_state) (key : string * string) (ch : string) :
  ch ∉ default_channels →
  count_bundles hash c reference_name st bs = Ok st' →
  get_count (dge st') key ch = get_count (dge st) key ch.
Proof.
  intros Hch.
  apply (count_bundles_ind hash c reference_name
           (λ s, get_count (dge s) key ch = get_count (dge st) key ch)); [|done].
  intros st0 cell umi bundle st1 _ HP [->|(g & fs & u & ->)]%count_bundle_add_read;
    [done|].
  rewrite get_count_add_read, HP, decide_False; [lia|].
  intros [_ Hin]. by apply determine_channels_default in Hin.
Qed.

Lemma choose_gene_str a st g gf st' :
  choose_gene c a st = Ok ((GStr g, gf), st') →
  length (gn a) = 1 ∨ select_gene c = gene_chrom.
Proof.
  unfold choose_gene. destruct (decide (length (gn a) = 1)) as [?|Hlen]; [by left|].
  unfold mbind, M_bind, bump. simpl. unfold call_select_gene.
  destruct (select_gene c); [|by right].
  unfold select_gene_by_priority. case_decide; [|done]. by destruct (gn a).
Qed.

Lemma process_bam_bundle_str cell umi bundle st g chs st' :
  process_bam_bundle hash c cell umi bundle st = Ok ((GStr g, chs), st') →
  (∃ a, a ∈ bundle ∧ length (gn a) = 1) ∨ select_gene c = gene_chrom.
Proof.
  unfold process_bam_bundle. intros H.
  apply M_bind_inv in H as (sel & st1 & Hsel & H).
  apply choose_alignment_stats in Hsel as (_ & _ & Hin).
  destruct sel as [a|]; [|done].
  apply M_bind_inv in H as ([gene gf] & st2 & Hg & H).
  assert (gene = GStr g) as ->.
  { destruct (truthy gene).
    - apply M_bind_inv in H as (chs' & st3 & _ & H). by injection H as -> _ _.
    - by injection H as -> _ _. }
  apply choose_gene_str in Hg as [?|?]; [left; by exists a|by right].
Qed.

(** With the priority strategy for genes, a loop over bundles whose
    alignments all list two or more gene names, or none, leaves the count
    store as it was: it returns without counting or it raises. *)
Theorem multi_gene_alignments_are_never_counted
    (bs : list (string * string * list alignment)) (st st' : main_state) :
  select_gene c = gene_priority →
  (∀ b a, b ∈ bs → a ∈ b.2 → length (gn a) ≠ 1) →
  count_bundles hash c reference_name st bs = Ok st' →
  dge st' = dge st.
Proof.
  intros Hsel Hall.
  apply (count_bundles_ind hash c reference_name (λ s, dge s = dge st)); [|done].
  intros st0 cell umi bundle st1 Hin HP (gene & chs & Hp & _ & ->)%count_bundle_step.
  destruct gene as [g| |]; try done.
  apply process_bam_bundle_str in Hp as [(a & Ha & Hlen)|Hc]; [|congruence].
  by destruct (Hall (cell, umi, bundle) a Hin Ha).
Qed.

End never_counted.

Lemma other_channels_are_never_counted_witness :
  ∃ st',
    count_bundles length_hash default_counter "genome" fresh_main two_reads = Ok st'
    ∧ get_count (dge st') ("GeneA", "AAAA") "mirna_reads"
      = get_count (dge fresh_main) ("GeneA", "AAAA") "mirna_reads".
Proof.
  assert ("mirna_reads" ∉ default_channels) as Hch.
  { unfold default_channels. rewrite !not_elem_of_cons.
    repeat split; try (by intros [=]). apply not_elem_of_nil. }
  assert (∃ st',
    count_bundles length_hash default_counter "genome" fresh_main two_reads = Ok st')
    as [st' Hrun] by (eexists; vm_compute; reflexivity).
  exists st'. split; [exact Hrun|].
  exact (other_channels_are_never_counted length_hash default_counter "genome" two_reads
           fresh_main st' ("GeneA", "AAAA") "mirna_reads" Hch Hrun).
Defined.

Lemma multi_gene_alignments_are_never_counted_witness :
  ∃ st',
    count_bundles length_hash default_counter "genome" fresh_main
      [("AAAA", "UMI1", [aln ["GeneA"; "GeneB"] ["C"; "C"]])] = Ok st'
    ∧ dge st' = dge fresh_main.
Proof.
  assert (∀ b a, b ∈ [("AAAA", "UMI1", [aln ["GeneA"; "GeneB"] ["C"; "C"]])] →
                 a ∈ b.2 → length (gn a) ≠ 1) as Hall.
  { intros b a ->%list_elem_of_singleton ->%list_elem_of_singleton. simpl. lia. }
  assert (select_gene default_counter = gene_priority) as Hsel by reflexivity.
  assert (∃ st',
    count_bundles length_hash default_counter "genome" fresh_main
      [("AAAA", "UMI1", [aln ["GeneA"; "GeneB"] ["C"; "C"]])] = Ok st')
    as [st' Hrun] by (eexists; vm_compute; reflexivity).
  exists st'. split; [exact Hrun|].
  exact (multi_gene_alignments_are_never_counted length_hash default_counter "genome" _
           fresh_main st' Hsel Hall Hrun).
Defined.
